(** * Schubfach: binary floating point to shortest decimal

  A shallow embedding of [schubfach.hpp] (namespace [schubfach]) and the
  properties its specification states about it.

  Conventions of the embedding:
  - a C++ integer of width [w] is a [Z]; every operation that can leave the
    range of its type is followed by the wrap of that type ([wrapu] for the
    unsigned types, [wraps] for the two's complement ones);
  - [>>] on a signed value is the arithmetic shift, [Z.shiftr];
  - [SF_ASSERT] is an abort: a function that asserts returns an [option]
    and [None] stands for the failed assertion;
  - [reinterpret_bits] is the identity on the bit pattern: the constructor
    of [float_triple] is modelled on the encoded word. *)

From Stdlib Require Import ZArith QArith Qpower Qabs Lia Lqa List Bool.
Import ListNotations.

Local Open Scope Z_scope.

(** ** Fixed-width integers *)

Definition wrapu (w x : Z) : Z := x mod 2 ^ w.

Definition wraps (w x : Z) : Z := (x + 2 ^ (w - 1)) mod 2 ^ w - 2 ^ (w - 1).

Definition u16 : Z -> Z := wrapu 16.
Definition u32 : Z -> Z := wrapu 32.
Definition u64 : Z -> Z := wrapu 64.
Definition u128 : Z -> Z := wrapu 128.
Definition i32 : Z -> Z := wraps 32.

Definition b2z (b : bool) : Z := if b then 1 else 0.

(** [std::bit_width]: the number of bits needed to write [x], 0 for 0. *)
Definition bit_width (x : Z) : Z := if x =? 0 then 0 else Z.log2 x + 1.

Fixpoint popcount_pos (p : positive) : Z :=
match p with
| xH => 1
| xO q => popcount_pos q
| xI q => 1 + popcount_pos q
end.

(** [std::popcount] on an unsigned value. *)
Definition popcount (x : Z) : Z :=
match x with
| Zpos p => popcount_pos p
| _ => 0
end.

(** ** [std::numeric_limits<Float>]: the two constants the traits read *)

Record numeric_limits : Set := {
digits : Z;
max_exponent : Z
}.

Definition limits_float : numeric_limits := {| digits := 24; max_exponent := 128 |}.
Definition limits_double : numeric_limits := {| digits := 53; max_exponent := 1024 |}.

(** ** [float_traits<Float>] *)

Module float_traits.
Section Traits.
Variable F : numeric_limits.

Definition significand_width : Z := u16 (digits F).
Definition exponent_width : Z := u16 (bit_width (u32 (max_exponent F))).
Definition sign_width : Z := 1.
Definition has_hidden_bit : bool :=
  negb ((sign_width + exponent_width + significand_width) mod 8 =? 0).
Definition storage_width : Z :=
  u16 (sign_width + exponent_width + significand_width
       + (if has_hidden_bit then -1 else 0)).
Definition exponent_bias : Z := i32 (max_exponent F + significand_width - 2).

(** [uint_t], given by its width. *)
Definition uint_bits : Z :=
  if storage_width <=? 8 then 8
  else if storage_width <=? 16 then 16
  else if storage_width <=? 32 then 32
  else if storage_width <=? 64 then 64
  else 128.
Definition uint_t : Z -> Z := wrapu uint_bits.

Definition exponent_shift : Z := u16 (storage_width - sign_width - exponent_width).
Definition sign_shift : Z := u16 (storage_width - sign_width).
Definition significand_mask : Z :=
  uint_t (uint_t (Z.shiftl 1 (significand_width + (if has_hidden_bit then -1 else 0))) - 1).
Definition exponent_mask : Z :=
  uint_t (Z.shiftl (uint_t (uint_t (Z.shiftl 1 exponent_width) - 1)) exponent_shift).
Definition sign_mask : Z :=
  uint_t (Z.shiftl (uint_t (uint_t (Z.shiftl 1 sign_width) - 1)) sign_shift).
End Traits.
End float_traits.

(** ** [math<uint_t>], given the width [d = limits::digits] of [uint_t] *)

Module math.
Section Math.
Variable d : Z.

Definition uint_t : Z -> Z := wrapu d.
Definition uint_2_bits : Z := if d <=? 32 then 64 else 128.
Definition uint_2_t : Z -> Z := wrapu uint_2_bits.
Definition uint_4_t : Z -> Z := u128.

Definition floor_log2_pow10 (e : Z) : Z := Z.shiftr (i32 (e * 1741647)) 19.

Definition word0 (x : Z) : Z := uint_t (Z.shiftr x d).
Definition word1 (x : Z) : Z := uint_t (Z.shiftr x (2 * d)).

Definition round_to_odd (g cp : Z) : Z :=
  let p := uint_4_t (uint_4_t g * cp) in
  let y1 := word1 p in
  let y0 := word0 p in
  uint_t (Z.lor y1 (b2z (1 <? y0))).
End Math.

(** [math<uint32_t>::compute_pow10]: the only specialisation the file has. *)
Definition kMin : Z := -31.
Definition kMax : Z := 45.

Definition g : list Z :=
[ 0x81CEB32C4B43FCF5; 0xA2425FF75E14FC32; 0xCAD2F7F5359A3B3F; 0xFD87B5F28300CA0E;
  0x9E74D1B791E07E49; 0xC612062576589DDB; 0xF79687AED3EEC552; 0x9ABE14CD44753B53;
  0xC16D9A0095928A28; 0xF1C90080BAF72CB2; 0x971DA05074DA7BEF; 0xBCE5086492111AEB;
  0xEC1E4A7DB69561A6; 0x9392EE8E921D5D08; 0xB877AA3236A4B44A; 0xE69594BEC44DE15C;
  0x901D7CF73AB0ACDA; 0xB424DC35095CD810; 0xE12E13424BB40E14; 0x8CBCCC096F5088CC;
  0xAFEBFF0BCB24AAFF; 0xDBE6FECEBDEDD5BF; 0x89705F4136B4A598; 0xABCC77118461CEFD;
  0xD6BF94D5E57A42BD; 0x8637BD05AF6C69B6; 0xA7C5AC471B478424; 0xD1B71758E219652C;
  0x83126E978D4FDF3C; 0xA3D70A3D70A3D70B; 0xCCCCCCCCCCCCCCCD; 0x8000000000000000;
  0xA000000000000000; 0xC800000000000000; 0xFA00000000000000; 0x9C40000000000000;
  0xC350000000000000; 0xF424000000000000; 0x9896800000000000; 0xBEBC200000000000;
  0xEE6B280000000000; 0x9502F90000000000; 0xBA43B74000000000; 0xE8D4A51000000000;
  0x9184E72A00000000; 0xB5E620F480000000; 0xE35FA931A0000000; 0x8E1BC9BF04000000;
  0xB1A2BC2EC5000000; 0xDE0B6B3A76400000; 0x8AC7230489E80000; 0xAD78EBC5AC620000;
  0xD8D726B7177A8000; 0x878678326EAC9000; 0xA968163F0A57B400; 0xD3C21BCECCEDA100;
  0x84595161401484A0; 0xA56FA5B99019A5C8; 0xCECB8F27F4200F3A; 0x813F3978F8940985;
  0xA18F07D736B90BE6; 0xC9F2C9CD04674EDF; 0xFC6F7C4045812297; 0x9DC5ADA82B70B59E;
  0xC5371912364CE306; 0xF684DF56C3E01BC7; 0x9A130B963A6C115D; 0xC097CE7BC90715B4;
  0xF0BDC21ABB48DB21; 0x96769950B50D88F5; 0xBC143FA4E250EB32; 0xEB194F8E1AE525FE;
  0x92EFD1B8D0CF37BF; 0xB7ABC627050305AE; 0xE596B7B0C643C71A; 0x8F7E32CE7BEA5C70;
  0xB35DBF821AE4F38C ].

(** The two assertions come first; the index is then inside the table. *)
Definition compute_pow10 (k : Z) : option Z :=
if negb (kMin <=? k) then None
else if negb (k <=? kMax) then None
else nth_error g (Z.to_nat (u32 (k - kMin))).
End math.

(** ** [float_triple<Float>] *)

Record float_triple : Set := {
significand : Z;
exponent : Z;
sign : Z
}.

(** The members of [float_triple<Float>].  [uint_t] is at least as wide as
  [int] for the kinds considered (single, double, extended), so unsigned
  arithmetic is arithmetic modulo [2 ^ uint_bits]. *)

Module triple.
Section Triple.
Variable F : numeric_limits.

(** [math<uint_t>::compute_pow10] of the kind: the source defines it for
    [uint32_t] only, so the conversion takes it as a parameter. *)
Variable compute_pow10 : Z -> option Z.

Let uint_t := float_traits.uint_t F.
Let d := float_traits.uint_bits F.

(** The constructor [float_triple(Float value)], on the encoded word. *)
Definition make (bits : Z) : float_triple :=
  let significand := uint_t bits in
  let exponent :=
    i32 (Z.shiftr (Z.land significand (float_traits.exponent_mask F))
                  (float_traits.exponent_shift F)) in
  let sign :=
    if Z.land significand (float_traits.sign_mask F) =? 0 then 1 else -1 in
  let significand := Z.land significand (float_traits.significand_mask F) in
  if (exponent =? 0) && negb (significand =? 0) then
    let exponent := i32 (float_traits.significand_width F - bit_width significand) in
    let significand := uint_t (Z.shiftl significand exponent) in
    let exponent := i32 (1 - float_traits.exponent_bias F - exponent) in
    {| significand := significand; exponent := exponent; sign := sign |}
  else if negb (exponent =? 0) then
    let significand :=
      if float_traits.has_hidden_bit F
      then Z.lor significand
                 (uint_t (Z.shiftl 1 (float_traits.significand_width F - 1)))
      else significand in
    let exponent := i32 (exponent - float_traits.exponent_bias F) in
    {| significand := significand; exponent := exponent; sign := sign |}
  else
    {| significand := significand; exponent := exponent; sign := sign |}.

(** [to_decimal], statement by statement.  [None] is a failed assertion of
    [compute_pow10]. *)
Definition to_decimal (t : float_triple) : option float_triple :=
  let is_even := significand t mod 2 =? 0 in
  let accept_lower := is_even in
  let accept_upper := is_even in
  let lower_boundary_is_closer := popcount (significand t) =? 1 in
  let cbl := uint_t (4 * significand t - 2 + b2z lower_boundary_is_closer) in
  let cb := uint_t (4 * significand t) in
  let cbr := uint_t (4 * significand t + 2) in
  let k :=
    Z.shiftr (i32 (i32 (exponent t * 1262611)
                   - (if lower_boundary_is_closer then 524031 else 0))) 22 in
  let h := i32 (i32 (exponent t + math.floor_log2_pow10 (i32 (- k))) + 1) in
  let exponent1 := k in
  match compute_pow10 (i32 (- exponent1)) with
  | None => None
  | Some pow10 =>
      let vbl := math.round_to_odd d pow10 (uint_t (Z.shiftl cbl h)) in
      let vb := math.round_to_odd d pow10 (uint_t (Z.shiftl cb h)) in
      let vbr := math.round_to_odd d pow10 (uint_t (Z.shiftl cbr h)) in
      let lower := uint_t (vbl + b2z (negb accept_lower)) in
      let upper := uint_t (vbr - b2z (negb accept_upper)) in
      let significand1 := vb / 4 in
      let same_digits :=
        let u_inside := lower <=? uint_t (4 * significand1) in
        let w_inside := uint_t (4 * significand1 + 4) <=? upper in
        if negb (Bool.eqb u_inside w_inside) then
          {| significand := uint_t (significand1 + b2z w_inside);
             exponent := exponent1;
             sign := sign t |}
        else
          let mid := uint_t (4 * significand1 + 2) in
          let round_up :=
            (mid <? vb) || ((vb =? mid) && negb (Z.land significand1 1 =? 0)) in
          {| significand := uint_t (significand1 + b2z round_up);
             exponent := exponent1;
             sign := sign t |} in
      if 10 <=? significand1 then
        let sp := significand1 / 10 in
        let up_inside := lower <=? uint_t (40 * sp) in
        let wp_inside := uint_t (40 * sp + 40) <=? upper in
        if negb (Bool.eqb up_inside wp_inside) then
          Some {| significand := uint_t (sp + b2z wp_inside);
                  exponent := i32 (exponent1 + 1);
                  sign := sign t |}
        else Some same_digits
      else Some same_digits
  end.

(** The locals of [to_decimal], named, for the statements below. *)
Definition is_even (t : float_triple) : bool := significand t mod 2 =? 0.
Definition lower_boundary_is_closer (t : float_triple) : bool :=
  popcount (significand t) =? 1.
Definition cbl (t : float_triple) : Z :=
  uint_t (4 * significand t - 2 + b2z (lower_boundary_is_closer t)).
Definition cb (t : float_triple) : Z := uint_t (4 * significand t).
Definition cbr (t : float_triple) : Z := uint_t (4 * significand t + 2).
Definition k_estimate (e : Z) (closer : bool) : Z :=
  Z.shiftr (i32 (i32 (e * 1262611) - (if closer then 524031 else 0))) 22.
Definition h_shift (e : Z) (closer : bool) : Z :=
  i32 (i32 (e + math.floor_log2_pow10 (i32 (- k_estimate e closer))) + 1).
Definition k_of (t : float_triple) : Z :=
  k_estimate (exponent t) (lower_boundary_is_closer t).
Definition h_of (t : float_triple) : Z :=
  h_shift (exponent t) (lower_boundary_is_closer t).
Definition vbl (t : float_triple) (pow10 : Z) : Z :=
  math.round_to_odd d pow10 (uint_t (Z.shiftl (cbl t) (h_of t))).
Definition vb (t : float_triple) (pow10 : Z) : Z :=
  math.round_to_odd d pow10 (uint_t (Z.shiftl (cb t) (h_of t))).
Definition vbr (t : float_triple) (pow10 : Z) : Z :=
  math.round_to_odd d pow10 (uint_t (Z.shiftl (cbr t) (h_of t))).
Definition lower (t : float_triple) (pow10 : Z) : Z :=
  uint_t (vbl t pow10 + b2z (negb (is_even t))).
Definition upper (t : float_triple) (pow10 : Z) : Z :=
  uint_t (vbr t pow10 - b2z (negb (is_even t))).
Definition candidate (t : float_triple) (pow10 : Z) : Z := vb t pow10 / 4.
Definition up_inside (t : float_triple) (pow10 : Z) : bool :=
  lower t pow10 <=? uint_t (40 * (candidate t pow10 / 10)).
Definition wp_inside (t : float_triple) (pow10 : Z) : bool :=
  uint_t (40 * (candidate t pow10 / 10) + 40) <=? upper t pow10.
Definition u_inside (t : float_triple) (pow10 : Z) : bool :=
  lower t pow10 <=? uint_t (4 * candidate t pow10).
Definition w_inside (t : float_triple) (pow10 : Z) : bool :=
  uint_t (4 * candidate t pow10 + 4) <=? upper t pow10.
End Triple.
End triple.

(** The single precision instance, the one the source can run. *)
Definition make32 : Z -> float_triple := triple.make limits_float.
Definition to_decimal32 : float_triple -> option float_triple :=
triple.to_decimal limits_float math.compute_pow10.

Definition show (o : option float_triple) : option (Z * Z * Z) :=
match o with
| Some t => Some (significand t, exponent t, sign t)
| None => None
end.


(** * Specification side *)

(** ** Round to odd, as the specification words it

    The high word of the product, its lowest bit forced to 1 when any bit of
    the product below the high word is set. *)
Definition round_to_odd_any_low_bit (g cp : Z) : Z :=
  let p := g * cp in
  Z.lor (p / 2 ^ 64) (b2z (negb (p mod 2 ^ 64 =? 0))).

(** ** The exponent estimate, as the specification words it

    A multiply-shift by a constant scaled by [2 ^ 19]: the multiplier and the
    correction of the source, the shift of the specification. *)
Definition k_scaled_19 (e : Z) (closer : bool) : Z :=
  Z.shiftr (i32 (i32 (e * 1262611) - (if closer then 524031 else 0))) 19.

(** [k] is the floor of the decimal logarithm of the positive rational [x]. *)
Definition floor_log10 (x : Q) (k : Z) : Prop :=
  (10 ^ k <= x /\ x < 10 ^ (k + 1))%Q.

(** [m] is the floor of the binary logarithm of the positive rational [x]. *)
Definition floor_log2 (x : Q) (m : Z) : Prop :=
  (2 ^ m <= x /\ x < 2 ^ (m + 1))%Q.

(** The value whose decimal logarithm [to_decimal] estimates: [2 ^ e], or
    three quarters of it when the lower boundary is closer. *)
Definition estimated (e : Z) (closer : bool) : Q :=
  ((if closer then 3 # 4 else 1) * 2 ^ e)%Q.

(** Tables of powers, so that the check of a range of exponents does not
    recompute them: [powers b x n] is [x; b * x; ...; b ^ (n - 1) * x]. *)
Fixpoint powers (b x : Z) (n : nat) : list Z :=
  match n with
  | O => []
  | S n' => x :: powers b (b * x) n'
  end.

Definition pow2_table : list Z := powers 2 1 1600.
Definition pow10_table : list Z := powers 10 1 520.

(** [b ^ z] read in the table of the powers of [b], for [z] of any sign. *)
Definition tpow (tbl : list Z) (z : Z) : Q :=
  if 0 <=? z then inject_Z (nth (Z.to_nat z) tbl 0)
  else / inject_Z (nth (Z.to_nat (- z)) tbl 0).

Definition within (lo x hi : Q) : bool := Qle_bool lo x && negb (Qle_bool hi x).

(** The integers from [lo], [n] of them. *)
Fixpoint zrange (lo : Z) (n : nat) : list Z :=
  match n with
  | O => []
  | S n' => lo :: zrange (lo + 1) n'
  end.

(** The exponents checked for the estimate: [-1500 .. 1500]. *)
Definition estimate_exponents : list Z := zrange (-1500) 3001.

Definition estimate_ok (p2 p10 : list Z) (e : Z) : bool :=
  forallb (fun closer : bool =>
    let k := triple.k_estimate e closer in
    let m := math.floor_log2_pow10 (i32 (- k)) in
    (Z.abs (e * 1262611) + 524031 <? 2 ^ 31)
    && (Z.abs (k * 1741647) <? 2 ^ 31)
    && within (tpow p10 k) ((if closer then 3 # 4 else 1) * tpow p2 e) (tpow p10 (k + 1))
    && within (tpow p2 m) (tpow p10 (- k)) (tpow p2 (m + 1))
    && (1 <=? e + m + 1) && (e + m + 1 <=? 4)) [false; true].

(** ** The encoding of a binary interchange format

    The value a bit pattern stands for, by the IEEE 754 rules for a format of
    precision [p = digits] and maximal exponent [emax = max_exponent - 1]:
    the trailing significand [T] is the low [p - 1] bits, the biased exponent
    [E] the next [w] bits ([2 ^ (w - 1) = emax + 1]), the sign the bit above
    them.  The magnitude is [2 ^ (E - emax) * (1 + T * 2 ^ (1 - p))] when
    [E] is not zero and [2 ^ (1 - emax) * (T * 2 ^ (1 - p))] when it is. *)
Definition exponent_bits (F : numeric_limits) : Z := Z.log2 (max_exponent F) + 1.

Definition trailing_field (F : numeric_limits) (bits : Z) : Z :=
  bits mod 2 ^ (digits F - 1).

Definition exponent_field (F : numeric_limits) (bits : Z) : Z :=
  (bits / 2 ^ (digits F - 1)) mod 2 ^ exponent_bits F.

Definition sign_field (F : numeric_limits) (bits : Z) : Z :=
  (bits / 2 ^ (digits F - 1 + exponent_bits F)) mod 2.

Definition finite_nonzero (F : numeric_limits) (bits : Z) : Prop :=
  exponent_field F bits < 2 ^ exponent_bits F - 1
  /\ (exponent_field F bits <> 0 \/ trailing_field F bits <> 0).

Definition ieee_magnitude (F : numeric_limits) (bits : Z) : Q :=
  let p := digits F in
  let emax := max_exponent F - 1 in
  if exponent_field F bits =? 0
  then (inject_Z (trailing_field F bits) * 2 ^ (1 - emax - (p - 1)))%Q
  else (inject_Z (2 ^ (p - 1) + trailing_field F bits)
        * 2 ^ (exponent_field F bits - emax - (p - 1)))%Q.

(** ** The scaled value

    [to_decimal] works on [V = v * 10 ^ - k] for the value [v = c * 2 ^ e]:
    [2 ^ e * 10 ^ - k] is the fraction [ratio_num e k / ratio_den e k], in
    lowest terms. *)
Definition ratio_num (e k : Z) : Z := 2 ^ Z.max (e - k) 0 * 5 ^ Z.max (- k) 0.
Definition ratio_den (e k : Z) : Z := 2 ^ Z.max (k - e) 0 * 5 ^ Z.max k 0.

(** Round to odd of the fraction [X / B], exactly: the quotient when the
    division is exact, the quotient with its lowest bit set when it is not. *)
Definition exact_round_to_odd (X B : Z) : Z :=
  if X mod B =? 0 then X / B else Z.lor (X / B) 1.

(** ** Certificates for the products of [round_to_odd]

    For the exponent [e] and [n] from [n_min] to [n_max] (twice [n] runs over
    [cbl], [cb] and [cbr] of the significands that are not a power of two),
    the fractional part of [2 n * ratio_num / ratio_den] is zero or far
    enough from 0 and 1 for the rounded-up table mantissa to give the exact
    round to odd.  The denominator is small ([Small]), or two linear forms
    [alpha * n + beta * y] vanish on every offending pair ([Pair], given by
    the two [beta]), or one does and its few solutions are evaluated
    ([Line]). *)
Inductive certificate : Set :=
| Small
| Pair (b1 b2 : Z)
| Line (b : Z).

Definition certificates : list certificate :=
  [Pair (-14446219) (86233405); Pair (-14446219) (35893593);
    Pair (-25169906) (136573217); Pair (-25169906) (708035991);
    Pair (-12584953) (720620944); Pair (-12584953) (360310472);
    Pair (-12584953) (180155236); Pair (3965894) (-62924765);
    Pair (1982947) (-62924765); Pair (-30470909) (32453856);
    Pair (32453856) (-1093516369); Pair (16226928) (-1093516369);
    Pair (8113464) (-1093516369); Pair (18028199) (-22539121);
    Pair (20283660) (-1077289441); Pair (10141830) (-1087431271);
    Pair (5070915) (-1092502186); Pair (25354575) (-1072218526);
    Pair (25354575) (-536109263); Pair (25354575) (-255377344);
    Pair (-1831594) (126772875); Pair (-915797) (126772875); Pair (-915797) (62928539);
    Pair (-4578985) (60181148); Pair (30090574) (-64760133);
    Pair (15045287) (-79805420); Pair (15045287) (-39902710);
    Pair (-24857423) (174656127); Pair (-24857423) (74899352);
    Pair (-24857423) (37449676); Pair (12592253) (-162063874);
    Pair (12592253) (-81031937); Pair (12592253) (-34219842);
    Pair (-5478419) (28741423); Pair (-17109921) (336720001);
    Pair (-17109921) (159805040); Pair (-17109921) (79902520);
    Pair (5815751) (-39866927); Pair (22841339) (-176914961);
    Pair (22841339) (-77036811); Pair (22841339) (-430866733);
    Pair (22841339) (-204012697); Pair (22841339) (-90585679);
    Pair (22841339) (-544293751); Pair (22841339) (-260726206);
    Pair (22841339) (-130363103); Pair (22841339) (-53760882);
    Pair (-1393273) (37604474); Pair (18802237) (-57799984);
    Pair (18802237) (-28899992); Pair (-11491028) (27506719);
    Pair (-5745514) (33252233); Pair (-2872757) (33252233);
    Pair (-14363785) (30379476); Pair (15189738) (-105502213);
    Pair (7594869) (-105502213); Pair (-6768916) (37974345);
    Pair (-3384458) (37974345); Pair (-1692229) (39666574);
    Pair (19833287) (-81025377); Pair (16448829) (-41358803);
    Pair (-12454987) (28903816); Pair (14451908) (-55810711);
    Pair (-10458066) (30900737); Pair (-5229033) (36129770);
    Pair (18064885) (-41358803); Pair (7606819) (-41358803);
    Pair (-16875992) (24482811); Pair (-8437996) (32920807);
    Pair (-4218998) (37139805); Pair (20263813) (-41358803);
    Pair (-10547495) (30811308); Pair (15405654) (-56764457);
    Pair (-5689336) (35669467); Pair (-2844668) (38514135); Pair (-1422334) (39936469);
    Pair (-7111670) (34247133); Pair (-3555835) (37802968);
    Pair (18901484) (-41358803); Pair (9450742) (-50809545);
    Pair (-13006577) (60260287); Pair (23626855) (-36633432);
    Pair (-18316716) (60260287); Pair (-7696438) (41943571);
    Pair (-3848219) (41943571); Pair (-22895895) (64839466);
    Pair (-26744114) (60991247); Pair (-13372057) (74363304);
    Pair (-13372057) (37181652); Pair (18590826) (-124917013);
    Pair (29028364) (-31962883); Pair (14514182) (-31962883);
    Pair (7257091) (-39219974); Pair (-17448701) (53734156);
    Pair (26867078) (-124917013); Pair (13433539) (-124917013);
    Pair (9418377) (-57749318); Pair (-28874659) (96042354);
    Pair (19146518) (-28874659); Pair (9573259) (-38447918);
    Pair (-28874659) (134490272); Pair (-28874659) (67245136);
    Pair (-28874659) (33622568); Pair (4747909) (-163364931); Small; Small; Small;
    Small; Small; Small; Small; Small; Small; Small; Small; Small; Small; Small; Small;
    Small; Small; Small; Small; Small; Small; Small; Small; Small; Small; Small; Small;
    Small; Small; Small; Small; Small; Small; Small; Small; Small; Small; Small; Small;
    Small; Small; Small; Small; Small; Small; Small; Small; Small; Small; Small; Small;
    Small; Small; Small; Small; Small; Small; Small; Small; Small; Small; Small; Small;
    Small; Small; Small; Small; Small; Small; Small; Small; Small; Small; Small; Small;
    Small; Small; Small; Small; Small; Small; Small; Small; Small; Small; Small; Small;
    Small; Small; Small; Small; Small; Pair (-13494369) (51291698);
    Pair (25645849) (-90431916); Pair (-19570109) (25645849);
    Pair (25645849) (-251725639); Pair (25645849) (-113039895);
    Pair (-18051174) (25645849); Pair (-9025587) (34671436);
    Pair (-10456499) (34671436); Line (17335718); Line (8667859);
    Pair (-19124358) (43339295); Pair (-9562179) (43339295);
    Pair (16888558) (-26450737); Pair (-26450737) (216696475);
    Pair (-26450737) (95122869); Pair (-26450737) (34336066);
    Pair (17168033) (-60786803); Pair (-9282704) (95122869);
    Pair (-4641352) (95122869); Pair (-2320676) (97443545);
    Pair (-11603380) (90481517); Pair (-5801690) (96283207);
    Pair (-2900845) (99184052); Pair (-14504225) (87580672);
    Pair (-14504225) (43790336); Pair (21895168) (-102084897);
    Pair (10947584) (-113032481); Pair (10947584) (-608952741);
    Pair (5473792) (-614426533); Pair (2736896) (-614426533);
    Pair (13684480) (-614426533); Pair (6842240) (-614426533);
    Pair (3421120) (-614426533); Pair (17105600) (-614426533);
    Pair (8552800) (-614426533); Pair (4276400) (-614426533);
    Pair (2138200) (-616564733); Pair (10691000) (-614426533);
    Pair (5345500) (-614426533); Pair (2672750) (-614426533);
    Pair (13363750) (-614426533); Pair (6681875) (-614426533);
    Pair (6681875) (-303872329); Pair (-9869829) (33409375);
    Pair (-21639602) (33409375); Pair (-10819801) (33409375);
    Pair (-22114588) (77638551); Pair (11294787) (-121867727);
    Pair (11294787) (-55286470); Pair (-27643235) (66581257);
    Pair (-5053661) (66581257); Pair (30763798) (-35817459);
    Pair (15381899) (-51199358); Pair (15381899) (-302142487);
    Pair (15381899) (-143380294); Pair (15381899) (-71690147);
    Pair (20601247) (-56308248); Pair (-28154124) (273988363) ].

Definition certificate_of (e : Z) : certificate :=
  nth (Z.to_nat (e + 149)) certificates Small.

Definition n_min : Z := 2 ^ 24 - 1.
Definition n_max : Z := 2 ^ 25 + 1.

(** The residue of [x] modulo [B] of least absolute value. *)
Definition centered (x B : Z) : Z :=
  let r := x mod B in if 2 * r <=? B then r else r - B.

Definition alpha_of (a B beta : Z) : Z := - centered (beta * a) B.

Definition functional_ok (a B beta : Z) : bool :=
  Z.abs (alpha_of a B beta) * n_max * 2 ^ 31 + Z.abs beta * B <? B * 2 ^ 31.

Definition direct_ok (g h A B n : Z) : bool :=
  math.round_to_odd 32 g (2 * n * 2 ^ h) =? exact_round_to_odd (2 * n * A) B.

Definition certificate_ok (g h A B : Z) (c : certificate) : bool :=
  let a := (2 * A) mod B in
  match c with
  | Small => B <=? 2 ^ 31
  | Pair b1 b2 =>
      functional_ok a B b1 && functional_ok a B b2
      && negb (alpha_of a B b1 * b2 - alpha_of a B b2 * b1 =? 0)
  | Line b =>
      functional_ok a B b && (Z.gcd (alpha_of a B b) b =? 1) && (0 <? Z.abs b)
      && forallb (fun j => (Z.abs b * j <? n_min) || direct_ok g h A B (Z.abs b * j))
                 (zrange (n_min / Z.abs b)
                         (Z.to_nat (n_max / Z.abs b - n_min / Z.abs b + 1)))
  end.

(** What is checked of one binary exponent of a normal value. *)
Definition exponent_ok (e : Z) : bool :=
  let k := triple.k_estimate e false in
  let h := triple.h_shift e false in
  let A := ratio_num e k in
  let B := ratio_den e k in
  match math.compute_pow10 (i32 (- k)) with
  | None => false
  | Some g =>
      (1 <=? h) && (h <=? 4) && (0 <=? g) && (g <? 2 ^ 64)
      && ((g - 1) * B <? A * 2 ^ (64 - h)) && (A * 2 ^ (64 - h) <=? g * B)
      && (B <=? A) && (A <? 10 * B)
      && certificate_ok g h A B (certificate_of e)
  end.

(** The binary exponents of the normal single precision values. *)
Definition normal_exponents : list Z := zrange (-149) 254.

(** ** The rounding interval, in units of [10 ^ k / 4]

    [true_cbl] is four times the significand less the half distance to the
    predecessor: the predecessor is closer when the significand is [2 ^ 23]
    and the value is not the smallest normal one. *)
Definition true_cbl (c e : Z) : Z :=
  4 * c - 2 + b2z ((c =? 2 ^ 23) && (-149 <? e)).

(** The two sides of the interval [Xl / B .. Xr / B], in quarters of the
    unit: closed when [ev] holds, open when it does not. *)
Definition low_ok (ev : bool) (Xl B z : Z) : bool :=
  if ev then Xl <=? 4 * z * B else Xl <? 4 * z * B.

Definition up_ok (ev : bool) (Xr B z : Z) : bool :=
  if ev then 4 * z * B <=? Xr else 4 * z * B <? Xr.

Definition inside (ev : bool) (Xl Xr B z : Z) : bool :=
  low_ok ev Xl B z && up_ok ev Xr B z.

(** [z * 10 ^ k] rounds to [c * 2 ^ e]. *)
Definition in_interval (c e k z : Z) : bool :=
  inside (Z.even c) (true_cbl c e * ratio_num e k) ((4 * c + 2) * ratio_num e k)
         (ratio_den e k) z.

(** The result [r] of [to_decimal] on [(c, e)]: its exponent is the estimate
    or one more, its value rounds to [c * 2 ^ e], and it is the only decimal
    with an exponent above its own that does. *)
Definition post (c e : Z) (r : float_triple) : Prop :=
  let k := triple.k_estimate e (popcount c =? 1) in
  let j := exponent r in
  (j = k \/ j = k + 1)
  /\ in_interval c e k (significand r * 10 ^ (j - k)) = true
  /\ forall z, in_interval c e k (z * 10 ^ (j + 1 - k)) = true ->
               z * 10 ^ (j + 1 - k) = significand r * 10 ^ (j - k).

(** The same, decided: the multiples of [U = 10 ^ (j + 1 - k)] next to the
    result are outside the interval, or are the result. *)
Definition post_b (c e : Z) (r : float_triple) : bool :=
  let k := triple.k_estimate e (popcount c =? 1) in
  let j := exponent r in
  let z := significand r * 10 ^ (j - k) in
  let U := 10 ^ (j + 1 - k) in
  let t := z / U in
  ((j =? k) || (j =? k + 1))
  && in_interval c e k z
  && (negb (in_interval c e k (t * U))
      || ((t * U =? z) && negb (in_interval c e k ((t - 1) * U))))
  && negb (in_interval c e k ((t + 1) * U)).

Definition power_of_two_ok (e : Z) : bool :=
  match to_decimal32 {| significand := 2 ^ 23; exponent := e; sign := 1 |} with
  | None => false
  | Some r => post_b (2 ^ 23) e r && (1 <=? significand r) && (significand r <? 2 ^ 31)
  end.

(** ** Decimals and their digits *)

Definition decimal_value (m j : Z) : Q := (inject_Z m * 10 ^ j)%Q.

Fixpoint ndigits_fuel (fuel : nat) (m : Z) : Z :=
  match fuel with
  | O => 1
  | S fuel' => if m <? 10 then 1 else 1 + ndigits_fuel fuel' (m / 10)
  end.

(** The number of decimal digits of [m > 0]. *)
Definition ndigits (m : Z) : Z := ndigits_fuel (Z.to_nat (Z.log2 m)) m.

Fixpoint strip_fuel (fuel : nat) (m : Z) : Z :=
  match fuel with
  | O => m
  | S fuel' => if (0 <? m) && (m mod 10 =? 0) then strip_fuel fuel' (m / 10) else m
  end.

(** [m] without its trailing zeros. *)
Definition strip_zeros (m : Z) : Z := strip_fuel (Z.to_nat (Z.log2 m)) m.

(** The significant digits of a decimal significand. *)
Definition significant_digits (m : Z) : Z := ndigits (strip_zeros m).

(** ** Parsing under round to nearest, ties to even *)

(** [x] is between [lo] and [hi]: the ends count when [ev] holds. *)
Definition qinside (ev : bool) (lo hi x : Q) : Prop :=
  if ev then (lo <= x /\ x <= hi)%Q else (lo < x /\ x < hi)%Q.

(** The positive rational [x] rounds to the value encoded by the magnitude
    pattern [bits] when it is no farther from it than the midpoints to the
    two neighbouring values, the patterns [bits - 1] and [bits + 1], and
    strictly nearer than them unless the last bit of the significand is 0.
    The pattern after the largest finite value stands for [2 ^ max_exponent],
    the threshold of overflow. *)
Definition rounds_to_nearest_even (F : numeric_limits) (x : Q) (bits : Z) : Prop :=
  let v := ieee_magnitude F bits in
  let below := ((ieee_magnitude F (bits - 1) + v) / 2)%Q in
  let above := ((v + ieee_magnitude F (bits + 1)) / 2)%Q in
  qinside (Z.even bits) below above x.

(** The decimal [sgn * m * 10 ^ j] parses to the value encoded by [bits]. *)
Definition parses_to (F : numeric_limits) (sgn m j bits : Z) : Prop :=
  sgn = (if sign_field F bits =? 0 then 1 else -1)
  /\ rounds_to_nearest_even F (decimal_value m j)
       (bits mod 2 ^ (digits F - 1 + exponent_bits F)).

(** The ends of the rounding interval of [c * 2 ^ e]. *)
Definition interval_low (c e : Z) : Q := (inject_Z (true_cbl c e) * 2 ^ (e - 2))%Q.
Definition interval_high (c e : Z) : Q := (inject_Z (4 * c + 2) * 2 ^ (e - 2))%Q.

(** ** The tail of [to_decimal], single precision

    The significand [to_decimal] returns, and whether it trimmed a digit, as
    a function of the parity of the binary significand and of the three
    rounded products. *)
Definition choose (even : bool) (vbl vb vbr : Z) : Z * bool :=
  let lower := u32 (vbl + b2z (negb even)) in
  let upper := u32 (vbr - b2z (negb even)) in
  let s := vb / 4 in
  let up_inside := lower <=? u32 (40 * (s / 10)) in
  let wp_inside := u32 (40 * (s / 10) + 40) <=? upper in
  if (10 <=? s) && negb (Bool.eqb up_inside wp_inside)
  then (u32 (s / 10 + b2z wp_inside), true)
  else
    let u_inside := lower <=? u32 (4 * s) in
    let w_inside := u32 (4 * s + 4) <=? upper in
    if negb (Bool.eqb u_inside w_inside)
    then (u32 (s + b2z w_inside), false)
    else
      let mid := u32 (4 * s + 2) in
      (u32 (s + b2z ((mid <? vb) || ((vb =? mid) && negb (Z.land s 1 =? 0)))),
       false).

(** ** Subnormal inputs

    The binary exponents the constructor gives to the subnormal single
    precision values, and what is checked of each: for either value of
    [lower_boundary_is_closer] the index passed to [compute_pow10] is above
    [kMax], and the lookup fails. *)
Definition subnormal_exponents : list Z := zrange (-172) 23.

Definition outside_table (e : Z) : bool :=
  forallb
    (fun closer =>
       let index := i32 (- triple.k_estimate e closer) in
       (math.kMax <? index) && (index <=? 52)
       && match math.compute_pow10 index with None => true | Some _ => false end)
    [false; true].

(** ** The table of [compute_pow10]

    The indices the lookup accepts, and what is checked of each entry [g]:
    it is a 64-bit number with its top bit set, and it is
    [10 ^ k * 2 ^ (63 - floor_log2_pow10 k)] rounded up.  The scaled power is
    the fraction [scaled_pow10_num k / scaled_pow10_den k]. *)
Definition table_indices : list Z := zrange math.kMin 77.

Definition scaled_pow10_num (k : Z) : Z :=
  10 ^ Z.max k 0 * 2 ^ Z.max (63 - math.floor_log2_pow10 k) 0.

Definition scaled_pow10_den (k : Z) : Z :=
  10 ^ Z.max (- k) 0 * 2 ^ Z.max (- (63 - math.floor_log2_pow10 k)) 0.

Definition entry_ok (k : Z) : bool :=
  match math.compute_pow10 k with
  | None => false
  | Some g =>
      (2 ^ 63 <=? g) && (g <? 2 ^ 64)
      && ((g - 1) * scaled_pow10_den k <? scaled_pow10_num k)
      && (scaled_pow10_num k <=? g * scaled_pow10_den k)
  end.

(** ** The binary logarithm of a power of ten

    [log2_pow10_ok n e p], for [p = 10 ^ e], checks [n] exponents from [e]
    on: the product in [floor_log2_pow10] stays an [int32_t], the result at
    [e] is the binary logarithm of [p], and the result at [- e] is what it
    must be when [p] lies strictly between two powers of two. *)
Fixpoint log2_pow10_ok (n : nat) (e p : Z) : bool :=
  match n with
  | O => true
  | S n' =>
      (e * 1741647 <? 2 ^ 31)
      && (math.floor_log2_pow10 e =? Z.log2 p)
      && ((e =? 0)
          || ((math.floor_log2_pow10 (- e) =? - Z.log2 p - 1)
              && (Z.log2 (p - 1) =? Z.log2 p)))
      && log2_pow10_ok n' (e + 1) (10 * p)
  end.

(** ** The sign of a triple *)
Definition with_sign (s : Z) (t : float_triple) : float_triple :=
  {| significand := significand t; exponent := exponent t; sign := s |}.

(** ** The nearest decimal

    [distance c e k z] is the distance of [z * 10 ^ k] from [c * 2 ^ e], in
    the unit of [in_interval] divided by [ratio_den e k]. *)
Definition distance (c e k z : Z) : Z :=
  Z.abs (4 * z * ratio_den e k - 4 * c * ratio_num e k).

(** The result [r] of [to_decimal] on [(c, e)]: of the decimals with its
    exponent that round to [c * 2 ^ e] it is the nearest to [c * 2 ^ e], and
    of two nearest ones the one with the even significand. *)
Definition nearest (c e : Z) (r : float_triple) : Prop :=
  let k := triple.k_estimate e (popcount c =? 1) in
  let U := 10 ^ (exponent r - k) in
  forall z, in_interval c e k (z * U) = true -> z <> significand r ->
    distance c e k (significand r * U) < distance c e k (z * U)
    \/ (distance c e k (significand r * U) = distance c e k (z * U)
        /\ Z.even (significand r) = true).

(** The same, decided on the two decimals next to the result. *)
Definition farther_b (c e k m U z : Z) : bool :=
  negb (in_interval c e k (z * U))
  || (distance c e k (m * U) <? distance c e k (z * U))
  || ((distance c e k (m * U) =? distance c e k (z * U)) && Z.even m).

Definition nearest_b (c e : Z) (r : float_triple) : bool :=
  let k := triple.k_estimate e (popcount c =? 1) in
  let U := 10 ^ (exponent r - k) in
  farther_b c e k (significand r) U (significand r - 1)
  && farther_b c e k (significand r) U (significand r + 1).

Definition power_of_two_nearest (e : Z) : bool :=
  match to_decimal32 {| significand := 2 ^ 23; exponent := e; sign := 1 |} with
  | None => false
  | Some r => nearest_b (2 ^ 23) e r
  end.

(** ** The x87 extended format

    [std::numeric_limits<long double>] on x86: 64 digits, the leading one
    stored, so that [float_traits] finds no hidden bit.  The value of a
    pattern with the significand field [T] and the exponent field [E] is
    [T * 2 ^ (max E 1 - 16383 - 63)]. *)
Definition limits_extended : numeric_limits := {| digits := 64; max_exponent := 16384 |}.

Definition extended_magnitude (bits : Z) : Q :=
  (inject_Z (bits mod 2 ^ 64) * 2 ^ (Z.max ((bits / 2 ^ 64) mod 2 ^ 15) 1 - 16383 - 63))%Q.

(** ** Patterns of a kind with or without a hidden bit

    A kind with a hidden bit stores one bit less than its [digits]; a kind
    without one (the x87 extended format) stores them all.  The fields of a
    pattern, the patterns of the finite nonzero values, and the magnitude a
    pattern encodes: without a hidden bit the significand field [T] counts
    as it is, and the exponent field 0 has the exponent of the field 1. *)
Definition stored_width (hidden : bool) (F : numeric_limits) : Z :=
  digits F - (if hidden then 1 else 0).

Definition significand_field (hidden : bool) (F : numeric_limits) (bits : Z) : Z :=
  bits mod 2 ^ stored_width hidden F.

Definition biased_exponent (hidden : bool) (F : numeric_limits) (bits : Z) : Z :=
  (bits / 2 ^ stored_width hidden F) mod 2 ^ exponent_bits F.




(** * Fixed-width arithmetic *)

Lemma wrapu_small (w x : Z) : 0 <= x < 2 ^ w -> wrapu w x = x.
Proof. intros H. unfold wrapu. now apply Z.mod_small. Qed.

Lemma wrapu_range (w x : Z) : 0 <= w -> 0 <= wrapu w x < 2 ^ w.
Proof.
  intros Hw. unfold wrapu. apply Z.mod_pos_bound.
  now apply Z.pow_pos_nonneg.
Qed.

Lemma wraps_small (w x : Z) :
  0 < w -> - 2 ^ (w - 1) <= x < 2 ^ (w - 1) -> wraps w x = x.
Proof.
  intros Hw H. unfold wraps.
  assert (E : 2 ^ w = 2 * 2 ^ (w - 1)).
  { replace w with (Z.succ (w - 1)) at 1 by lia. apply Z.pow_succ_r. lia. }
  rewrite Z.mod_small; lia.
Qed.

Lemma i32_small (x : Z) : - 2 ^ 31 <= x < 2 ^ 31 -> i32 x = x.
Proof. intros H. unfold i32. apply wraps_small; [lia | exact H]. Qed.

Lemma u32_small (x : Z) : 0 <= x < 2 ^ 32 -> u32 x = x.
Proof. apply wrapu_small. Qed.

Lemma uint_bits_cases (F : numeric_limits) :
  In (float_traits.uint_bits F) [8; 16; 32; 64; 128].
Proof.
  unfold float_traits.uint_bits.
  repeat match goal with |- context [if ?b then _ else _] => destruct b end;
    simpl; auto 10.
Qed.

Lemma uint_bits_ge_8 (F : numeric_limits) : 8 <= float_traits.uint_bits F.
Proof.
  pose proof (uint_bits_cases F) as H. simpl in H.
  intuition lia.
Qed.

Lemma uint_t_small (F : numeric_limits) (x : Z) :
  0 <= x < 2 ^ float_traits.uint_bits F -> float_traits.uint_t F x = x.
Proof. apply wrapu_small. Qed.

Lemma uint_t_range (F : numeric_limits) (x : Z) :
  0 <= float_traits.uint_t F x < 2 ^ float_traits.uint_bits F.
Proof.
  apply wrapu_range. pose proof (uint_bits_ge_8 F). lia.
Qed.

Lemma pow2_ge_256 (n : Z) : 8 <= n -> 256 <= 2 ^ n.
Proof.
  intros H. change 256 with (2 ^ 8). apply Z.pow_le_mono_r; lia.
Qed.

Lemma Some_eq {A : Type} (a b : A) : Some a = Some b -> a = b.
Proof. intros E. now injection E. Qed.

(** * [to_decimal]: the named locals are the locals of the function *)

Lemma to_decimal_locals (F : numeric_limits) (cp10 : Z -> option Z) (t : float_triple) :
  triple.to_decimal F cp10 t =
  match cp10 (i32 (- triple.k_of t)) with
  | None => None
  | Some pow10 =>
      let s := triple.candidate F t pow10 in
      if (10 <=? s)
         && negb (Bool.eqb (triple.up_inside F t pow10) (triple.wp_inside F t pow10))
      then Some {| significand :=
                     float_traits.uint_t F (s / 10 + b2z (triple.wp_inside F t pow10));
                   exponent := i32 (triple.k_of t + 1);
                   sign := sign t |}
      else if negb (Bool.eqb (triple.u_inside F t pow10) (triple.w_inside F t pow10))
      then Some {| significand :=
                     float_traits.uint_t F (s + b2z (triple.w_inside F t pow10));
                   exponent := triple.k_of t;
                   sign := sign t |}
      else
        let mid := float_traits.uint_t F (4 * s + 2) in
        let v := triple.vb F t pow10 in
        Some {| significand :=
                  float_traits.uint_t F
                    (s + b2z ((mid <? v) || ((v =? mid) && negb (Z.land s 1 =? 0))));
                exponent := triple.k_of t;
                sign := sign t |}
  end.
Proof.
  cbv beta zeta delta
    [triple.to_decimal triple.candidate triple.up_inside triple.wp_inside
     triple.u_inside triple.w_inside triple.lower triple.upper triple.vbl
     triple.vb triple.vbr triple.cbl triple.cb triple.cbr triple.h_of
     triple.k_of triple.k_estimate triple.h_shift triple.is_even triple.lower_boundary_is_closer].
  destruct (cp10 _) as [pow10 |]; [| reflexivity].
  destruct (10 <=? _); cbn [andb];
    repeat match goal with
           | |- context [negb (Bool.eqb ?a ?b)] =>
               destruct (Bool.eqb a b); cbn [negb]
           end; reflexivity.
Qed.

(** C9.  [to_decimal] writes the significand and the exponent only: whenever
    it returns, the sign of the result is the sign of its input, for every
    kind and every power-of-ten table. *)
Theorem to_decimal_keeps_sign (F : numeric_limits) (cp10 : Z -> option Z)
    (t t' : float_triple) :
  triple.to_decimal F cp10 t = Some t' -> sign t' = sign t.
Proof.
  rewrite to_decimal_locals.
  destruct (cp10 (i32 (- triple.k_of t))) as [pow10 |]; [| discriminate].
  cbv zeta.
  destruct (_ && _); [| destruct (negb _)];
    intros E; apply Some_eq in E; rewrite <- E; reflexivity.
Qed.

Lemma to_decimal_keeps_sign_witness :
  to_decimal32 (make32 0xbf800000)
    = Some {| significand := 10000000; exponent := -7; sign := -1 |}
  /\ sign {| significand := 10000000; exponent := -7; sign := -1 |}
     = sign (make32 0xbf800000).
Proof.
  split; [vm_compute; reflexivity |].
  apply (to_decimal_keeps_sign limits_float math.compute_pow10).
  vm_compute. reflexivity.
Defined.

(** * Round to odd *)

Lemma lor_1 (y : Z) : 0 <= y -> Z.lor y 1 = 2 * (y / 2) + 1.
Proof.
  intros Hy. apply Z.bits_inj'. intros n Hn.
  rewrite Z.lor_spec.
  destruct (Z.eq_dec n 0) as [-> | Hn0].
  - rewrite Z.testbit_odd_0. change (Z.testbit 1 0) with true.
    now rewrite orb_true_r.
  - replace n with (Z.succ (n - 1)) by lia.
    rewrite Z.testbit_odd_succ by lia.
    rewrite (Z.div_mod y 2) at 1 by lia.
    assert (Hr : y mod 2 = 0 \/ y mod 2 = 1) by (pose proof (Z.mod_pos_bound y 2); lia).
    destruct Hr as [-> | ->].
    + rewrite Z.add_0_r, Z.testbit_even_succ by lia.
      replace (Z.succ (n - 1)) with n by lia.
      rewrite (Z.bits_above_log2 1 n); [apply orb_false_r | lia | simpl; lia].
    + rewrite Z.testbit_odd_succ by lia.
      replace (Z.succ (n - 1)) with n by lia.
      rewrite (Z.bits_above_log2 1 n); [apply orb_false_r | lia | simpl; lia].
Qed.

Lemma lor_b2z_bounds (y : Z) (b : bool) (M : Z) :
  0 <= y < 2 * M -> 0 <= Z.lor y (b2z b) < 2 * M.
Proof.
  intros Hy. destruct b; unfold b2z.
  - rewrite lor_1 by lia.
    assert (y / 2 < M) by (apply Z.div_lt_upper_bound; lia).
    assert (0 <= y / 2) by (apply Z.div_pos; lia).
    lia.
  - rewrite Z.lor_0_r. exact Hy.
Qed.

Lemma mid_word (p : Z) : (p / 2 ^ 32) mod 2 ^ 32 = p mod 2 ^ 64 / 2 ^ 32.
Proof.
  change (2 ^ 64) with (2 ^ 32 * 2 ^ 32).
  rewrite Z.rem_mul_r by lia.
  pose proof (Z.mod_pos_bound p (2 ^ 32) ltac:(lia)).
  apply Z.div_unique with (p mod 2 ^ 32); lia.
Qed.

Lemma round_to_odd_range (d g cp : Z) :
  0 <= d -> 0 <= math.round_to_odd d g cp < 2 ^ d.
Proof. intros Hd. unfold math.round_to_odd, math.uint_t. now apply wrapu_range. Qed.

(** The value of [round_to_odd] for [uint32_t]: the product does not wrap,
    the high word is its quotient by [2 ^ 64], and [y0 > 1] reads the bits 33
    to 63. *)
Lemma round_to_odd_32 (g cp : Z) :
  0 <= g < 2 ^ 64 -> 0 <= cp < 2 ^ 32 ->
  math.round_to_odd 32 g cp
  = Z.lor (g * cp / 2 ^ 64) (b2z (2 ^ 33 <=? (g * cp) mod 2 ^ 64)).
Proof.
  intros Hg Hcp.
  assert (Hp : 0 <= g * cp < 2 ^ 96).
  { change (2 ^ 96) with (2 ^ 64 * 2 ^ 32). nia. }
  unfold math.round_to_odd, math.word1, math.word0, math.uint_4_t, math.uint_t, u128.
  rewrite (wrapu_small 128 g) by lia.
  rewrite (wrapu_small 128 (g * cp)) by lia.
  change (2 * 32) with 64.
  rewrite !Z.shiftr_div_pow2 by lia.
  assert (H1 : 0 <= g * cp / 2 ^ 64 < 2 ^ 32).
  { split; [apply Z.div_pos; lia |].
    apply Z.div_lt_upper_bound; [lia |].
    change (2 ^ 64 * 2 ^ 32) with (2 ^ 96). lia. }
  rewrite (wrapu_small 32 (g * cp / 2 ^ 64)) by exact H1.
  assert (H0 : wrapu 32 (g * cp / 2 ^ 32) = (g * cp) mod 2 ^ 64 / 2 ^ 32).
  { unfold wrapu. apply mid_word. }
  rewrite H0.
  assert (Hb : (1 <? (g * cp) mod 2 ^ 64 / 2 ^ 32) = (2 ^ 33 <=? (g * cp) mod 2 ^ 64)).
  { pose proof (Z.mod_pos_bound (g * cp) (2 ^ 64) ltac:(lia)) as Hm.
    set (r := (g * cp) mod 2 ^ 64) in *.
    pose proof (Z.div_mod r (2 ^ 32) ltac:(lia)) as Hd.
    pose proof (Z.mod_pos_bound r (2 ^ 32) ltac:(lia)) as Hr.
    change (2 ^ 33) with (2 * 2 ^ 32).
    destruct (1 <? r / 2 ^ 32) eqn:E1; destruct (2 * 2 ^ 32 <=? r) eqn:E2;
      try reflexivity; [apply Z.ltb_lt in E1; apply Z.leb_gt in E2 |
                        apply Z.ltb_ge in E1; apply Z.leb_le in E2]; nia. }
  rewrite Hb.
  apply wrapu_small.
  change (2 ^ 32) with (2 * 2 ^ 31) in *. apply lor_b2z_bounds. exact H1.
Qed.

(** C6 (counterexample).  The table mantissa of [10 ^ -3] and the shifted
    [cb] of the float 1e10 (significand 9765625, exponent 10, shift 1): the
    product has nonzero bits below the high word, its bits 33 to 63 are zero,
    and [round_to_odd] returns the high word 40000000 with its lowest bit
    clear, where the high word with the bit forced would be 40000001. *)
Lemma round_to_odd_ignores_low_bits :
  math.compute_pow10 (-3) = Some 0x83126E978D4FDF3C
  /\ (let t := {| significand := 9765625; exponent := 10; sign := 1 |} in
      u32 (Z.shiftl (triple.cb limits_float t) (triple.h_of t)) = 78125000)
  /\ (0x83126E978D4FDF3C * 78125000) mod 2 ^ 64 <> 0
  /\ math.round_to_odd 32 0x83126E978D4FDF3C 78125000 = 40000000
  /\ round_to_odd_any_low_bit 0x83126E978D4FDF3C 78125000 = 40000001
  /\ math.round_to_odd 32 0x83126E978D4FDF3C 78125000
     <> round_to_odd_any_low_bit 0x83126E978D4FDF3C 78125000.
Proof.
  repeat split; try (vm_compute; reflexivity); vm_compute; discriminate.
Qed.

(** C6 (amended).  For a 64-bit mantissa [g] and a 32-bit [cp],
    [round_to_odd] returns the high word of the product (its bits 64 to 95)
    with the lowest bit forced to 1 exactly when the middle word (bits 32 to
    63) is greater than 1, that is when one of the bits 33 to 63 of the
    product is set; the bits 0 to 32 are not looked at. *)
Theorem round_to_odd_sticky (g cp : Z) :
  0 <= g < 2 ^ 64 -> 0 <= cp < 2 ^ 32 ->
  let p := g * cp in
  math.round_to_odd 32 g cp = Z.lor (p / 2 ^ 64) (b2z (2 ^ 33 <=? p mod 2 ^ 64))
  /\ (2 ^ 33 <= p mod 2 ^ 64 <-> 1 < (p / 2 ^ 32) mod 2 ^ 32)
  /\ (2 ^ 33 <= p mod 2 ^ 64 <->
      exists i, 33 <= i < 64 /\ Z.testbit p i = true).
Proof.
  intros Hg Hcp p. split; [apply round_to_odd_32; assumption |].
  assert (Hm : 0 <= p mod 2 ^ 64 < 2 ^ 64) by (apply Z.mod_pos_bound; lia).
  split.
  - rewrite mid_word.
    pose proof (Z.div_mod (p mod 2 ^ 64) (2 ^ 32) ltac:(lia)) as Hd.
    pose proof (Z.mod_pos_bound (p mod 2 ^ 64) (2 ^ 32) ltac:(lia)) as Hr.
    change (2 ^ 33) with (2 * 2 ^ 32). split; intros; nia.
  - split.
    + intros Hge.
      set (q := p mod 2 ^ 64 / 2 ^ 33).
      assert (Hq : 0 < q < 2 ^ 31).
      { unfold q; split.
        - apply Z.div_str_pos; lia.
        - apply Z.div_lt_upper_bound; [lia |].
          change (2 ^ 33 * 2 ^ 31) with (2 ^ 64); lia. }
      assert (Hl : 0 <= Z.log2 q < 31).
      { split; [apply Z.log2_nonneg | apply Z.log2_lt_pow2; lia]. }
      exists (33 + Z.log2 q). split; [lia |].
      pose proof (Z.bit_log2 q ltac:(lia)) as Hbit.
      unfold q in Hbit at 1.
      rewrite <- Z.shiftr_div_pow2, Z.shiftr_spec in Hbit by lia.
      rewrite Z.mod_pow2_bits_low in Hbit by lia.
      rewrite Z.add_comm. exact Hbit.
    + intros (i & Hi & Hbit).
      destruct (Z.lt_ge_cases (p mod 2 ^ 64) (2 ^ 33)) as [Hlt | Hge]; [| exact Hge].
      exfalso.
      rewrite <- (Z.mod_pow2_bits_low p 64 i) in Hbit by lia.
      destruct (Z.eq_dec (p mod 2 ^ 64) 0) as [E0 | E0].
      * rewrite E0, Z.bits_0 in Hbit. discriminate.
      * rewrite Z.bits_above_log2 in Hbit; [discriminate | lia |].
        assert (Z.log2 (p mod 2 ^ 64) < 33) by (apply Z.log2_lt_pow2; lia). lia.
Qed.

Lemma round_to_odd_sticky_witness :
  0 <= 0xBEBC200000000000 < 2 ^ 64 /\ 0 <= 536870896 < 2 ^ 32
  /\ math.round_to_odd 32 0xBEBC200000000000 536870896
     = Z.lor (0xBEBC200000000000 * 536870896 / 2 ^ 64)
             (b2z (2 ^ 33 <=? (0xBEBC200000000000 * 536870896) mod 2 ^ 64)).
Proof.
  split; [lia |]. split; [lia |].
  apply (round_to_odd_sticky 0xBEBC200000000000 536870896); lia.
Defined.

(** * The final rounding of [to_decimal] *)

Lemma land_1 (s : Z) : (Z.land s 1 =? 0) = negb (Z.odd s).
Proof.
  change 1 with (Z.ones 1). rewrite Z.land_ones by lia.
  change (2 ^ 1) with 2. rewrite Zmod_odd.
  destruct (Z.odd s); reflexivity.
Qed.

(** C7.  When [to_decimal] reaches its last statements, that is when the
    trimming test is not taken ([up_inside = wp_inside], or the candidate is
    below 10 and the test is skipped) and [u_inside = w_inside], the result
    is [candidate + 1] if [vb > 4 * candidate + 2], or if
    [vb = 4 * candidate + 2] and the candidate is odd, and [candidate]
    otherwise; the exponent is the estimate [k].  No unsigned operation
    wraps there. *)
Theorem to_decimal_final_rounding (F : numeric_limits) (cp10 : Z -> option Z)
    (t : float_triple) (pow10 : Z) :
  cp10 (i32 (- triple.k_of t)) = Some pow10 ->
  (triple.candidate F t pow10 < 10
   \/ triple.up_inside F t pow10 = triple.wp_inside F t pow10) ->
  triple.u_inside F t pow10 = triple.w_inside F t pow10 ->
  let s := triple.candidate F t pow10 in
  let v := triple.vb F t pow10 in
  triple.to_decimal F cp10 t
  = Some {| significand :=
              s + (if (4 * s + 2 <? v) || ((v =? 4 * s + 2) && Z.odd s)
                   then 1 else 0);
            exponent := triple.k_of t;
            sign := sign t |}.
Proof.
  intros Hp Htrim Hsame s v.
  rewrite to_decimal_locals, Hp. cbv zeta. fold s v.
  assert (C1 : (10 <=? s)
               && negb (Bool.eqb (triple.up_inside F t pow10)
                                 (triple.wp_inside F t pow10)) = false).
  { destruct Htrim as [Hlt | ->].
    - fold s in Hlt. apply Z.leb_gt in Hlt. rewrite Hlt. reflexivity.
    - rewrite Bool.eqb_reflx. apply andb_false_r. }
  rewrite C1, Hsame, Bool.eqb_reflx. cbn [negb].
  pose proof (uint_bits_ge_8 F) as Hd.
  assert (Hv : 0 <= v < 2 ^ float_traits.uint_bits F).
  { unfold v, triple.vb. apply round_to_odd_range. lia. }
  assert (E4 : 2 ^ float_traits.uint_bits F = 4 * 2 ^ (float_traits.uint_bits F - 2)).
  { change 4 with (2 ^ 2). rewrite <- Z.pow_add_r by lia. f_equal. lia. }
  assert (Hs : 0 <= s < 2 ^ (float_traits.uint_bits F - 2)).
  { unfold s, triple.candidate. fold v. split.
    - apply Z.div_pos; lia.
    - apply Z.div_lt_upper_bound; lia. }
  rewrite (uint_t_small F (4 * s + 2)) by lia.
  rewrite land_1, negb_involutive.
  rewrite uint_t_small; [reflexivity |].
  destruct (_ || _); unfold b2z; lia.
Qed.

Lemma to_decimal_final_rounding_witness :
  let t := make32 0x7f7fffff in
  math.compute_pow10 (i32 (- triple.k_of t)) = Some 0x81CEB32C4B43FCF5
  /\ triple.up_inside limits_float t 0x81CEB32C4B43FCF5
     = triple.wp_inside limits_float t 0x81CEB32C4B43FCF5
  /\ triple.u_inside limits_float t 0x81CEB32C4B43FCF5
     = triple.w_inside limits_float t 0x81CEB32C4B43FCF5
  /\ to_decimal32 t
     = Some {| significand := 34028235; exponent := 31; sign := 1 |}.
Proof.
  intros t.
  assert (Hp : math.compute_pow10 (i32 (- triple.k_of t)) = Some 0x81CEB32C4B43FCF5)
    by (vm_compute; reflexivity).
  assert (Hu : triple.up_inside limits_float t 0x81CEB32C4B43FCF5
               = triple.wp_inside limits_float t 0x81CEB32C4B43FCF5)
    by (vm_compute; reflexivity).
  assert (Hw : triple.u_inside limits_float t 0x81CEB32C4B43FCF5
               = triple.w_inside limits_float t 0x81CEB32C4B43FCF5)
    by (vm_compute; reflexivity).
  split; [exact Hp |]. split; [exact Hu |]. split; [exact Hw |].
  unfold to_decimal32.
  rewrite (to_decimal_final_rounding limits_float math.compute_pow10 t _ Hp
             (or_intror Hu) Hw).
  vm_compute. reflexivity.
Defined.

(** * The exponent estimate *)

Lemma In_zrange (n : nat) (lo x : Z) :
  lo <= x < lo + Z.of_nat n -> In x (zrange lo n).
Proof.
  revert lo. induction n as [| n IH]; intros lo H; [lia |].
  cbn [zrange]. destruct (Z.eq_dec lo x) as [-> | Hne]; [now left | right].
  apply IH. lia.
Qed.

Lemma nth_powers (n i : nat) (b x : Z) :
  (i < n)%nat -> nth i (powers b x n) 0 = x * b ^ Z.of_nat i.
Proof.
  revert i x. induction n as [| n IH]; intros i x Hi; [lia |].
  destruct i as [| i]; cbn [powers nth].
  - rewrite Z.pow_0_r. lia.
  - rewrite IH by lia.
    rewrite Nat2Z.inj_succ, Z.pow_succ_r by lia. ring.
Qed.

Lemma tpow_spec (b : Z) (n : nat) (z : Z) :
  0 < b -> Z.abs z < Z.of_nat n ->
  (tpow (powers b 1 n) z == inject_Z b ^ z)%Q.
Proof.
  intros Hb Hz. unfold tpow. destruct (0 <=? z) eqn:E.
  - apply Z.leb_le in E. rewrite nth_powers by lia.
    rewrite Z.mul_1_l, Z2Nat.id by lia. now apply Zpower_Qpower.
  - apply Z.leb_gt in E. rewrite nth_powers by lia.
    rewrite Z.mul_1_l, Z2Nat.id by lia.
    rewrite Zpower_Qpower by lia.
    rewrite <- Qpower_opp. now rewrite Z.opp_involutive.
Qed.

Lemma tpow2_spec (z : Z) : Z.abs z < 1600 -> (tpow pow2_table z == 2 ^ z)%Q.
Proof.
  intros Hz. apply (tpow_spec 2 1600 z); [lia |].
  replace (Z.of_nat 1600) with 1600 by (vm_compute; reflexivity). exact Hz.
Qed.

Lemma tpow10_spec (z : Z) : Z.abs z < 520 -> (tpow pow10_table z == 10 ^ z)%Q.
Proof.
  intros Hz. apply (tpow_spec 10 520 z); [lia |].
  replace (Z.of_nat 520) with 520 by (vm_compute; reflexivity). exact Hz.
Qed.

Lemma within_true (lo x hi : Q) : within lo x hi = true -> (lo <= x /\ x < hi)%Q.
Proof.
  unfold within. intros H.
  apply andb_true_iff in H. destruct H as [H1 H2]. split.
  - now apply Qle_bool_iff.
  - apply Qnot_le_lt. intros Hle. apply Qle_bool_iff in Hle.
    rewrite Hle in H2. discriminate.
Qed.

Lemma estimates_ok_true :
  forallb (estimate_ok pow2_table pow10_table) estimate_exponents = true.
Proof. vm_compute. reflexivity. Qed.

Lemma shiftr_bounds (x n lo hi : Z) :
  0 <= n -> lo * 2 ^ n <= x < hi * 2 ^ n -> lo <= Z.shiftr x n < hi.
Proof.
  intros Hn H. rewrite Z.shiftr_div_pow2 by lia.
  assert (0 < 2 ^ n) by (apply Z.pow_pos_nonneg; lia). split.
  - apply Z.div_le_lower_bound; lia.
  - apply Z.div_lt_upper_bound; lia.
Qed.

(** What the check of one exponent gives, in the terms of the source. *)
Lemma estimate_facts (e : Z) (closer : bool) :
  -1500 <= e <= 1500 ->
  let k := triple.k_estimate e closer in
  k = Z.shiftr (e * 1262611 - (if closer then 524031 else 0)) 22
  /\ -512 <= k <= 512
  /\ i32 (- k) = - k
  /\ math.floor_log2_pow10 (- k) = Z.shiftr (- k * 1741647) 19
  /\ floor_log10 (estimated e closer) k
  /\ floor_log2 (10 ^ (- k))%Q (math.floor_log2_pow10 (- k))
  /\ triple.h_shift e closer = e + math.floor_log2_pow10 (- k) + 1
  /\ 1 <= triple.h_shift e closer <= 4.
Proof.
  intros He k.
  assert (Hin : In e estimate_exponents).
  { apply In_zrange. simpl. lia. }
  pose proof (proj1 (forallb_forall _ _) estimates_ok_true e Hin) as Hok.
  unfold estimate_ok in Hok.
  assert (Hc : In closer [false; true]) by (destruct closer; simpl; auto).
  pose proof (proj1 (forallb_forall _ _) Hok closer Hc) as H. cbv beta zeta in H.
  fold k in H.
  repeat (apply andb_true_iff in H; destruct H as [H ?]).
  repeat match goal with
         | X : (_ <? _) = true |- _ => apply Z.ltb_lt in X
         | X : (_ <=? _) = true |- _ => apply Z.leb_le in X
         | X : within _ _ _ = true |- _ => apply within_true in X
         end.
  assert (Ek : k = Z.shiftr (e * 1262611 - (if closer then 524031 else 0)) 22).
  { unfold k, triple.k_estimate.
    rewrite (i32_small (e * 1262611)) by lia.
    rewrite i32_small by (destruct closer; lia). reflexivity. }
  assert (Hk : -512 <= k <= 512).
  { rewrite Ek. destruct closer.
    - enough (-512 <= Z.shiftr (e * 1262611 - 524031) 22 < 513) by lia.
      apply shiftr_bounds; lia.
    - enough (-512 <= Z.shiftr (e * 1262611 - 0) 22 < 513) by lia.
      apply shiftr_bounds; lia. }
  assert (Ei : i32 (- k) = - k) by (apply i32_small; lia).
  rewrite Ei in *.
  assert (Em : math.floor_log2_pow10 (- k) = Z.shiftr (- k * 1741647) 19).
  { unfold math.floor_log2_pow10. rewrite i32_small by lia. reflexivity. }
  set (m := math.floor_log2_pow10 (- k)) in *.
  assert (Hm : -1550 <= m < 1550) by lia.
  assert (Eh : triple.h_shift e closer = e + m + 1).
  { unfold triple.h_shift. fold k. rewrite Ei. fold m.
    rewrite (i32_small (e + _)) by lia. apply i32_small. lia. }
  repeat match goal with
         | X : context [tpow pow2_table ?z] |- _ =>
             rewrite (tpow2_spec z) in X by lia
         | X : context [tpow pow10_table ?z] |- _ =>
             rewrite (tpow10_spec z) in X by lia
         end.
  repeat split; try assumption; try lia; unfold estimated;
    match goal with
    | X : (_ <= _ /\ _ < _)%Q |- _ => solve [apply X]
    end.
Qed.

(** C5 (counterexample).  The estimate is not a multiply-shift scaled by
    [2 ^ 19]: for the exponent 1 the source computes [k = 0], the floor of
    [log10 2], while its multiplier shifted by 19 gives 2; the multiplier
    1262611 is more than twice [2 ^ 19], so it does not approximate
    [log10 2 < 1] at that scale. *)
Lemma estimate_is_not_scaled_by_2_19 :
  triple.k_estimate 1 false = 0
  /\ k_scaled_19 1 false = 2
  /\ 2 * 2 ^ 19 < 1262611
  /\ ~ (forall e closer, triple.k_estimate e closer = k_scaled_19 e closer).
Proof.
  split; [vm_compute; reflexivity |].
  split; [vm_compute; reflexivity |].
  split; [lia |].
  intros H. specialize (H 1 false). vm_compute in H. discriminate.
Qed.

(** The multiplier of the estimate is [log10 2] at the scale [2 ^ 22]:
    [59 / 196 < log10 2 < 146 / 485] because [10 ^ 59 < 2 ^ 196] and
    [2 ^ 485 < 10 ^ 146], and [1262611 / 2 ^ 22] lies between the same two
    fractions. *)
Lemma multiplier_scaled_by_2_22 :
  10 ^ 59 < 2 ^ 196 /\ 2 ^ 485 < 10 ^ 146
  /\ 59 * 2 ^ 22 < 1262611 * 196 /\ 1262611 * 485 < 146 * 2 ^ 22.
Proof. repeat split; vm_compute; reflexivity. Qed.

(** C5 (amended).  For a binary exponent [e] between -1500 and 1500,
    [to_decimal] computes [k] as [(e * 1262611 - c) >> 22], a multiply-shift
    at the scale [2 ^ 22] in which [c = 524031] is subtracted exactly when
    [lower_boundary_is_closer] holds, and no 32-bit operation wraps; this
    [k] is the floor of the decimal logarithm of [2 ^ e], or of
    [3/4 * 2 ^ e] when the correction is applied, that is
    [floor (e * log10 2 - log10 (4/3))]; [floor_log2_pow10 (- k)], a
    multiply-shift at the scale [2 ^ 19], is the floor of the binary
    logarithm of [10 ^ - k]; and [h = e + floor_log2_pow10 (- k) + 1]. *)
Theorem exponent_estimate (t : float_triple) :
  -1500 <= exponent t <= 1500 ->
  let e := exponent t in
  let closer := triple.lower_boundary_is_closer t in
  let k := triple.k_of t in
  k = Z.shiftr (e * 1262611 - (if closer then 524031 else 0)) 22
  /\ floor_log10 ((if closer then 3 # 4 else 1) * 2 ^ e)%Q k
  /\ math.floor_log2_pow10 (- k) = Z.shiftr (- k * 1741647) 19
  /\ floor_log2 (10 ^ (- k))%Q (math.floor_log2_pow10 (- k))
  /\ triple.h_of t = e + math.floor_log2_pow10 (- k) + 1.
Proof.
  intros He e closer k.
  destruct (estimate_facts e closer He) as (H1 & _ & _ & H4 & H5 & H6 & H7 & _).
  repeat split; try assumption; apply H5 || apply H6.
Qed.

Lemma exponent_estimate_witness :
  let t := {| significand := 2 ^ 23; exponent := -23; sign := 1 |} in
  -1500 <= exponent t <= 1500
  /\ triple.k_of t = Z.shiftr (-23 * 1262611 - 524031) 22
  /\ floor_log10 ((3 # 4) * 2 ^ (-23))%Q (-8)
  /\ triple.h_of t = 4.
Proof.
  intros t.
  assert (He : -1500 <= exponent t <= 1500) by (simpl; lia).
  destruct (exponent_estimate t He) as (H1 & H2 & H3 & H4 & H5).
  split; [exact He |]. split; [exact H1 |]. split; [exact H2 |].
  rewrite H5. vm_compute. reflexivity.
Defined.

(** * The shifted boundaries *)

Lemma uint_t_float (x : Z) : float_traits.uint_t limits_float x = u32 x.
Proof. reflexivity. Qed.

Lemma shiftl_small (x h : Z) :
  0 <= x -> 0 <= h -> x * 2 ^ h < 2 ^ 32 -> u32 (Z.shiftl x h) = x * 2 ^ h.
Proof.
  intros Hx Hh Hlt. rewrite Z.shiftl_mul_pow2 by lia.
  apply u32_small. split; [| exact Hlt].
  apply Z.mul_nonneg_nonneg; [lia |]. apply Z.pow_nonneg. lia.
Qed.

Lemma boundary_shifts (t : float_triple) :
  2 ^ 23 <= significand t < 2 ^ 24 ->
  1 <= triple.h_of t <= 4 ->
  let s := significand t in
  let h := triple.h_of t in
  let c := b2z (triple.lower_boundary_is_closer t) in
  triple.cbl limits_float t = 4 * s - 2 + c
  /\ triple.cb limits_float t = 4 * s
  /\ triple.cbr limits_float t = 4 * s + 2
  /\ u32 (Z.shiftl (triple.cbl limits_float t) h) = (4 * s - 2 + c) * 2 ^ h
  /\ u32 (Z.shiftl (triple.cb limits_float t) h) = 4 * s * 2 ^ h
  /\ u32 (Z.shiftl (triple.cbr limits_float t) h) = (4 * s + 2) * 2 ^ h.
Proof.
  intros Hs Hh s h c. fold h in Hh. fold s in Hs.
  assert (Hc : 0 <= c <= 1) by (unfold c, b2z; destruct (triple.lower_boundary_is_closer t); lia).
  assert (Hp : 2 <= 2 ^ h <= 16).
  { assert (h = 1 \/ h = 2 \/ h = 3 \/ h = 4) as [-> | [-> | [-> | ->]]] by lia;
      simpl; lia. }
  assert (Ebl : triple.cbl limits_float t = 4 * s - 2 + c).
  { unfold triple.cbl. rewrite uint_t_float. fold s c. apply u32_small. lia. }
  assert (Eb : triple.cb limits_float t = 4 * s).
  { unfold triple.cb. rewrite uint_t_float. fold s. apply u32_small. lia. }
  assert (Ebr : triple.cbr limits_float t = 4 * s + 2).
  { unfold triple.cbr. rewrite uint_t_float. fold s. apply u32_small. lia. }
  rewrite Ebl, Eb, Ebr.
  repeat split.
  - apply shiftl_small; [lia | lia | nia].
  - apply shiftl_small; [lia | lia | nia].
  - apply shiftl_small; [lia | lia | nia].
Qed.

(** C10.  For a single precision triple with a normalised significand
    ([2 ^ 23 <= significand < 2 ^ 24]) and a binary exponent between -1500
    and 1500 (the constructor yields -172 to 104), the shift [h] is between 1
    and 4, and [cbl], [cb], [cbr] and their left shifts by [h] are the exact
    integers [4 s - 2 (+ 1)], [4 s], [4 s + 2] and their products by
    [2 ^ h]: nothing wraps modulo [2 ^ 32]. *)
Theorem boundaries_do_not_wrap (t : float_triple) :
  2 ^ 23 <= significand t < 2 ^ 24 ->
  -1500 <= exponent t <= 1500 ->
  let s := significand t in
  let h := triple.h_of t in
  let c := b2z (triple.lower_boundary_is_closer t) in
  1 <= h <= 4
  /\ 0 <= 4 * s - 2 /\ (4 * s + 2) * 2 ^ h < 2 ^ 32
  /\ triple.cbl limits_float t = 4 * s - 2 + c
  /\ triple.cb limits_float t = 4 * s
  /\ triple.cbr limits_float t = 4 * s + 2
  /\ u32 (Z.shiftl (triple.cbl limits_float t) h) = (4 * s - 2 + c) * 2 ^ h
  /\ u32 (Z.shiftl (triple.cb limits_float t) h) = 4 * s * 2 ^ h
  /\ u32 (Z.shiftl (triple.cbr limits_float t) h) = (4 * s + 2) * 2 ^ h.
Proof.
  intros Hs He s h c.
  destruct (estimate_facts (exponent t) (triple.lower_boundary_is_closer t) He)
    as (_ & _ & _ & _ & _ & _ & _ & Hh).
  fold (triple.h_of t) in Hh. fold h in Hh. fold s in Hs.
  assert (Hp : 2 <= 2 ^ h <= 16).
  { assert (h = 1 \/ h = 2 \/ h = 3 \/ h = 4) as [-> | [-> | [-> | ->]]] by lia;
      simpl; lia. }
  split; [exact Hh |]. split; [lia |]. split; [nia |].
  exact (boundary_shifts t Hs Hh).
Qed.

Lemma boundaries_do_not_wrap_witness :
  let t := make32 0x3f800000 in
  2 ^ 23 <= significand t < 2 ^ 24
  /\ -1500 <= exponent t <= 1500
  /\ triple.h_of t = 4
  /\ u32 (Z.shiftl (triple.cbl limits_float t) (triple.h_of t))
     = (4 * significand t - 2 + b2z (triple.lower_boundary_is_closer t))
       * 2 ^ triple.h_of t.
Proof.
  intros t.
  assert (Hs : 2 ^ 23 <= significand t < 2 ^ 24) by (vm_compute; split; congruence).
  assert (He : -1500 <= exponent t <= 1500) by (vm_compute; split; congruence).
  split; [exact Hs |]. split; [exact He |]. split; [vm_compute; reflexivity |].
  apply (boundaries_do_not_wrap t Hs He).
Defined.

(** * The layout descriptor *)

Lemma land_low_high (x y i : Z) :
  0 <= i -> 0 <= x < 2 ^ i -> Z.land x (y * 2 ^ i) = 0.
Proof.
  intros Hi Hx. apply Z.bits_inj'. intros n Hn.
  rewrite Z.land_spec, Z.bits_0.
  destruct (Z.lt_ge_cases n i) as [Hlt | Hge].
  - rewrite Z.mul_pow2_bits_low by lia. apply andb_false_r.
  - rewrite <- (Z.mod_small x (2 ^ i)) by lia.
    rewrite Z.mod_pow2_bits_high by lia. reflexivity.
Qed.

Lemma lor_low_high (x y i : Z) :
  0 <= i -> 0 <= x < 2 ^ i -> Z.lor x (y * 2 ^ i) = x + y * 2 ^ i.
Proof.
  intros Hi Hx.
  pose proof (land_low_high x y i Hi Hx) as H0.
  rewrite <- Z.lxor_lor by exact H0.
  symmetry. now apply Z.add_nocarry_lxor.
Qed.

Lemma pow2_pos (n : Z) : 0 <= n -> 0 < 2 ^ n.
Proof. intros. apply Z.pow_pos_nonneg; lia. Qed.

Lemma pow2_mono (a b : Z) : 0 <= a <= b -> 2 ^ a <= 2 ^ b.
Proof. intros. apply Z.pow_le_mono_r; lia. Qed.

Lemma pow2_split (a b : Z) : 0 <= a -> 0 <= b -> 2 ^ (a + b) = 2 ^ a * 2 ^ b.
Proof. intros. now apply Z.pow_add_r. Qed.

Lemma land_shifted (x o i : Z) :
  0 <= i -> Z.land x (Z.shiftl o i) = Z.shiftl (Z.land (Z.shiftr x i) o) i.
Proof.
  intros Hi. apply Z.bits_inj'. intros n Hn.
  rewrite Z.land_spec. destruct (Z.lt_ge_cases n i) as [Hlt | Hge].
  - rewrite !Z.shiftl_spec_low by lia. apply andb_false_r.
  - rewrite !Z.shiftl_spec_high by lia.
    rewrite Z.land_spec, Z.shiftr_spec by lia.
    now replace (n - i + i) with n by lia.
Qed.

Section Layout.
Variable F : numeric_limits.
Hypothesis Hdigits : 1 <= digits F <= 113.
Hypothesis Hmaxexp : 1 <= max_exponent F <= 16384.

Let sw := float_traits.significand_width F.
Let ew := float_traits.exponent_width F.
Let hb := float_traits.has_hidden_bit F.
Let m := sw - (if hb then 1 else 0).
Let W := float_traits.uint_bits F.

Lemma layout_significand_width : sw = digits F.
Proof. unfold sw, float_traits.significand_width, u16. apply wrapu_small. lia. Qed.

Lemma layout_exponent_width :
  ew = Z.log2 (max_exponent F) + 1 /\ 1 <= ew <= 15.
Proof.
  assert (Hl : 0 <= Z.log2 (max_exponent F) < 15).
  { split; [apply Z.log2_nonneg |]. apply Z.log2_lt_pow2; lia. }
  assert (E : ew = Z.log2 (max_exponent F) + 1).
  { unfold ew, float_traits.exponent_width, u16, u32.
    rewrite (wrapu_small 32) by lia.
    unfold bit_width. destruct (max_exponent F =? 0) eqn:E0; [apply Z.eqb_eq in E0; lia |].
    apply wrapu_small. lia. }
  split; [exact E | lia].
Qed.

Lemma layout_storage_width :
  float_traits.storage_width F = 1 + ew + m /\ 0 <= m /\ 1 + ew + m <= 128.
Proof.
  pose proof layout_significand_width as Hsw.
  pose proof layout_exponent_width as [_ Hew].
  assert (Hsum : hb = negb ((1 + ew + sw) mod 8 =? 0)) by reflexivity.
  assert (Hle : 1 + ew + m <= 128).
  { unfold m. destruct (Z.eq_dec (1 + ew + sw) 129) as [E | E].
    - rewrite E in Hsum. change (negb (129 mod 8 =? 0)) with true in Hsum.
      rewrite Hsum. lia.
    - destruct hb; lia. }
  assert (Hm : 0 <= m) by (unfold m; destruct hb; lia).
  split; [| split; assumption].
  unfold float_traits.storage_width, float_traits.sign_width, u16.
  fold sw ew hb. rewrite wrapu_small; unfold m; destruct hb; lia.
Qed.

Lemma layout_uint_bits : 1 + ew + m <= W /\ 8 <= W <= 128.
Proof.
  pose proof layout_storage_width as (Es & Hm & Hle).
  pose proof (uint_bits_ge_8 F) as H8. fold W in H8.
  unfold W, float_traits.uint_bits in *. rewrite Es in *.
  repeat match goal with
         | |- context [if ?b then _ else _] => destruct b eqn:?
         end;
    repeat match goal with
           | X : (_ <=? _) = true |- _ => apply Z.leb_le in X
           | X : (_ <=? _) = false |- _ => apply Z.leb_gt in X
           end; lia.
Qed.

Lemma layout_uint_t (x : Z) : 0 <= x < 2 ^ (1 + ew + m) -> float_traits.uint_t F x = x.
Proof.
  intros Hx. apply uint_t_small. fold W.
  pose proof layout_uint_bits as [Hle _].
  pose proof layout_storage_width as (_ & Hm & _).
  pose proof layout_exponent_width as [_ Hew].
  assert (2 ^ (1 + ew + m) <= 2 ^ W) by (apply pow2_mono; lia).
  lia.
Qed.

Lemma layout_shifts :
  float_traits.exponent_shift F = m /\ float_traits.sign_shift F = m + ew.
Proof.
  pose proof layout_storage_width as (Es & Hm & Hle).
  pose proof layout_exponent_width as [_ Hew].
  unfold float_traits.exponent_shift, float_traits.sign_shift,
    float_traits.sign_width, u16.
  rewrite Es. fold ew. split; (rewrite wrapu_small; lia).
Qed.

Lemma layout_bias : float_traits.exponent_bias F = max_exponent F + sw - 2.
Proof.
  pose proof layout_significand_width as Hsw.
  unfold float_traits.exponent_bias. fold sw. apply i32_small. lia.
Qed.

Lemma layout_masks :
  float_traits.significand_mask F = 2 ^ m - 1
  /\ float_traits.exponent_mask F = (2 ^ ew - 1) * 2 ^ m
  /\ float_traits.sign_mask F = 2 ^ (m + ew).
Proof.
  pose proof layout_storage_width as (Es & Hm & Hle).
  pose proof layout_exponent_width as [_ Hew].
  pose proof layout_shifts as [Ee Esg].
  pose proof (pow2_pos m Hm) as Pm.
  pose proof (pow2_pos ew ltac:(lia)) as Pe.
  assert (P1 : 2 ^ (1 + ew + m) = 2 * (2 ^ ew * 2 ^ m)).
  { rewrite !pow2_split by lia. change (2 ^ 1) with 2. ring. }
  assert (P2 : 2 ^ (m + ew) = 2 ^ ew * 2 ^ m).
  { rewrite pow2_split by lia. ring. }
  unfold float_traits.significand_mask, float_traits.exponent_mask,
    float_traits.sign_mask, float_traits.sign_width.
  rewrite Ee, Esg. fold sw ew hb.
  replace (sw + (if hb then -1 else 0)) with m by (unfold m; destruct hb; lia).
  rewrite !Z.shiftl_mul_pow2 by lia. rewrite !Z.mul_1_l.
  change (2 ^ 1) with 2.
  rewrite P2.
  assert (B4 : 2 ^ 1 <= 2 ^ ew) by (apply pow2_mono; lia).
  change (2 ^ 1) with 2 in B4.
  assert (B1 : 2 ^ ew <= 2 ^ ew * 2 ^ m) by nia.
  assert (B2 : 2 ^ m <= 2 ^ ew * 2 ^ m) by nia.
  assert (B3 : (2 ^ ew - 1) * 2 ^ m = 2 ^ ew * 2 ^ m - 2 ^ m) by ring.
  repeat split.
  - rewrite (layout_uint_t (2 ^ m)) by (rewrite P1; lia).
    apply layout_uint_t. rewrite P1; lia.
  - rewrite (layout_uint_t (2 ^ ew)) by (rewrite P1; lia).
    rewrite (layout_uint_t (2 ^ ew - 1)) by (rewrite P1; lia).
    apply layout_uint_t. rewrite P1; lia.
  - rewrite (layout_uint_t 2) by (rewrite P1; lia).
    rewrite (layout_uint_t (2 - 1)) by (rewrite P1; lia).
    change (2 - 1) with 1. rewrite Z.mul_1_l.
    apply layout_uint_t. rewrite P1; lia.
Qed.

Lemma layout_invariant :
  float_traits.storage_width F
  = float_traits.sign_width + float_traits.exponent_width F
    + float_traits.significand_width F
    - (if float_traits.has_hidden_bit F then 1 else 0)
  /\ Z.land (float_traits.sign_mask F) (float_traits.exponent_mask F) = 0
  /\ Z.land (float_traits.sign_mask F) (float_traits.significand_mask F) = 0
  /\ Z.land (float_traits.exponent_mask F) (float_traits.significand_mask F) = 0
  /\ Z.lor (float_traits.sign_mask F)
           (Z.lor (float_traits.exponent_mask F) (float_traits.significand_mask F))
     = 2 ^ float_traits.storage_width F - 1.
Proof.
  pose proof layout_storage_width as (Es & Hm & Hle).
  pose proof layout_exponent_width as [_ Hew].
  pose proof layout_masks as (M1 & M2 & M3).
  pose proof (pow2_pos m Hm) as Pm.
  pose proof (pow2_pos ew ltac:(lia)) as Pe.
  assert (P1 : 2 ^ (1 + ew + m) = 2 * (2 ^ ew * 2 ^ m)).
  { rewrite !pow2_split by lia. change (2 ^ 1) with 2. ring. }
  assert (P2 : 2 ^ (m + ew) = 2 ^ ew * 2 ^ m).
  { rewrite pow2_split by lia. ring. }
  rewrite M1, M2, M3, Es.
  split; [unfold float_traits.sign_width; fold sw ew hb; unfold m; lia |].
  split.
  { rewrite Z.land_comm. rewrite <- (Z.mul_1_l (2 ^ (m + ew))).
    apply land_low_high; [lia | nia]. }
  split.
  { rewrite Z.land_comm, P2. apply land_low_high; [lia | lia]. }
  split.
  { rewrite Z.land_comm. apply land_low_high; [lia | lia]. }
  rewrite (Z.lor_comm ((2 ^ ew - 1) * 2 ^ m)).
  rewrite lor_low_high by lia.
  rewrite Z.lor_comm. rewrite <- (Z.mul_1_l (2 ^ (m + ew))).
  rewrite lor_low_high by (try lia; nia).
  lia.
Qed.
(** ** The constructor, for the layouts with a hidden bit *)

Hypothesis Hhidden : float_traits.has_hidden_bit F = true.

Lemma hidden_m : m = digits F - 1.
Proof.
  unfold m, hb. rewrite Hhidden. pose proof layout_significand_width. lia.
Qed.

Lemma hidden_ew : ew = exponent_bits F.
Proof. apply layout_exponent_width. Qed.

Lemma hidden_storage : float_traits.storage_width F = digits F + exponent_bits F.
Proof.
  pose proof layout_storage_width as (Es & _). rewrite Es, hidden_m, hidden_ew. lia.
Qed.

Section Fields.
Variable bits : Z.
Hypothesis Hbits : 0 <= bits < 2 ^ float_traits.storage_width F.

Let T := trailing_field F bits.
Let E := exponent_field F bits.

Lemma field_ranges : 0 <= T < 2 ^ m /\ 0 <= E < 2 ^ ew.
Proof.
  pose proof layout_storage_width as (_ & Hm & _).
  pose proof layout_exponent_width as [_ Hew].
  unfold T, E, trailing_field, exponent_field.
  rewrite <- hidden_m, <- hidden_ew. split; apply Z.mod_pos_bound; apply pow2_pos; lia.
Qed.

Lemma make_word : float_traits.uint_t F bits = bits.
Proof.
  apply layout_uint_t. pose proof layout_storage_width as (Es & _).
  rewrite <- Es. exact Hbits.
Qed.

Lemma make_trailing : Z.land bits (float_traits.significand_mask F) = T.
Proof.
  pose proof layout_storage_width as (_ & Hm & _).
  destruct layout_masks as (M1 & _ & _). rewrite M1.
  replace (2 ^ m - 1) with (Z.ones m) by (rewrite Z.ones_equiv; lia).
  rewrite Z.land_ones by lia. unfold T, trailing_field. now rewrite hidden_m.
Qed.

Lemma make_exponent :
  i32 (Z.shiftr (Z.land bits (float_traits.exponent_mask F))
                (float_traits.exponent_shift F)) = E.
Proof.
  pose proof layout_storage_width as (_ & Hm & _).
  pose proof layout_exponent_width as [_ Hew].
  destruct layout_masks as (_ & M2 & _). destruct layout_shifts as [Ee _].
  rewrite M2, Ee.
  replace ((2 ^ ew - 1) * 2 ^ m) with (Z.shiftl (Z.ones ew) m)
    by (rewrite Z.shiftl_mul_pow2, Z.ones_equiv by lia; lia).
  rewrite land_shifted, Z.shiftr_shiftl_l, Z.sub_diag, Z.shiftl_0_r by lia.
  rewrite Z.land_ones, Z.shiftr_div_pow2 by lia.
  fold E. unfold E, exponent_field. rewrite <- hidden_m, <- hidden_ew.
  apply i32_small.
  pose proof (Z.mod_pos_bound (bits / 2 ^ m) (2 ^ ew) (pow2_pos ew ltac:(lia))).
  assert (2 ^ ew <= 2 ^ 15) by (apply pow2_mono; lia). lia.
Qed.

Lemma make_sign :
  (Z.land bits (float_traits.sign_mask F) =? 0) = (sign_field F bits =? 0).
Proof.
  pose proof layout_storage_width as (_ & Hm & _).
  pose proof layout_exponent_width as [_ Hew].
  destruct layout_masks as (_ & _ & M3). rewrite M3.
  replace (2 ^ (m + ew)) with (Z.shiftl (Z.ones 1) (m + ew))
    by (rewrite Z.shiftl_mul_pow2 by lia; change (Z.ones 1) with 1; lia).
  rewrite land_shifted by lia.
  rewrite Z.land_ones, Z.shiftr_div_pow2, Z.shiftl_mul_pow2 by lia.
  change (2 ^ 1) with 2.
  unfold sign_field. rewrite <- hidden_m, <- hidden_ew.
  pose proof (pow2_pos (m + ew) ltac:(lia)) as Pp.
  pose proof (Z.mod_pos_bound (bits / 2 ^ (m + ew)) 2 ltac:(lia)) as Hr.
  destruct ((bits / 2 ^ (m + ew)) mod 2 =? 0) eqn:E0.
  - apply Z.eqb_eq in E0. rewrite E0. reflexivity.
  - apply Z.eqb_neq in E0. apply Z.eqb_neq. nia.
Qed.

Lemma make_normal :
  E <> 0 ->
  triple.make F bits
  = {| significand := 2 ^ (digits F - 1) + T;
       exponent := E - float_traits.exponent_bias F;
       sign := if sign_field F bits =? 0 then 1 else -1 |}.
Proof.
  intros HE.
  pose proof layout_storage_width as (Es & Hm & Hle).
  pose proof layout_exponent_width as [_ Hew].
  pose proof field_ranges as [HT HEr].
  pose proof layout_bias as Eb. pose proof layout_significand_width as Esw.
  unfold triple.make. cbv zeta.
  rewrite make_word, make_exponent, make_sign, make_trailing.
  apply Z.eqb_neq in HE. rewrite HE. cbn [andb negb].
  rewrite Hhidden. fold sw. rewrite Esw, <- hidden_m.
  assert (P : 2 ^ (1 + ew + m) = 2 * 2 ^ ew * 2 ^ m).
  { rewrite !pow2_split by lia. change (2 ^ 1) with 2. ring. }
  pose proof (pow2_pos m Hm) as Pm. pose proof (pow2_pos ew ltac:(lia)) as Pe.
  rewrite Z.shiftl_mul_pow2, Z.mul_1_l by lia.
  rewrite (layout_uint_t (2 ^ m)) by (rewrite P; nia).
  rewrite <- (Z.mul_1_l (2 ^ m)) at 1. rewrite lor_low_high by lia.
  f_equal; [lia |].
  apply i32_small. apply Z.eqb_neq in HE. fold sw in Eb.
  assert (2 ^ ew <= 2 ^ 15) by (apply pow2_mono; lia). lia.
Qed.

Lemma make_subnormal :
  E = 0 -> T <> 0 ->
  let shift := digits F - bit_width T in
  triple.make F bits
  = {| significand := T * 2 ^ shift;
       exponent := 1 - float_traits.exponent_bias F - shift;
       sign := if sign_field F bits =? 0 then 1 else -1 |}
  /\ 1 <= shift
  /\ 2 ^ (digits F - 1) <= T * 2 ^ shift < 2 ^ digits F.
Proof.
  intros HE HT0 shift.
  pose proof layout_storage_width as (Es & Hm & Hle).
  pose proof layout_exponent_width as [_ Hew].
  pose proof field_ranges as [HT _].
  pose proof layout_bias as Eb. pose proof layout_significand_width as Esw.
  pose proof hidden_m as Em.
  assert (Tpos : 0 < T) by lia.
  pose proof (Z.log2_spec T Tpos) as Hl.
  pose proof (Z.log2_nonneg T) as Hl0.
  assert (Hlm : Z.log2 T < m) by (apply Z.log2_lt_pow2; lia).
  assert (Ebw : bit_width T = Z.log2 T + 1).
  { unfold bit_width. destruct (T =? 0) eqn:E0; [apply Z.eqb_eq in E0; lia | reflexivity]. }
  assert (Hsh : 1 <= shift <= m) by (unfold shift; lia).
  assert (Psh : 2 ^ Z.log2 T * 2 ^ shift = 2 ^ m).
  { rewrite <- pow2_split by lia. f_equal. unfold shift. lia. }
  assert (Pm1 : 2 ^ digits F = 2 * 2 ^ m).
  { replace (digits F) with (1 + m) by lia. rewrite pow2_split by lia. reflexivity. }
  pose proof (pow2_pos shift ltac:(lia)) as Ps.
  assert (Hrange : 2 ^ (digits F - 1) <= T * 2 ^ shift < 2 ^ digits F).
  { rewrite Pm1, <- Em. rewrite Z.pow_succ_r in Hl by lia. nia. }
  split; [| split; [lia | exact Hrange]].
  unfold triple.make. cbv zeta.
  rewrite make_word, make_exponent, make_sign, make_trailing.
  fold E. rewrite HE. apply Z.eqb_neq in HT0. rewrite HT0. cbn [andb negb Z.eqb].
  fold sw. rewrite Esw. fold shift.
  rewrite (i32_small shift) by lia.
  rewrite Z.shiftl_mul_pow2 by lia.
  assert (P : 2 ^ (1 + ew + m) = 2 * 2 ^ ew * 2 ^ m).
  { rewrite !pow2_split by lia. change (2 ^ 1) with 2. ring. }
  pose proof (pow2_pos m Hm) as Pm. pose proof (pow2_pos ew ltac:(lia)) as Pe.
  rewrite layout_uint_t by (rewrite P; nia).
  f_equal. apply i32_small. fold sw in Eb. lia.
Qed.
End Fields.
End Layout.

(** C8.  For every layout with 1 to 113 significand digits and a maximal
    exponent from 1 to 16384 (single and double precision among them, and
    the extended format, which has no hidden bit), the storage width is the
    sum of the three field widths less one when the leading significand bit
    is hidden, the three masks are pairwise disjoint, and together they are
    the [storage_width] low bits. *)
Theorem traits_invariant (F : numeric_limits) :
  1 <= digits F <= 113 ->
  1 <= max_exponent F <= 16384 ->
  float_traits.storage_width F
  = float_traits.sign_width + float_traits.exponent_width F
    + float_traits.significand_width F
    - (if float_traits.has_hidden_bit F then 1 else 0)
  /\ Z.land (float_traits.sign_mask F) (float_traits.exponent_mask F) = 0
  /\ Z.land (float_traits.sign_mask F) (float_traits.significand_mask F) = 0
  /\ Z.land (float_traits.exponent_mask F) (float_traits.significand_mask F) = 0
  /\ Z.lor (float_traits.sign_mask F)
           (Z.lor (float_traits.exponent_mask F) (float_traits.significand_mask F))
     = 2 ^ float_traits.storage_width F - 1.
Proof. apply layout_invariant. Qed.

Lemma traits_invariant_witness :
  1 <= digits limits_double <= 113
  /\ 1 <= max_exponent limits_double <= 16384
  /\ float_traits.storage_width limits_double = 1 + 11 + 53 - 1
  /\ Z.lor (float_traits.sign_mask limits_double)
           (Z.lor (float_traits.exponent_mask limits_double)
                  (float_traits.significand_mask limits_double))
     = 2 ^ 64 - 1.
Proof.
  assert (Hd : 1 <= digits limits_double <= 113) by (simpl; lia).
  assert (He : 1 <= max_exponent limits_double <= 16384) by (simpl; lia).
  destruct (traits_invariant limits_double Hd He) as (H1 & _ & _ & _ & H5).
  split; [exact Hd |]. split; [exact He |]. split; [exact H1 | exact H5].
Defined.

Lemma Qscale (a s x : Z) :
  0 <= s -> (inject_Z (a * 2 ^ s) * 2 ^ (x - s) == inject_Z a * 2 ^ x)%Q.
Proof.
  intros Hs. rewrite inject_Z_mult, Zpower_Qpower by lia.
  rewrite <- Qmult_assoc. apply Qmult_comp; [reflexivity |].
  change (inject_Z 2) with 2%Q.
  rewrite <- Qpower_plus by discriminate.
  now replace (s + (x - s)) with x by lia.
Qed.


(** ** The constructor, for the layouts without a hidden bit *)

Section Plain.
Variable F : numeric_limits.
Hypothesis Hdigits : 1 <= digits F <= 113.
Hypothesis Hmaxexp : 1 <= max_exponent F <= 16384.
Hypothesis Hplain : float_traits.has_hidden_bit F = false.

Variable bits : Z.
Hypothesis Hbits : 0 <= bits < 2 ^ float_traits.storage_width F.

Let p := digits F.
Let eb := exponent_bits F.
Let T := significand_field false F bits.
Let E := biased_exponent false F bits.










End Plain.



(** * The products of [round_to_odd] are exact *)

Lemma div_mod_unique_pos (p q rho M : Z) :
  0 <= rho < M -> p = q * M + rho -> p / M = q /\ p mod M = rho.
Proof.
  intros Hr ->. split.
  - symmetry. apply Z.div_unique with rho; [left; lia | ring].
  - symmetry. apply Z.mod_unique with q; [left; lia | ring].
Qed.

(** With [g] the table mantissa rounded up, the high word is the floor of
    the exact product and [y0 > 1] tells whether it is an integer, as long as
    the fractional part of the exact product is 0 or not too close to 0
    or 1. *)
Lemma round_to_odd_exact (g h A B c' : Z) :
  0 < B -> 0 <= A -> 0 <= h <= 64 -> 0 <= c' -> c' * 2 ^ h < 2 ^ 32 ->
  0 <= g < 2 ^ 64 ->
  (g - 1) * B < A * 2 ^ (64 - h) <= g * B ->
  let r := (c' * A) mod B in
  r = 0 \/ (B <= r * 2 ^ 31 /\ B <= (B - r) * 2 ^ 32) ->
  math.round_to_odd 32 g (c' * 2 ^ h) = exact_round_to_odd (c' * A) B.
Proof.
  intros HB HA Hh Hc Hcp Hg Hgb r Hgap.
  assert (P2h : 0 < 2 ^ h) by (apply pow2_pos; lia).
  assert (P64 : 2 ^ (64 - h) * 2 ^ h = 2 ^ 64).
  { rewrite <- Z.pow_add_r by lia. f_equal. lia. }
  rewrite round_to_odd_32; [| assumption | split; [nia | assumption]].
  set (cp := c' * 2 ^ h) in *.
  set (X := c' * A) in *.
  set (q := X / B).
  assert (HX : X = q * B + r).
  { unfold q, r. rewrite Z.mul_comm. apply Z.div_mod. lia. }
  assert (Hr : 0 <= r < B) by (apply Z.mod_pos_bound; lia).
  set (eta := g * B - A * 2 ^ (64 - h)).
  assert (Heta : 0 <= eta < B) by (unfold eta; lia).
  set (rho := g * cp - q * 2 ^ 64).
  assert (Hcp0 : 0 <= cp) by (unfold cp; nia).
  assert (Hrho : rho * B = r * 2 ^ 64 + eta * cp).
  { unfold rho, eta, cp.
    transitivity (g * B * (c' * 2 ^ h) - (q * B) * 2 ^ 64); [ring |].
    replace (q * B) with (X - r) by lia. unfold X.
    rewrite <- P64. ring. }
  assert (Heps : 0 <= eta * cp < B * 2 ^ 32) by nia.
  unfold exact_round_to_odd. fold r. fold q.
  destruct Hgap as [Hr0 | [Hlo Hhi]].
  - (* the exact product is an integer *)
    rewrite Hr0 in *. cbn [Z.eqb].
    assert (Hrho' : 0 <= rho < 2 ^ 32) by nia.
    destruct (div_mod_unique_pos (g * cp) q rho (2 ^ 64)) as [Ed Em];
      [lia | unfold rho; ring |].
    rewrite Ed, Em.
    replace (2 ^ 33 <=? rho) with false by (symmetry; apply Z.leb_gt; lia).
    apply Z.lor_0_r.
  - assert (Hrne : r <> 0) by (intros E0; rewrite E0 in Hlo; lia).
    apply Z.eqb_neq in Hrne. rewrite Hrne.
    assert (Hrho' : 2 ^ 33 <= rho < 2 ^ 64).
    { change (2 ^ 64) with (2 ^ 33 * 2 ^ 31) in *.
      change (2 ^ 32) with (2 * 2 ^ 31) in *. split; nia. }
    destruct (div_mod_unique_pos (g * cp) q rho (2 ^ 64)) as [Ed Em];
      [lia | unfold rho; ring |].
    rewrite Ed, Em.
    replace (2 ^ 33 <=? rho) with true by (symmetry; apply Z.leb_le; lia).
    reflexivity.
Qed.

(** ** The certificates *)

Lemma centered_congruent (x B : Z) : 0 < B -> (B | x - centered x B).
Proof.
  intros HB. unfold centered.
  pose proof (Z.div_mod x B ltac:(lia)) as E.
  destruct (2 * (x mod B) <=? B).
  - exists (x / B). lia.
  - exists (x / B + 1). lia.
Qed.

Lemma divide_small_zero (B f : Z) : 0 < B -> (B | f) -> Z.abs f < B -> f = 0.
Proof.
  intros HB [q Hq] Hlt. subst f.
  assert (q = 0) by nia. subst q. reflexivity.
Qed.

Section Certificate.
Variables A B : Z.
Hypothesis HB : 0 < B.
Hypothesis HA : 0 <= A.

Let a := (2 * A) mod B.

(** A value of [n] whose product is too close to an integer gives a short
    vector [(n, y)] of the lattice [y = a * n] modulo [B]. *)
Lemma offending_pair (n : Z) :
  let r := (2 * n * A) mod B in
  ~ (r = 0 \/ (B <= r * 2 ^ 31 /\ B <= (B - r) * 2 ^ 32)) ->
  exists y, y <> 0 /\ Z.abs y * 2 ^ 31 < B /\ (B | y - a * n).
Proof.
  intros r Hbad.
  assert (Hr : 0 <= r < B) by (apply Z.mod_pos_bound; lia).
  assert (Hr0 : r <> 0) by tauto.
  assert (Dr : (B | r - 2 * n * A)).
  { exists (- (2 * n * A / B)). unfold r.
    pose proof (Z.div_mod (2 * n * A) B ltac:(lia)). lia. }
  assert (Da : (B | a - 2 * A)).
  { exists (- (2 * A / B)). unfold a.
    pose proof (Z.div_mod (2 * A) B ltac:(lia)). lia. }
  assert (Dy : (B | r - a * n)).
  { replace (r - a * n) with ((r - 2 * n * A) + (- n) * (a - 2 * A)) by ring.
    apply Z.divide_add_r; [exact Dr | now apply Z.divide_mul_r]. }
  destruct (Z.lt_ge_cases (r * 2 ^ 31) B) as [Hlo | Hlo].
  - exists r. repeat split; try assumption. rewrite Z.abs_eq by lia. exact Hlo.
  - assert (Hhi : (B - r) * 2 ^ 32 < B) by (apply Z.nle_gt; intros H; apply Hbad; right; lia).
    exists (r - B). repeat split.
    + lia.
    + rewrite Z.abs_neq by lia. change (2 ^ 32) with (2 * 2 ^ 31) in Hhi. lia.
    + replace (r - B - a * n) with ((r - a * n) + (-1) * B) by ring.
      apply Z.divide_add_r; [exact Dy | apply Z.divide_mul_r, Z.divide_refl].
Qed.

(** A linear form that is a multiple of [B] on the lattice and is small on
    the short vectors vanishes on them. *)
Lemma functional_vanishes (beta n y : Z) :
  functional_ok a B beta = true ->
  1 <= n <= n_max -> Z.abs y * 2 ^ 31 < B -> (B | y - a * n) ->
  alpha_of a B beta * n + beta * y = 0.
Proof.
  intros Hok Hn Hy Dy.
  unfold functional_ok in Hok. apply Z.ltb_lt in Hok.
  set (alpha := alpha_of a B beta) in *.
  assert (Dal : (B | alpha + beta * a)).
  { unfold alpha, alpha_of.
    replace (- centered (beta * a) B + beta * a)
      with (beta * a - centered (beta * a) B) by ring.
    now apply centered_congruent. }
  apply (divide_small_zero B); [exact HB | |].
  - replace (alpha * n + beta * y)
      with ((alpha + beta * a) * n + beta * (y - a * n)) by ring.
    apply Z.divide_add_r; [now apply Z.divide_mul_l | now apply Z.divide_mul_r].
  - assert (H1 : Z.abs (alpha * n + beta * y) <= Z.abs alpha * n + Z.abs beta * Z.abs y).
    { rewrite <- (Z.abs_eq n) at 2 by lia. rewrite <- !Z.abs_mul. apply Z.abs_triangle. }
    pose proof (Z.abs_nonneg alpha). pose proof (Z.abs_nonneg beta).
    pose proof (Z.abs_nonneg y).
    assert (G2 : Z.abs alpha * n <= Z.abs alpha * n_max) by nia.
    assert (G3 : Z.abs beta * (Z.abs y * 2 ^ 31) <= Z.abs beta * B) by nia.
    assert (P : 0 < 2 ^ 31) by lia.
    nia.
Qed.

Lemma pair_excludes (b1 b2 n y : Z) :
  alpha_of a B b1 * b2 - alpha_of a B b2 * b1 <> 0 ->
  alpha_of a B b1 * n + b1 * y = 0 ->
  alpha_of a B b2 * n + b2 * y = 0 ->
  n = 0.
Proof.
  intros Hdet H1 H2.
  assert (E : (alpha_of a B b1 * b2 - alpha_of a B b2 * b1) * n = 0).
  { transitivity (b2 * (alpha_of a B b1 * n + b1 * y)
                  - b1 * (alpha_of a B b2 * n + b2 * y)); [ring |].
    rewrite H1, H2. ring. }
  apply Z.mul_eq_0 in E. tauto.
Qed.

Lemma line_multiples (b n y : Z) :
  Z.gcd (alpha_of a B b) b = 1 ->
  alpha_of a B b * n + b * y = 0 ->
  (Z.abs b | n).
Proof.
  intros Hg H. apply Z.divide_abs_l.
  apply Z.gauss with (alpha_of a B b).
  - exists (- y). lia.
  - now rewrite Z.gcd_comm.
Qed.

Variables g h : Z.
Hypothesis Hh : 1 <= h <= 4.
Hypothesis Hg : 0 <= g < 2 ^ 64.
Hypothesis Hgb : (g - 1) * B < A * 2 ^ (64 - h) <= g * B.

Lemma certificate_sound (c : certificate) (n : Z) :
  certificate_ok g h A B c = true ->
  n_min <= n <= n_max ->
  math.round_to_odd 32 g (2 * n * 2 ^ h) = exact_round_to_odd (2 * n * A) B.
Proof.
  intros Hc Hn.
  assert (Hnn : 2 ^ 24 - 1 <= n <= 2 ^ 25 + 1) by exact Hn.
  assert (Hcp : 2 * n * 2 ^ h < 2 ^ 32).
  { assert (2 ^ h <= 2 ^ 4) by (apply pow2_mono; lia).
    pose proof (pow2_pos h ltac:(lia)). change (2 ^ 4) with 16 in *. nia. }
  set (r := (2 * n * A) mod B).
  assert (Hr : 0 <= r < B) by (apply Z.mod_pos_bound; lia).
  assert (Hdec : (r = 0 \/ (B <= r * 2 ^ 31 /\ B <= (B - r) * 2 ^ 32))
                 \/ ~ (r = 0 \/ (B <= r * 2 ^ 31 /\ B <= (B - r) * 2 ^ 32))) by lia.
  destruct Hdec as [Hgood | Hbad].
  { apply round_to_odd_exact; try assumption; lia. }
  destruct (offending_pair n Hbad) as (y & Hy0 & Hys & Dy).
  unfold certificate_ok in Hc. fold a in Hc.
  destruct c as [| b1 b2 | b].
  - (* a small denominator has no offending pair *)
    apply Z.leb_le in Hc. exfalso. apply Hbad.
    destruct (Z.eq_dec r 0) as [E0 | E0]; [now left | right]. split; nia.
  - apply andb_true_iff in Hc. destruct Hc as [Hc Hdet].
    apply andb_true_iff in Hc. destruct Hc as [H1 H2].
    apply negb_true_iff, Z.eqb_neq in Hdet.
    assert (Hn1 : 1 <= n <= n_max) by lia.
    pose proof (functional_vanishes b1 n y H1 Hn1 Hys Dy) as F1.
    pose proof (functional_vanishes b2 n y H2 Hn1 Hys Dy) as F2.
    pose proof (pair_excludes b1 b2 n y Hdet F1 F2). lia.
  - apply andb_true_iff in Hc. destruct Hc as [Hc Hall].
    apply andb_true_iff in Hc. destruct Hc as [Hc Hbpos].
    apply andb_true_iff in Hc. destruct Hc as [H1 Hgcd].
    apply Z.eqb_eq in Hgcd. apply Z.ltb_lt in Hbpos.
    assert (Hn1 : 1 <= n <= n_max) by lia.
    pose proof (functional_vanishes b n y H1 Hn1 Hys Dy) as F1.
    destruct (line_multiples b n y Hgcd F1) as [j Hj].
    assert (Hjn : n / Z.abs b = j) by (subst n; apply Z.div_mul; lia).
    assert (Hin : In j (zrange (n_min / Z.abs b)
                           (Z.to_nat (n_max / Z.abs b - n_min / Z.abs b + 1)))).
    { apply In_zrange.
      assert (n_min / Z.abs b <= n / Z.abs b) by (apply Z.div_le_mono; lia).
      assert (n / Z.abs b <= n_max / Z.abs b) by (apply Z.div_le_mono; lia).
      rewrite Z2Nat.id by lia. lia. }
    pose proof (proj1 (forallb_forall _ _) Hall j Hin) as Hd.
    cbv beta in Hd. rewrite (Z.mul_comm (Z.abs b) j), <- Hj in Hd.
    apply orb_true_iff in Hd. destruct Hd as [Hd | Hd].
    + apply Z.ltb_lt in Hd. lia.
    + unfold direct_ok in Hd. now apply Z.eqb_eq in Hd.
Qed.
End Certificate.

(** ** The exponents of the normal values *)

Lemma exponent_ok_all : forallb exponent_ok normal_exponents = true.
Proof. vm_compute. reflexivity. Qed.

Lemma ratio_den_pos (e k : Z) : 0 < ratio_den e k.
Proof.
  unfold ratio_den. apply Z.mul_pos_pos; apply Z.pow_pos_nonneg; lia.
Qed.

Lemma ratio_num_pos (e k : Z) : 0 < ratio_num e k.
Proof.
  unfold ratio_num. apply Z.mul_pos_pos; apply Z.pow_pos_nonneg; lia.
Qed.

(** What the check of a normal exponent gives. *)
Lemma exponent_facts (e : Z) :
  -149 <= e <= 104 ->
  let k := triple.k_estimate e false in
  let h := triple.h_shift e false in
  let A := ratio_num e k in
  let B := ratio_den e k in
  exists g,
    math.compute_pow10 (i32 (- k)) = Some g
    /\ 1 <= h <= 4
    /\ B <= A < 10 * B
    /\ forall n, n_min <= n <= n_max ->
         math.round_to_odd 32 g (2 * n * 2 ^ h) = exact_round_to_odd (2 * n * A) B.
Proof.
  intros He k h A B.
  assert (Hin : In e normal_exponents) by (apply In_zrange; simpl; lia).
  pose proof (proj1 (forallb_forall _ _) exponent_ok_all e Hin) as Hok.
  unfold exponent_ok in Hok. fold k h A B in Hok.
  destruct (math.compute_pow10 (i32 (- k))) as [g |]; [| discriminate].
  exists g.
  repeat (apply andb_true_iff in Hok; destruct Hok as [Hok ?]).
  repeat match goal with
         | X : (_ <? _) = true |- _ => apply Z.ltb_lt in X
         | X : (_ <=? _) = true |- _ => apply Z.leb_le in X
         end.
  split; [reflexivity |]. split; [lia |]. split; [lia |].
  intros n Hn.
  pose proof (ratio_num_pos e k) as HA. fold A in HA.
  apply certificate_sound with (c := certificate_of e);
    try assumption; try lia; apply ratio_den_pos.
Qed.

(** * The decisions of [to_decimal] *)

Lemma uint_t_float_fun : float_traits.uint_t limits_float = u32.
Proof. reflexivity. Qed.

Lemma choose_tail (ev : bool) (vbl vb vbr k sg : Z) :
  (let lower := u32 (vbl + b2z (negb ev)) in
   let upper := u32 (vbr - b2z (negb ev)) in
   let s := vb / 4 in
   let up := lower <=? u32 (40 * (s / 10)) in
   let wp := u32 (40 * (s / 10) + 40) <=? upper in
   let u := lower <=? u32 (4 * s) in
   let w := u32 (4 * s + 4) <=? upper in
   if (10 <=? s) && negb (Bool.eqb up wp)
   then Some {| significand := u32 (s / 10 + b2z wp); exponent := i32 (k + 1); sign := sg |}
   else if negb (Bool.eqb u w)
   then Some {| significand := u32 (s + b2z w); exponent := k; sign := sg |}
   else Some {| significand :=
                  u32 (s + b2z ((u32 (4 * s + 2) <? vb)
                                || ((vb =? u32 (4 * s + 2)) && negb (Z.land s 1 =? 0))));
                exponent := k; sign := sg |})
  = Some {| significand := fst (choose ev vbl vb vbr);
            exponent := if snd (choose ev vbl vb vbr) then i32 (k + 1) else k;
            sign := sg |}.
Proof.
  cbv zeta. unfold choose.
  destruct (_ && _); cbn [fst snd]; [reflexivity |].
  destruct (negb _); cbn [fst snd]; reflexivity.
Qed.

Lemma to_decimal32_choose (t : float_triple) (g : Z) :
  math.compute_pow10 (i32 (- triple.k_of t)) = Some g ->
  to_decimal32 t
  = Some {| significand :=
              fst (choose (triple.is_even t) (triple.vbl limits_float t g)
                          (triple.vb limits_float t g) (triple.vbr limits_float t g));
            exponent :=
              if snd (choose (triple.is_even t) (triple.vbl limits_float t g)
                             (triple.vb limits_float t g) (triple.vbr limits_float t g))
              then i32 (triple.k_of t + 1) else triple.k_of t;
            sign := sign t |}.
Proof.
  intros Hg. unfold to_decimal32. rewrite to_decimal_locals, Hg.
  cbv zeta.
  unfold triple.up_inside, triple.wp_inside, triple.u_inside,
    triple.w_inside, triple.candidate, triple.lower, triple.upper.
  rewrite uint_t_float_fun.
  rewrite <- choose_tail. reflexivity.
Qed.

(** ** Round to odd and the comparisons with even integers *)

Section RoundToOdd.
Variables X B : Z.
Hypothesis HB : 0 < B.
Hypothesis HX : 0 <= X.

Let q := X / B.
Let r := X mod B.

Lemma rto_cases :
  X = q * B + r /\ 0 <= r < B /\ 0 <= q
  /\ ((r = 0 /\ exact_round_to_odd X B = q)
      \/ (0 < r /\ exact_round_to_odd X B = 2 * (q / 2) + 1)).
Proof.
  assert (E : X = q * B + r).
  { unfold q, r. rewrite Z.mul_comm. apply Z.div_mod. lia. }
  assert (Hr : 0 <= r < B) by (apply Z.mod_pos_bound; lia).
  assert (Hq : 0 <= q) by (apply Z.div_pos; lia).
  split; [exact E |]. split; [exact Hr |]. split; [exact Hq |].
  unfold exact_round_to_odd. fold r q.
  destruct (r =? 0) eqn:E0.
  - left. apply Z.eqb_eq in E0. tauto.
  - right. apply Z.eqb_neq in E0. split; [lia |]. apply lor_1. exact Hq.
Qed.

Lemma rto_le_even (z : Z) :
  Z.even z = true -> (exact_round_to_odd X B <= z <-> X <= z * B).
Proof.
  intros Hz. apply Z.even_spec in Hz. destruct Hz as [z' ->].
  destruct rto_cases as (E & Hr & Hq & [[R0 ->] | [R0 ->]]).
  - rewrite E, R0. split; intros; nia.
  - pose proof (Z.div_mod q 2 ltac:(lia)) as Eq.
    pose proof (Z.mod_pos_bound q 2 ltac:(lia)) as Hm.
    rewrite E. split; intros; nia.
Qed.

Lemma rto_ge_even (z : Z) :
  Z.even z = true -> (z <= exact_round_to_odd X B <-> z * B <= X).
Proof.
  intros Hz. apply Z.even_spec in Hz. destruct Hz as [z' ->].
  destruct rto_cases as (E & Hr & Hq & [[R0 ->] | [R0 ->]]).
  - rewrite E, R0. split; intros; nia.
  - pose proof (Z.div_mod q 2 ltac:(lia)) as Eq.
    pose proof (Z.mod_pos_bound q 2 ltac:(lia)) as Hm.
    rewrite E. split; intros; nia.
Qed.

Lemma rto_bounds : q <= exact_round_to_odd X B <= q + 1.
Proof.
  destruct rto_cases as (E & Hr & Hq & [[R0 ->] | [R0 ->]]); [lia |].
  pose proof (Z.div_mod q 2 ltac:(lia)) as Eq.
  pose proof (Z.mod_pos_bound q 2 ltac:(lia)) as Hm. lia.
Qed.

Lemma rto_div4 : exact_round_to_odd X B / 4 = X / (4 * B).
Proof.
  rewrite (Z.mul_comm 4 B), <- Z.div_div by lia. fold q.
  destruct rto_cases as (E & Hr & Hq & [[R0 ->] | [R0 ->]]); [reflexivity |].
  pose proof (Z.div_mod q 4 ltac:(lia)) as E4.
  pose proof (Z.mod_pos_bound q 4 ltac:(lia)) as H4.
  pose proof (Z.div_mod q 2 ltac:(lia)) as E2.
  pose proof (Z.mod_pos_bound q 2 ltac:(lia)) as H2.
  symmetry. apply Z.div_unique with (2 * (q / 2) + 1 - 4 * (q / 4)); lia.
Qed.
End RoundToOdd.

(** ** The result lies in the interval and is alone above its exponent *)

Ltac to_props :=
  unfold inside, low_ok, up_ok in *;
  repeat match goal with
         | H : _ && _ = true |- _ => apply andb_true_iff in H; destruct H
         | H : (_ <=? _) = true |- _ => apply Z.leb_le in H
         | H : (_ <=? _) = false |- _ => apply Z.leb_gt in H
         | H : (_ <? _) = true |- _ => apply Z.ltb_lt in H
         | H : (_ <? _) = false |- _ => apply Z.ltb_ge in H
         | |- _ && _ = true => apply andb_true_iff; split
         | |- (_ <=? _) = true => apply Z.leb_le
         | |- (_ <? _) = true => apply Z.ltb_lt
         end.

Section Decide.
Variables c A B : Z.
Hypothesis Hc : 2 ^ 23 <= c < 2 ^ 24.
Hypothesis HB : 0 < B.
Hypothesis HAB : B <= A < 10 * B.

Variable ev : bool.
Let Xl := (4 * c - 2) * A.
Let X := 4 * c * A.
Let Xr := (4 * c + 2) * A.
Let vbl := exact_round_to_odd Xl B.
Let vb := exact_round_to_odd X B.
Let vbr := exact_round_to_odd Xr B.
Let s := vb / 4.

Lemma decide_candidate : s = X / (4 * B) /\ 4 * s * B <= X < 4 * s * B + 4 * B /\ c <= s < 10 * c.
Proof.
  assert (Es : s = X / (4 * B)).
  { unfold s, vb. apply rto_div4; [lia | unfold X; nia]. }
  assert (Hdm : X = 4 * B * s + X mod (4 * B)).
  { rewrite Es. apply Z.div_mod. lia. }
  pose proof (Z.mod_pos_bound X (4 * B) ltac:(lia)) as Hm.
  split; [exact Es |]. split; [lia |].
  unfold X in *. split.
  - assert (4 * c * B < 4 * B * (s + 1)) by nia. nia.
  - assert (4 * B * s < 4 * (10 * c) * B) by nia. nia.
Qed.

Lemma decide_ranges :
  1 <= vbl < 2 ^ 30 /\ 1 <= vb < 2 ^ 30 /\ 1 <= vbr < 2 ^ 30.
Proof.
  assert (G : forall Y, (4 * c - 2) * A <= Y <= (4 * c + 2) * A ->
                        1 <= exact_round_to_odd Y B < 2 ^ 30).
  { intros Y HY.
    assert (HY0 : 0 <= Y) by nia.
    pose proof (rto_bounds Y B HB HY0) as Hb.
    assert (4 * c - 2 <= Y / B) by (apply Z.div_le_lower_bound; nia).
    assert (Y / B < 10 * (4 * c + 2)) by (apply Z.div_lt_upper_bound; nia).
    lia. }
  unfold vbl, vb, vbr, Xl, X, Xr. repeat split; apply G; nia.
Qed.

Lemma lower_leb (z : Z) :
  (u32 (vbl + b2z (negb ev)) <=? 4 * z) = low_ok ev Xl B z.
Proof.
  destruct decide_ranges as (Hl & _ & _).
  assert (HXl : 0 <= Xl) by (unfold Xl; nia).
  assert (Hev : Z.even (4 * z) = true) by (rewrite Z.even_mul; reflexivity).
  rewrite u32_small by (destruct ev; simpl; lia).
  apply Bool.eq_iff_eq_true. unfold low_ok. destruct ev; cbn [negb b2z].
  - rewrite Z.add_0_r, !Z.leb_le. apply (rto_le_even Xl B HB HXl (4 * z) Hev).
  - rewrite Z.leb_le, Z.ltb_lt.
    pose proof (rto_ge_even Xl B HB HXl (4 * z) Hev) as H. fold vbl in H. lia.
Qed.

Lemma upper_leb (z : Z) :
  (4 * z <=? u32 (vbr - b2z (negb ev))) = up_ok ev Xr B z.
Proof.
  destruct decide_ranges as (_ & _ & Hr).
  assert (HXr : 0 <= Xr) by (unfold Xr; nia).
  assert (Hev : Z.even (4 * z) = true) by (rewrite Z.even_mul; reflexivity).
  rewrite u32_small by (destruct ev; simpl; lia).
  apply Bool.eq_iff_eq_true. unfold up_ok. destruct ev; cbn [negb b2z].
  - rewrite Z.sub_0_r, !Z.leb_le. apply (rto_ge_even Xr B HB HXr (4 * z) Hev).
  - rewrite Z.leb_le, Z.ltb_lt.
    pose proof (rto_le_even Xr B HB HXr (4 * z) Hev) as H. fold vbr in H. lia.
Qed.

(** [choose], with the comparisons of the source read as positions relative
    to the boundaries. *)
Lemma choose_decided :
  choose ev vbl vb vbr
  = let sp := s / 10 in
    let up := low_ok ev Xl B (10 * sp) in
    let wp := up_ok ev Xr B (10 * sp + 10) in
    if negb (Bool.eqb up wp) then (sp + b2z wp, true)
    else
      let u := low_ok ev Xl B s in
      let w := up_ok ev Xr B (s + 1) in
      if negb (Bool.eqb u w) then (s + b2z w, false)
      else (s + b2z ((4 * s + 2 <? vb) || ((vb =? 4 * s + 2) && negb (Z.land s 1 =? 0))),
            false).
Proof.
  destruct decide_candidate as (_ & _ & Hs).
  assert (Hsp : 0 <= s / 10) by (apply Z.div_pos; lia).
  assert (Hsp10 : 10 * (s / 10) <= s) by (apply Z.mul_div_le; lia).
  unfold choose. fold s. cbv zeta.
  rewrite (u32_small (40 * (s / 10))) by lia.
  rewrite (u32_small (40 * (s / 10) + 40)) by lia.
  rewrite (u32_small (4 * s)) by lia.
  rewrite (u32_small (4 * s + 4)) by lia.
  rewrite (u32_small (4 * s + 2)) by lia.
  replace (40 * (s / 10)) with (4 * (10 * (s / 10))) by ring.
  replace (4 * (10 * (s / 10)) + 40) with (4 * (10 * (s / 10) + 10)) by ring.
  replace (4 * s + 4) with (4 * (s + 1)) by ring.
  rewrite !lower_leb, !upper_leb.
  replace (10 <=? s) with true by (symmetry; apply Z.leb_le; lia).
  cbn [andb].
  destruct (negb (Bool.eqb _ _)).
  - rewrite u32_small; [reflexivity |].
    destruct (up_ok _ _ _ _); simpl; lia.
  - destruct (negb (Bool.eqb _ _)).
    + rewrite u32_small; [reflexivity |].
      destruct (up_ok _ _ _ _); simpl; lia.
    + rewrite u32_small; [reflexivity |].
      destruct (_ || _); simpl; lia.
Qed.

Lemma choose_post :
  let m := fst (choose ev vbl vb vbr) in
  let trimmed := snd (choose ev vbl vb vbr) in
  let zout := if trimmed then 10 * m else m in
  let U := if trimmed then 100 else 10 in
  inside ev Xl Xr B zout = true
  /\ (forall z, inside ev Xl Xr B (z * U) = true -> z * U = zout)
  /\ 1 <= m < 2 ^ 31.
Proof.
  destruct decide_candidate as (Es & HsX & Hsc).
  rewrite choose_decided. cbv zeta.
  set (sp := s / 10).
  assert (Hsp : 10 * sp <= s < 10 * sp + 10).
  { unfold sp. pose proof (Z.div_mod s 10 ltac:(lia)).
    pose proof (Z.mod_pos_bound s 10 ltac:(lia)). lia. }
  assert (P1 : 4 * (10 * sp) * B <= 4 * s * B) by nia.
  assert (P2 : 4 * s * B + 4 * B <= 4 * (10 * sp + 10) * B) by nia.
  assert (P3 : 4 * (s + 1) * B = 4 * s * B + 4 * B) by ring.
  assert (El : Xl = X - 2 * A) by (unfold Xl, X; ring).
  assert (Er : Xr = X + 2 * A) by (unfold Xr, X; ring).
  assert (Epar : Xl = (4 * c - 2) * A) by reflexivity.
  clearbody Xl Xr X vbl vb vbr.
  destruct (low_ok ev Xl B (10 * sp)) eqn:Eup;
    destruct (up_ok ev Xr B (10 * sp + 10)) eqn:Ewp; cbn [Bool.eqb negb fst snd b2z].
  - (* both shorter decimals inside: the interval is too narrow *)
    exfalso. destruct ev; to_props; lia.
  - (* 10 sp *)
    rewrite Z.add_0_r. split; [| split; [| lia]].
    + destruct ev; to_props; lia.
    + intros z Hz.
      assert (Hd : -1 < 10 * z - sp < 1) by (destruct ev; to_props; nia).
      lia.
  - (* 10 sp + 10 *)
    split; [| split; [| lia]].
    + destruct ev; to_props; lia.
    + intros z Hz.
      assert (Hd : -1 < 10 * z - (sp + 1) < 1) by (destruct ev; to_props; nia).
      lia.
  - (* no shorter decimal *)
    assert (Hnone : forall z, inside ev Xl Xr B (z * 10) = true -> False).
    { intros z Hz.
      assert (sp < z) by (destruct ev; to_props; nia).
      assert (z < sp + 1) by (destruct ev; to_props; nia).
      lia. }
    destruct (low_ok ev Xl B s) eqn:Eu; destruct (up_ok ev Xr B (s + 1)) eqn:Ew;
      cbn [Bool.eqb negb fst snd b2z].
    + (* both inside: the nearer one *)
      split; [| split].
      * destruct (_ || _); cbn [b2z]; rewrite ?Z.add_0_r;
          destruct ev; to_props; lia.
      * intros z Hz. exfalso. exact (Hnone z Hz).
      * destruct (_ || _); cbn [b2z]; lia.
    + rewrite Z.add_0_r. split; [| split; [| lia]].
      * destruct ev; to_props; lia.
      * intros z Hz. exfalso. exact (Hnone z Hz).
    + split; [| split; [| lia]].
      * destruct ev; to_props; lia.
      * intros z Hz. exfalso. exact (Hnone z Hz).
    + exfalso. destruct ev; to_props; [lia |].
      assert (A = B) by lia. subst A.
      assert (4 * c - 2 = 4 * s) by nia. lia.
Qed.
End Decide.

(** ** Significands that are not a power of two *)

Lemma popcount_pos_ge_1 (p : positive) : 1 <= popcount_pos p.
Proof. induction p; cbn [popcount_pos]; lia. Qed.

Lemma popcount_one (x : Z) : popcount x = 1 -> x = 2 ^ Z.log2 x.
Proof.
  destruct x as [| p | p]; cbn [popcount]; try discriminate.
  induction p as [p IH | p IH |]; cbn [popcount_pos]; intros H.
  - pose proof (popcount_pos_ge_1 p). lia.
  - specialize (IH H).
    change (Z.pos p~0) with (2 * Z.pos p).
    rewrite Z.log2_double by lia.
    rewrite Z.pow_succ_r by apply Z.log2_nonneg. now rewrite <- IH.
  - reflexivity.
Qed.

Lemma not_closer (c : Z) : 2 ^ 23 < c < 2 ^ 24 -> (popcount c =? 1) = false.
Proof.
  intros Hc. apply Z.eqb_neq. intros H. apply popcount_one in H.
  assert (El : Z.log2 c = 23) by (apply Z.log2_unique; lia).
  rewrite El in H. lia.
Qed.

Lemma is_even_even (t : float_triple) : triple.is_even t = Z.even (significand t).
Proof.
  unfold triple.is_even. rewrite Zmod_even.
  destruct (Z.even (significand t)); reflexivity.
Qed.

Lemma uint_bits_float : float_traits.uint_bits limits_float = 32.
Proof. reflexivity. Qed.

Lemma inside_convex (ev : bool) (Xl Xr B z1 z z2 : Z) :
  0 < B -> z1 <= z <= z2 ->
  inside ev Xl Xr B z1 = true -> inside ev Xl Xr B z2 = true ->
  inside ev Xl Xr B z = true.
Proof.
  intros HB Hz H1 H2.
  assert (4 * z1 * B <= 4 * z * B) by nia.
  assert (4 * z * B <= 4 * z2 * B) by nia.
  destruct ev; to_props; lia.
Qed.

(** The conversion of a normal value whose significand is not a power of two
    returns, and its result satisfies [post]. *)
Lemma to_decimal32_general (c e sgn : Z) :
  2 ^ 23 < c < 2 ^ 24 -> -149 <= e <= 104 ->
  exists r,
    to_decimal32 {| significand := c; exponent := e; sign := sgn |} = Some r
    /\ post c e r /\ sign r = sgn /\ 1 <= significand r < 2 ^ 31.
Proof.
  intros Hc He.
  set (t := {| significand := c; exponent := e; sign := sgn |}).
  pose proof (not_closer c Hc) as Hlbc.
  assert (Hlbc' : triple.lower_boundary_is_closer t = false) by exact Hlbc.
  destruct (exponent_facts e He) as (g & Hg & Hh & HAB & Hexact).
  set (k := triple.k_estimate e false) in *.
  set (h := triple.h_shift e false) in *.
  set (A := ratio_num e k) in *.
  set (B := ratio_den e k) in *.
  assert (HB : 0 < B) by apply ratio_den_pos.
  assert (Ek : triple.k_of t = k) by (unfold triple.k_of; rewrite Hlbc'; reflexivity).
  assert (Eh : triple.h_of t = h) by (unfold triple.h_of; rewrite Hlbc'; reflexivity).
  destruct (estimate_facts e false ltac:(lia)) as (_ & Hk & _).
  fold k in Hk.
  assert (Hs : 2 ^ 23 <= significand t < 2 ^ 24) by (simpl; lia).
  assert (Hh' : 1 <= triple.h_of t <= 4) by (rewrite Eh; exact Hh).
  destruct (boundary_shifts t Hs Hh') as (_ & _ & _ & Sl & Sb & Sr).
  rewrite Hlbc', Eh in Sl. rewrite Eh in Sb, Sr.
  change (significand t) with c in Sl, Sb, Sr. cbn [b2z] in Sl.
  assert (Vl : triple.vbl limits_float t g = exact_round_to_odd ((4 * c - 2) * A) B).
  { unfold triple.vbl. rewrite uint_t_float_fun, uint_bits_float, Eh, Sl.
    replace ((4 * c - 2 + 0) * 2 ^ h) with (2 * (2 * c - 1) * 2 ^ h) by ring.
    rewrite Hexact by (unfold n_min, n_max; lia). f_equal. ring. }
  assert (Vb : triple.vb limits_float t g = exact_round_to_odd (4 * c * A) B).
  { unfold triple.vb. rewrite uint_t_float_fun, uint_bits_float, Eh, Sb.
    replace (4 * c * 2 ^ h) with (2 * (2 * c) * 2 ^ h) by ring.
    rewrite Hexact by (unfold n_min, n_max; lia). f_equal. ring. }
  assert (Vr : triple.vbr limits_float t g = exact_round_to_odd ((4 * c + 2) * A) B).
  { unfold triple.vbr. rewrite uint_t_float_fun, uint_bits_float, Eh, Sr.
    replace ((4 * c + 2) * 2 ^ h) with (2 * (2 * c + 1) * 2 ^ h) by ring.
    rewrite Hexact by (unfold n_min, n_max; lia). f_equal. ring. }
  rewrite <- Ek in Hg.
  pose proof (to_decimal32_choose t g Hg) as Hres.
  rewrite Vl, Vb, Vr, Ek in Hres. rewrite is_even_even in Hres.
  cbn [significand sign] in Hres.
  destruct (choose_post c A B ltac:(lia) HB HAB (Z.even c)) as (Hin & Huniq & Hm).
  cbv zeta in Hin, Huniq, Hm.
  set (ch := choose (Z.even c) (exact_round_to_odd ((4 * c - 2) * A) B)
                    (exact_round_to_odd (4 * c * A) B)
                    (exact_round_to_odd ((4 * c + 2) * A) B)) in *.
  set (m := fst ch) in *.
  assert (Etrue : true_cbl c e = 4 * c - 2).
  { unfold true_cbl. replace (c =? 2 ^ 23) with false by (symmetry; apply Z.eqb_neq; lia).
    cbn [andb b2z]. lia. }
  exists {| significand := m;
            exponent := if snd ch then i32 (k + 1) else k;
            sign := sgn |}.
  split; [exact Hres |].
  split; [| split; [reflexivity | exact Hm]].
  unfold post. cbv zeta. rewrite Hlbc. fold k. cbn [exponent significand].
  unfold in_interval. rewrite Etrue. fold A B.
  destruct (snd ch).
  - rewrite (i32_small (k + 1)) by lia.
    replace (k + 1 - k) with 1 by lia. replace (k + 1 + 1 - k) with 2 by lia.
    change (10 ^ 1) with 10. change (10 ^ 2) with 100.
    split; [right; reflexivity |]. split.
    + rewrite (Z.mul_comm m 10). exact Hin.
    + intros z Hz. rewrite (Z.mul_comm m 10). apply Huniq. exact Hz.
  - replace (k - k) with 0 by lia. replace (k + 1 - k) with 1 by lia.
    change (10 ^ 0) with 1. change (10 ^ 1) with 10.
    split; [left; reflexivity |]. split.
    + rewrite Z.mul_1_r. exact Hin.
    + intros z Hz. rewrite Z.mul_1_r. apply Huniq. exact Hz.
Qed.

(** ** Significands that are a power of two: the 254 values, evaluated *)

Lemma power_of_two_ok_all : forallb power_of_two_ok normal_exponents = true.
Proof. vm_compute. reflexivity. Qed.

Lemma post_b_sound (c e : Z) (r : float_triple) : post_b c e r = true -> post c e r.
Proof.
  unfold post_b, post. cbv zeta.
  set (k := triple.k_estimate e (popcount c =? 1)).
  set (j := exponent r).
  set (zout := significand r * 10 ^ (j - k)).
  set (U := 10 ^ (j + 1 - k)).
  intros H.
  apply andb_true_iff in H. destruct H as [H Hnext].
  apply andb_true_iff in H. destruct H as [H Hprev].
  apply andb_true_iff in H. destruct H as [Hj Hin].
  assert (Hj' : j = k \/ j = k + 1).
  { apply orb_true_iff in Hj. destruct Hj as [Hj | Hj]; apply Z.eqb_eq in Hj; tauto. }
  split; [exact Hj' |]. split; [exact Hin |].
  assert (HU : 0 < U) by (unfold U; apply Z.pow_pos_nonneg; lia).
  pose proof (ratio_den_pos e k) as HB.
  set (t := zout / U) in *.
  assert (Ht : t * U <= zout < (t + 1) * U).
  { unfold t. pose proof (Z.div_mod zout U ltac:(lia)).
    pose proof (Z.mod_pos_bound zout U ltac:(lia)). nia. }
  apply negb_true_iff in Hnext.
  intros z Hz. unfold in_interval in *.
  destruct (Z.lt_ge_cases t z) as [Hgt | Hle].
  - exfalso.
    assert (Hc' : inside (Z.even c) (true_cbl c e * ratio_num e k)
                    ((4 * c + 2) * ratio_num e k) (ratio_den e k) ((t + 1) * U) = true).
    { apply inside_convex with (z1 := zout) (z2 := z * U); try assumption. nia. }
    rewrite Hc' in Hnext. discriminate.
  - assert (Hc' : inside (Z.even c) (true_cbl c e * ratio_num e k)
                    ((4 * c + 2) * ratio_num e k) (ratio_den e k) (t * U) = true).
    { apply inside_convex with (z1 := z * U) (z2 := zout); try assumption. nia. }
    rewrite Hc' in Hprev. cbn [negb orb] in Hprev.
    apply andb_true_iff in Hprev. destruct Hprev as [Eq Hprev].
    apply Z.eqb_eq in Eq. apply negb_true_iff in Hprev.
    destruct (Z.eq_dec z t) as [-> | Hne]; [exact Eq |].
    exfalso.
    assert (Hc'' : inside (Z.even c) (true_cbl c e * ratio_num e k)
                     ((4 * c + 2) * ratio_num e k) (ratio_den e k) ((t - 1) * U) = true).
    { apply inside_convex with (z1 := z * U) (z2 := zout); try assumption. nia. }
    rewrite Hc'' in Hprev. discriminate.
Qed.

Lemma locals_sign (c e s1 s2 g : Z) :
  let t1 := {| significand := c; exponent := e; sign := s1 |} in
  let t2 := {| significand := c; exponent := e; sign := s2 |} in
  triple.is_even t2 = triple.is_even t1
  /\ triple.k_of t2 = triple.k_of t1
  /\ triple.vbl limits_float t2 g = triple.vbl limits_float t1 g
  /\ triple.vb limits_float t2 g = triple.vb limits_float t1 g
  /\ triple.vbr limits_float t2 g = triple.vbr limits_float t1 g.
Proof.
  intros t1 t2.
  unfold triple.is_even, triple.k_of, triple.vbl, triple.vb, triple.vbr,
    triple.cbl, triple.cb, triple.cbr, triple.h_of, triple.lower_boundary_is_closer.
  repeat split; reflexivity.
Qed.

Lemma to_decimal32_sign (c e s1 s2 : Z) (r : float_triple) :
  to_decimal32 {| significand := c; exponent := e; sign := s1 |} = Some r ->
  to_decimal32 {| significand := c; exponent := e; sign := s2 |}
  = Some {| significand := significand r; exponent := exponent r; sign := s2 |}.
Proof.
  set (t1 := {| significand := c; exponent := e; sign := s1 |}).
  set (t2 := {| significand := c; exponent := e; sign := s2 |}).
  intros H.
  destruct (locals_sign c e s1 s2 0) as (_ & Ek & _).
  fold t1 t2 in Ek.
  destruct (math.compute_pow10 (i32 (- triple.k_of t1))) as [g |] eqn:Hg.
  - destruct (locals_sign c e s1 s2 g) as (Ee & _ & El & Eb & Er).
    fold t1 t2 in Ee, El, Eb, Er.
    rewrite (to_decimal32_choose t1 g Hg) in H. apply Some_eq in H.
    rewrite <- Ek in Hg.
    rewrite (to_decimal32_choose t2 g Hg).
    rewrite Ee, Ek, El, Eb, Er. rewrite <- H. reflexivity.
  - unfold to_decimal32 in H. rewrite to_decimal_locals, Hg in H. discriminate.
Qed.

Lemma to_decimal32_power_of_two (e sgn : Z) :
  -149 <= e <= 104 ->
  exists r,
    to_decimal32 {| significand := 2 ^ 23; exponent := e; sign := sgn |} = Some r
    /\ post (2 ^ 23) e r /\ sign r = sgn /\ 1 <= significand r < 2 ^ 31.
Proof.
  intros He.
  assert (Hin : In e normal_exponents) by (apply In_zrange; simpl; lia).
  pose proof (proj1 (forallb_forall _ _) power_of_two_ok_all e Hin) as Hok.
  unfold power_of_two_ok in Hok.
  destruct (to_decimal32 {| significand := 2 ^ 23; exponent := e; sign := 1 |})
    as [r1 |] eqn:E1; [| discriminate].
  apply andb_true_iff in Hok. destruct Hok as [Hok Hhi].
  apply andb_true_iff in Hok. destruct Hok as [Hok Hlo].
  apply Z.leb_le in Hlo. apply Z.ltb_lt in Hhi.
  apply post_b_sound in Hok.
  exists {| significand := significand r1; exponent := exponent r1; sign := sgn |}.
  split; [exact (to_decimal32_sign _ _ _ sgn _ E1) |].
  split; [exact Hok |]. split; [reflexivity |]. cbn [significand]. lia.
Qed.

(** The conversion of a normalised triple with the exponent of a normal
    value returns, and its result satisfies [post]. *)
Lemma to_decimal32_normal (c e sgn : Z) :
  2 ^ 23 <= c < 2 ^ 24 -> -149 <= e <= 104 ->
  exists r,
    to_decimal32 {| significand := c; exponent := e; sign := sgn |} = Some r
    /\ post c e r /\ sign r = sgn /\ 1 <= significand r < 2 ^ 31.
Proof.
  intros Hc He. destruct (Z.eq_dec c (2 ^ 23)) as [-> | Hne].
  - now apply to_decimal32_power_of_two.
  - apply to_decimal32_general; lia.
Qed.

(** * Rational values *)

Lemma Qpow_pos (b : Q) (z : Z) : (0 < b)%Q -> (0 < b ^ z)%Q.
Proof. intros. now apply Qpower_0_lt. Qed.

Lemma Qpow_split (b : Q) (x y : Z) : (0 < b)%Q -> (b ^ (x + y) == b ^ x * b ^ y)%Q.
Proof.
  intros Hb. apply Qpower_plus. intros E. rewrite E in Hb. now apply Qlt_irrefl in Hb.
Qed.

Lemma Qpow_mono (x y : Z) : x <= y -> (10 ^ x <= 10 ^ y)%Q.
Proof. intros H. apply Qpower_le_compat_l; [exact H | discriminate]. Qed.

Lemma Qpow_inject (b z : Z) : 0 <= z -> (inject_Z (b ^ z) == inject_Z b ^ z)%Q.
Proof. intros. now apply Zpower_Qpower. Qed.

Lemma Qpow_max (b : Z) (a : Z) :
  0 < b ->
  (inject_Z (b ^ Z.max a 0) == inject_Z b ^ a * inject_Z (b ^ Z.max (- a) 0))%Q.
Proof.
  intros Hb.
  assert (Hq : (0 < inject_Z b)%Q) by (unfold Qlt; simpl; lia).
  rewrite !Qpow_inject by lia.
  rewrite <- Qpow_split by exact Hq.
  replace (a + Z.max (- a) 0) with (Z.max a 0) by lia. reflexivity.
Qed.

(** [ratio_num / ratio_den] is [2 ^ e * 10 ^ - k]. *)
Lemma ratio_spec (e k : Z) :
  (inject_Z (ratio_num e k) == 2 ^ e * 10 ^ (- k) * inject_Z (ratio_den e k))%Q.
Proof.
  unfold ratio_num, ratio_den.
  rewrite !inject_Z_mult.
  rewrite (Qpow_max 2 (e - k)) by lia.
  rewrite (Qpow_max 5 (- k)) by lia.
  replace (- (e - k)) with (k - e) by lia. rewrite Z.opp_involutive.
  change (inject_Z 2) with 2%Q. change (inject_Z 5) with 5%Q.
  assert (E10 : (10 ^ (- k) == 2 ^ (- k) * 5 ^ (- k))%Q).
  { rewrite <- Qmult_power. reflexivity. }
  assert (E2 : (2 ^ (e - k) == 2 ^ e * 2 ^ (- k))%Q).
  { rewrite <- Qpow_split by reflexivity. now replace (e + - k) with (e - k) by lia. }
  rewrite E10, E2. ring.
Qed.

Lemma inject_Z_pos (z : Z) : 0 < z -> (0 < inject_Z z)%Q.
Proof. intros. unfold Qlt. simpl. lia. Qed.

Lemma scaled_order (sigma a b : Q) (a' b' : Z) :
  (0 < sigma)%Q ->
  (inject_Z a' == sigma * a)%Q -> (inject_Z b' == sigma * b)%Q ->
  (a' <= b' <-> (a <= b)%Q) /\ (a' < b' <-> (a < b)%Q).
Proof.
  intros Hs Ea Eb. split.
  - rewrite Zle_Qle, Ea, Eb. now apply Qmult_le_l.
  - rewrite Zlt_Qlt, Ea, Eb. now apply Qmult_lt_l.
Qed.

(** The interval of [to_decimal], in integers, is the rounding interval. *)
Lemma in_interval_spec (c e k z : Z) :
  in_interval c e k z = true
  <-> qinside (Z.even c) (interval_low c e) (interval_high c e) (decimal_value z k).
Proof.
  set (A := ratio_num e k). set (B := ratio_den e k).
  set (sigma := (4 * 10 ^ (- k) * inject_Z B)%Q).
  assert (Hs : (0 < sigma)%Q).
  { unfold sigma. apply Qmult_lt_0_compat; [apply Qmult_lt_0_compat |].
    - reflexivity.
    - apply Qpow_pos. reflexivity.
    - apply inject_Z_pos. apply ratio_den_pos. }
  assert (E4 : (2 ^ e == 4 * 2 ^ (e - 2))%Q).
  { change 4%Q with (2 ^ 2)%Q. rewrite <- Qpow_split by reflexivity.
    now replace (2 + (e - 2)) with e by lia. }
  assert (E1 : (10 ^ (- k) * 10 ^ k == 1)%Q).
  { rewrite <- Qpow_split by reflexivity. now replace (- k + k) with 0 by lia. }
  assert (Escale : forall u, (inject_Z (u * A) == sigma * (inject_Z u * 2 ^ (e - 2)))%Q).
  { intros u. rewrite inject_Z_mult. unfold A. rewrite ratio_spec. fold B.
    unfold sigma. rewrite E4. ring. }
  assert (Ez : (inject_Z (4 * z * B) == sigma * decimal_value z k)%Q).
  { rewrite !inject_Z_mult. unfold sigma, decimal_value.
    change (inject_Z 4) with 4%Q.
    transitivity (4 * inject_Z z * inject_Z B * (10 ^ (- k) * 10 ^ k))%Q;
      [rewrite E1 |]; ring. }
  destruct (scaled_order sigma _ _ _ _ Hs (Escale (true_cbl c e)) Ez) as [Lle Llt].
  destruct (scaled_order sigma _ _ _ _ Hs Ez (Escale (4 * c + 2))) as [Ule Ult].
  unfold in_interval, inside, low_ok, up_ok, qinside, interval_low, interval_high.
  fold A B. rewrite andb_true_iff.
  destruct (Z.even c).
  - rewrite !Z.leb_le, Lle, Ule. reflexivity.
  - rewrite !Z.ltb_lt, Llt, Ult. reflexivity.
Qed.

(** * The neighbours of a normal single precision value *)

Lemma fields32 (E T : Z) :
  0 <= E < 256 -> 0 <= T < 2 ^ 23 ->
  exponent_field limits_float (E * 2 ^ 23 + T) = E
  /\ trailing_field limits_float (E * 2 ^ 23 + T) = T.
Proof.
  intros HE HT. unfold exponent_field, trailing_field.
  change (digits limits_float - 1) with 23.
  change (exponent_bits limits_float) with 8.
  split.
  - rewrite Z.div_add_l by lia. rewrite (Z.div_small T) by lia.
    rewrite Z.add_0_r. apply Z.mod_small. lia.
  - rewrite Z.add_comm, Z.mod_add by lia. apply Z.mod_small. lia.
Qed.

Lemma magnitude32_normal (E T : Z) :
  0 < E < 256 -> 0 <= T < 2 ^ 23 ->
  (ieee_magnitude limits_float (E * 2 ^ 23 + T)
   == inject_Z (2 ^ 23 + T) * 2 ^ (E - 150))%Q.
Proof.
  intros HE HT. unfold ieee_magnitude. cbv zeta.
  destruct (fields32 E T ltac:(lia) HT) as [-> ->].
  replace (E =? 0) with false by (symmetry; apply Z.eqb_neq; lia).
  change (digits limits_float - 1) with 23.
  change (max_exponent limits_float - 1) with 127.
  now replace (E - 127 - 23) with (E - 150) by lia.
Qed.

Lemma magnitude32_subnormal (T : Z) :
  0 <= T < 2 ^ 23 ->
  (ieee_magnitude limits_float T == inject_Z T * 2 ^ (-149))%Q.
Proof.
  intros HT. unfold ieee_magnitude. cbv zeta.
  destruct (fields32 0 T ltac:(lia) HT) as [E1 E2].
  rewrite Z.mul_0_l, Z.add_0_l in E1, E2. rewrite E1, E2.
  reflexivity.
Qed.

Lemma quarter_units (a e : Z) :
  (inject_Z a * 2 ^ e == inject_Z (4 * a) * 2 ^ (e - 2))%Q.
Proof.
  rewrite (Z.mul_comm 4 a). change 4 with (2 ^ 2).
  symmetry. apply Qscale. lia.
Qed.

Lemma half_units (a e : Z) :
  (inject_Z a * 2 ^ (e - 1) == inject_Z (2 * a) * 2 ^ (e - 2))%Q.
Proof.
  rewrite (Z.mul_comm 2 a). change 2 with (2 ^ 1) at 2.
  replace (e - 2) with (e - 1 - 1) by lia.
  symmetry. apply Qscale. lia.
Qed.

Lemma midpoint_units (a b : Z) (P : Q) :
  ((inject_Z a * P + inject_Z b * P) / 2 == inject_Z (a + b) * P / 2)%Q.
Proof. rewrite inject_Z_plus. field. Qed.

Lemma half_of_double (a : Z) (P : Q) : (inject_Z (2 * a) * P / 2 == inject_Z a * P)%Q.
Proof. rewrite inject_Z_mult. change (inject_Z 2) with 2%Q. field. Qed.

Lemma same_units (a b : Z) (P : Q) : a = b -> (inject_Z a * P == inject_Z b * P)%Q.
Proof. now intros ->. Qed.

Section Neighbours.
Variables E T : Z.
Hypothesis HE : 1 <= E <= 254.
Hypothesis HT : 0 <= T < 2 ^ 23.

Let b := E * 2 ^ 23 + T.
Let c := 2 ^ 23 + T.
Let e := E - 150.

Lemma value32 :
  (ieee_magnitude limits_float b == inject_Z (4 * c) * 2 ^ (e - 2))%Q.
Proof.
  unfold b. rewrite magnitude32_normal by lia. fold c e. apply quarter_units.
Qed.

Lemma successor32 :
  (ieee_magnitude limits_float (b + 1) == inject_Z (4 * c + 4) * 2 ^ (e - 2))%Q.
Proof.
  destruct (Z.eq_dec T (2 ^ 23 - 1)) as [ET | ET].
  - replace (b + 1) with ((E + 1) * 2 ^ 23 + 0) by (unfold b; lia).
    rewrite magnitude32_normal by lia.
    replace (E + 1 - 150) with (e + 1 - 1 + 1) by (unfold e; lia).
    rewrite quarter_units.
    replace (e + 1 - 1 + 1 - 2) with (e - 1) by lia.
    rewrite half_units. apply same_units. unfold c. lia.
  - replace (b + 1) with (E * 2 ^ 23 + (T + 1)) by (unfold b; lia).
    rewrite magnitude32_normal by lia. fold e. rewrite quarter_units.
    apply same_units. unfold c. lia.
Qed.

Lemma predecessor32 :
  (ieee_magnitude limits_float (b - 1)
   == inject_Z (2 * true_cbl c e - 4 * c) * 2 ^ (e - 2))%Q.
Proof.
  unfold true_cbl.
  destruct (Z.eq_dec T 0) as [ET | ET].
  - replace (c =? 2 ^ 23) with true by (symmetry; apply Z.eqb_eq; unfold c; lia).
    cbn [andb].
    destruct (Z.eq_dec E 1) as [E1 | E1].
    + replace (-149 <? e) with false by (symmetry; apply Z.ltb_ge; unfold e; lia).
      replace (b - 1) with (2 ^ 23 - 1) by (unfold b; lia).
      rewrite magnitude32_subnormal by lia.
      replace (-149) with e by (unfold e; lia).
      rewrite quarter_units. apply same_units. unfold c, b2z. lia.
    + replace (-149 <? e) with true by (symmetry; apply Z.ltb_lt; unfold e; lia).
      replace (b - 1) with ((E - 1) * 2 ^ 23 + (2 ^ 23 - 1)) by (unfold b; lia).
      rewrite magnitude32_normal by lia.
      replace (E - 1 - 150) with (e - 1) by (unfold e; lia).
      rewrite half_units. apply same_units. unfold c, b2z. lia.
  - replace (c =? 2 ^ 23) with false by (symmetry; apply Z.eqb_neq; unfold c; lia).
    cbn [andb b2z].
    replace (b - 1) with (E * 2 ^ 23 + (T - 1)) by (unfold b; lia).
    rewrite magnitude32_normal by lia. fold e. rewrite quarter_units.
    apply same_units. unfold c. lia.
Qed.

Lemma parity32 : Z.even b = Z.even c.
Proof.
  unfold b, c. rewrite !Z.even_add, Z.even_mul.
  change (Z.even (2 ^ 23)) with true. now rewrite orb_true_r.
Qed.

(** Rounding to a normal value, by its rounding interval. *)
Lemma rounds_to_interval (x : Q) :
  rounds_to_nearest_even limits_float x b
  <-> qinside (Z.even c) (interval_low c e) (interval_high c e) x.
Proof.
  unfold rounds_to_nearest_even. cbv zeta.
  rewrite parity32.
  assert (El : ((ieee_magnitude limits_float (b - 1) + ieee_magnitude limits_float b) / 2
                == interval_low c e)%Q).
  { rewrite predecessor32, value32, midpoint_units.
    replace (2 * true_cbl c e - 4 * c + 4 * c) with (2 * true_cbl c e) by lia.
    apply half_of_double. }
  assert (Eh : ((ieee_magnitude limits_float b + ieee_magnitude limits_float (b + 1)) / 2
                == interval_high c e)%Q).
  { rewrite successor32, value32, midpoint_units.
    replace (4 * c + (4 * c + 4)) with (2 * (4 * c + 2)) by lia.
    apply half_of_double. }
  unfold qinside. destruct (Z.even c); rewrite El, Eh; reflexivity.
Qed.
End Neighbours.

(** * Decimal digits *)

Lemma pow10_pos (n : Z) : 0 <= n -> 0 < 10 ^ n.
Proof. intros. apply Z.pow_pos_nonneg; lia. Qed.

Lemma pow10_succ (n : Z) : 0 <= n -> 10 ^ (n + 1) = 10 * 10 ^ n.
Proof. intros. rewrite Z.pow_add_r by lia. change (10 ^ 1) with 10. ring. Qed.

Lemma fuel_enough (m : Z) : 0 < m -> m < 10 * 10 ^ Z.of_nat (Z.to_nat (Z.log2 m)).
Proof.
  intros Hm. rewrite Z2Nat.id by apply Z.log2_nonneg.
  pose proof (Z.log2_spec m Hm) as [_ Hu].
  pose proof (Z.log2_nonneg m) as HL.
  replace (Z.succ (Z.log2 m)) with (Z.log2 m + 1) in Hu by lia.
  rewrite Z.pow_add_r in Hu by lia. change (2 ^ 1) with 2 in Hu.
  assert (2 ^ Z.log2 m <= 10 ^ Z.log2 m) by (apply Z.pow_le_mono_l; lia).
  lia.
Qed.

Lemma ndigits_fuel_spec (fuel : nat) :
  forall m, 0 < m -> m < 10 * 10 ^ Z.of_nat fuel ->
  1 <= ndigits_fuel fuel m
  /\ 10 ^ (ndigits_fuel fuel m - 1) <= m < 10 ^ ndigits_fuel fuel m.
Proof.
  induction fuel as [| fuel IH]; intros m Hm Hf.
  - simpl in *. change (10 ^ (1 - 1)) with 1. change (10 ^ 1) with 10. lia.
  - cbn [ndigits_fuel]. destruct (Z.ltb_spec m 10) as [Hs | Hs].
    + change (10 ^ (1 - 1)) with 1. change (10 ^ 1) with 10. lia.
    + rewrite Nat2Z.inj_succ in Hf.
      replace (Z.succ (Z.of_nat fuel)) with (Z.of_nat fuel + 1) in Hf by lia.
      rewrite pow10_succ in Hf by lia.
      pose proof (Z.div_mod m 10 ltac:(lia)) as Em.
      pose proof (Z.mod_pos_bound m 10 ltac:(lia)) as Hr.
      destruct (IH (m / 10)) as (H1 & H2 & H3); [lia | lia |].
      set (n := ndigits_fuel fuel (m / 10)) in *.
      replace (1 + n - 1) with (n - 1 + 1) by lia.
      replace (1 + n) with (n + 1) by lia.
      rewrite !pow10_succ by lia. lia.
Qed.

Lemma ndigits_spec (m : Z) :
  0 < m -> 1 <= ndigits m /\ 10 ^ (ndigits m - 1) <= m < 10 ^ ndigits m.
Proof. intros Hm. apply ndigits_fuel_spec; [exact Hm | now apply fuel_enough]. Qed.

Lemma ndigits_mono (a b : Z) : 0 < a -> a <= b -> ndigits a <= ndigits b.
Proof.
  intros Ha Hab.
  destruct (ndigits_spec a Ha) as (A1 & A2 & _).
  destruct (ndigits_spec b ltac:(lia)) as (B1 & _ & B3).
  destruct (Z.le_gt_cases (ndigits a) (ndigits b)) as [H | H]; [exact H |].
  assert (10 ^ ndigits b <= 10 ^ (ndigits a - 1)) by (apply Z.pow_le_mono_r; lia).
  lia.
Qed.

Lemma ndigits_pow10 (n : Z) : 0 <= n -> ndigits (10 ^ n) = n + 1.
Proof.
  intros Hn. pose proof (pow10_pos n Hn) as Hp.
  destruct (ndigits_spec _ Hp) as (H1 & H2 & H3).
  apply Z.pow_le_mono_r_iff in H2; [| lia | lia].
  apply Z.pow_lt_mono_r_iff in H3; [| lia | lia].
  lia.
Qed.

Lemma strip_fuel_spec (fuel : nat) :
  forall m, 0 < m -> m < 10 * 10 ^ Z.of_nat fuel ->
  exists t, 0 <= t /\ m = strip_fuel fuel m * 10 ^ t
            /\ 0 < strip_fuel fuel m /\ strip_fuel fuel m mod 10 <> 0.
Proof.
  induction fuel as [| fuel IH]; intros m Hm Hf.
  - exists 0. simpl in *. rewrite Z.mod_small by lia. lia.
  - cbn [strip_fuel].
    replace (0 <? m) with true by (symmetry; apply Z.ltb_lt; lia). cbn [andb].
    destruct (Z.eqb_spec (m mod 10) 0) as [Hz | Hz].
    + rewrite Nat2Z.inj_succ in Hf.
      replace (Z.succ (Z.of_nat fuel)) with (Z.of_nat fuel + 1) in Hf by lia.
      rewrite pow10_succ in Hf by lia.
      pose proof (Z.div_mod m 10 ltac:(lia)) as Em.
      destruct (IH (m / 10)) as (t & Ht & E & Hp & Hn); [lia | lia |].
      exists (t + 1). rewrite pow10_succ by lia.
      repeat split; try assumption; lia.
    + exists 0. change (10 ^ 0) with 1. lia.
Qed.

Lemma strip_zeros_spec (m : Z) :
  0 < m ->
  exists t, 0 <= t /\ m = strip_zeros m * 10 ^ t
            /\ 0 < strip_zeros m /\ strip_zeros m mod 10 <> 0.
Proof. intros Hm. apply strip_fuel_spec; [exact Hm | now apply fuel_enough]. Qed.

Lemma stripped_le (a b s t : Z) :
  0 <= s <= t -> a mod 10 <> 0 -> a * 10 ^ s = b * 10 ^ t -> a = b /\ s = t.
Proof.
  intros Hst Ha E.
  replace t with (s + (t - s)) in E by lia.
  rewrite Z.pow_add_r in E by lia.
  pose proof (pow10_pos s ltac:(lia)) as Hp.
  assert (Ea : a = b * 10 ^ (t - s)) by nia.
  destruct (Z.eq_dec s t) as [-> | Hne].
  - rewrite Z.sub_diag in Ea. change (10 ^ 0) with 1 in Ea. lia.
  - exfalso. apply Ha.
    replace (t - s) with (t - s - 1 + 1) in Ea by lia.
    rewrite pow10_succ in Ea by lia.
    rewrite Ea. replace (b * (10 * 10 ^ (t - s - 1))) with (b * 10 ^ (t - s - 1) * 10) by ring.
    apply Z.mod_mul. lia.
Qed.

(** A number has one decomposition into a power of ten and a factor that
    does not end in 0. *)
Lemma stripped_unique (a b s t : Z) :
  0 <= s -> 0 <= t -> a mod 10 <> 0 -> b mod 10 <> 0 ->
  a * 10 ^ s = b * 10 ^ t -> a = b.
Proof.
  intros Hs Ht Ha Hb E.
  destruct (Z.le_gt_cases s t).
  - now apply (stripped_le a b s t).
  - symmetry. apply (stripped_le b a t s); [lia | assumption | now symmetry].
Qed.

Lemma strip_zeros_scaled (a t : Z) :
  0 < a -> a mod 10 <> 0 -> 0 <= t -> strip_zeros (a * 10 ^ t) = a.
Proof.
  intros Ha Hn Ht.
  pose proof (pow10_pos t Ht) as Hp.
  destruct (strip_zeros_spec (a * 10 ^ t) ltac:(nia)) as (s & Hs & E & _ & Hm).
  symmetry. now apply (stripped_unique a _ t s).
Qed.

Lemma strip_zeros_le (m : Z) : 0 < m -> 0 < strip_zeros m <= m.
Proof.
  intros Hm. destruct (strip_zeros_spec m Hm) as (t & Ht & E & Hp & _).
  pose proof (pow10_pos t Ht). split; [exact Hp | nia].
Qed.

Lemma significant_digits_le (m : Z) : 0 < m -> 1 <= significant_digits m <= ndigits m.
Proof.
  intros Hm. pose proof (strip_zeros_le m Hm) as [Hp Hle].
  unfold significant_digits. split.
  - now apply ndigits_spec.
  - now apply ndigits_mono.
Qed.

(** * Decimal values *)

Lemma decimal_value_shift (z t j : Z) :
  0 <= t -> (decimal_value (z * 10 ^ t) j == decimal_value z (j + t))%Q.
Proof.
  intros Ht. unfold decimal_value.
  rewrite inject_Z_mult, Qpow_inject by lia. change (inject_Z 10) with 10%Q.
  rewrite (Z.add_comm j t), Qpow_split by reflexivity. ring.
Qed.

Lemma decimal_value_le (a b j : Z) :
  a <= b -> (decimal_value a j <= decimal_value b j)%Q.
Proof.
  intros H. unfold decimal_value. apply Qmult_le_compat_r.
  - now rewrite <- Zle_Qle.
  - apply Qlt_le_weak, Qpow_pos. reflexivity.
Qed.

Lemma decimal_value_lt (a b j : Z) :
  a < b -> (decimal_value a j < decimal_value b j)%Q.
Proof.
  intros H. unfold decimal_value. apply Qmult_lt_compat_r.
  - apply Qpow_pos. reflexivity.
  - now rewrite <- Zlt_Qlt.
Qed.

Lemma decimal_value_inj (a b j : Z) :
  (decimal_value a j == decimal_value b j)%Q -> a = b.
Proof.
  intros E. destruct (Z.lt_trichotomy a b) as [H | [H | H]]; [| exact H |].
  - apply (decimal_value_lt a b j) in H. rewrite E in H. now apply Qlt_irrefl in H.
  - apply (decimal_value_lt b a j) in H. rewrite E in H. now apply Qlt_irrefl in H.
Qed.

Lemma qinside_eq (ev : bool) (lo hi x y : Q) :
  (x == y)%Q -> qinside ev lo hi x -> qinside ev lo hi y.
Proof. intros E. unfold qinside. destruct ev; now rewrite E. Qed.

Lemma qinside_convex (ev : bool) (lo hi x y z : Q) :
  qinside ev lo hi x -> qinside ev lo hi z -> (x <= y)%Q -> (y <= z)%Q ->
  qinside ev lo hi y.
Proof.
  unfold qinside. destruct ev; intros [Hx1 Hx2] [Hz1 Hz2] Hxy Hyz; split.
  - now apply Qle_trans with x.
  - now apply Qle_trans with z.
  - now apply Qlt_le_trans with x.
  - now apply Qle_lt_trans with z.
Qed.

(** * The shortest decimal of an interval

    When [m * 10 ^ j] lies in an interval and is the only multiple of
    [10 ^ (j + 1)] in it, if there is one, no decimal in the interval has
    fewer significant digits than [m]. *)
Section Shortest.
Variables (ev : bool) (lo hi : Q) (m j : Z).
Hypothesis Hm : 0 < m.
Hypothesis Hin : qinside ev lo hi (decimal_value m j).
Hypothesis Hunique :
  forall z, qinside ev lo hi (decimal_value z (j + 1)) ->
            (decimal_value z (j + 1) == decimal_value m j)%Q.

Lemma coarser_is_result (z t : Z) :
  0 <= t -> qinside ev lo hi (decimal_value z (j + 1 + t)) -> m = z * 10 ^ (t + 1).
Proof.
  intros Ht Hz.
  assert (E1 : (decimal_value (z * 10 ^ t) (j + 1) == decimal_value z (j + 1 + t))%Q)
    by now apply decimal_value_shift.
  assert (E2 : (decimal_value (z * 10 ^ t * 10 ^ 1) j
                == decimal_value (z * 10 ^ t) (j + 1))%Q)
    by (apply decimal_value_shift; lia).
  apply (qinside_eq _ _ _ _ _ (Qeq_sym _ _ E1)) in Hz.
  apply Hunique in Hz. rewrite <- E2 in Hz.
  apply decimal_value_inj in Hz. rewrite <- Hz.
  rewrite Z.pow_add_r by lia. ring.
Qed.

Lemma shortest_in_interval (m' j' : Z) :
  0 < m' -> qinside ev lo hi (decimal_value m' j') ->
  significant_digits m <= significant_digits m'.
Proof.
  intros Hm' Hin'.
  destruct (strip_zeros_spec m' Hm') as (t' & Ht' & E' & Hs' & Hn').
  set (s' := strip_zeros m') in *.
  assert (Hs : qinside ev lo hi (decimal_value s' (j' + t'))).
  { apply (qinside_eq _ _ _ (decimal_value m' j')); [| exact Hin'].
    rewrite E'. now apply decimal_value_shift. }
  change (significant_digits m') with (ndigits s').
  destruct (Z.le_gt_cases (j' + t') j) as [Hle | Hgt].
  - (* the other decimal is at least as fine *)
    destruct (Z.le_gt_cases (significant_digits m) (ndigits s')) as [H | H];
      [exact H | exfalso].
    pose proof (significant_digits_le m Hm) as [_ Hsd].
    destruct (ndigits_spec s' Hs') as (N1 & _ & N3).
    destruct (ndigits_spec m Hm) as (_ & M2 & _).
    set (n := ndigits m) in *.
    assert (Hpow : 10 ^ ndigits s' <= 10 ^ (n - 1)) by (apply Z.pow_le_mono_r; lia).
    pose proof (pow10_pos (j - (j' + t')) ltac:(lia)) as Hp.
    assert (Ey : (decimal_value (10 ^ (n - 1) * 10 ^ (j - (j' + t'))) (j' + t')
                  == decimal_value (10 ^ (n - 1)) j)%Q).
    { rewrite decimal_value_shift by lia.
      now replace (j' + t' + (j - (j' + t'))) with j by lia. }
    assert (Hy : qinside ev lo hi (decimal_value (10 ^ (n - 1)) j)).
    { apply (qinside_convex _ _ _ (decimal_value s' (j' + t')) _ (decimal_value m j));
        try assumption.
      - rewrite <- Ey. apply decimal_value_le. nia.
      - now apply decimal_value_le. }
    assert (Ez : (decimal_value (10 ^ (n - 2) * 10 ^ 1) j
                  == decimal_value (10 ^ (n - 2)) (j + 1 + 0))%Q).
    { rewrite Z.add_0_r. apply decimal_value_shift. lia. }
    rewrite <- Z.pow_add_r in Ez by lia.
    replace (n - 2 + 1) with (n - 1) in Ez by lia.
    apply (qinside_eq _ _ _ _ _ Ez) in Hy.
    apply coarser_is_result in Hy; [| lia].
    rewrite <- Z.pow_add_r in Hy by lia.
    assert (E1 : strip_zeros m = 1).
    { rewrite Hy. rewrite <- (Z.mul_1_l (10 ^ _)).
      apply strip_zeros_scaled; [lia | | lia]. now compute. }
    unfold significant_digits in H. rewrite E1 in H.
    change (ndigits 1) with 1 in H. lia.
  - (* the other decimal is coarser: it is the result *)
    replace (j' + t') with (j + 1 + (j' + t' - j - 1)) in Hs by lia.
    apply coarser_is_result in Hs; [| lia].
    unfold significant_digits. rewrite Hs.
    rewrite strip_zeros_scaled; [lia | exact Hs' | exact Hn' | lia].
Qed.
End Shortest.

(** * Normal single precision values *)

Lemma magnitude_pattern32 (bits : Z) :
  0 <= bits ->
  bits mod 2 ^ 31
  = exponent_field limits_float bits * 2 ^ 23 + trailing_field limits_float bits.
Proof.
  intros Hb. unfold exponent_field, trailing_field.
  change (digits limits_float - 1) with 23.
  change (exponent_bits limits_float) with 8.
  pose proof (Z.div_mod bits (2 ^ 23) ltac:(lia)) as E1.
  pose proof (Z.mod_pos_bound bits (2 ^ 23) ltac:(lia)) as B1.
  pose proof (Z.div_mod (bits / 2 ^ 23) (2 ^ 8) ltac:(lia)) as E2.
  pose proof (Z.mod_pos_bound (bits / 2 ^ 23) (2 ^ 8) ltac:(lia)) as B2.
  set (T := bits mod 2 ^ 23) in *. set (E := (bits / 2 ^ 23) mod 2 ^ 8) in *.
  set (q := bits / 2 ^ 23 / 2 ^ 8) in *.
  symmetry. apply (Z.mod_unique_pos _ _ q); lia.
Qed.

Lemma float_layout :
  1 <= digits limits_float <= 113
  /\ 1 <= max_exponent limits_float <= 16384
  /\ float_traits.has_hidden_bit limits_float = true.
Proof. repeat split; simpl; lia. Qed.

Lemma make32_normal (bits : Z) :
  0 <= bits < 2 ^ 32 -> exponent_field limits_float bits <> 0 ->
  make32 bits
  = {| significand := 2 ^ 23 + trailing_field limits_float bits;
       exponent := exponent_field limits_float bits - 150;
       sign := if sign_field limits_float bits =? 0 then 1 else -1 |}.
Proof.
  intros Hb HE. destruct float_layout as (H1 & H2 & H3).
  exact (make_normal limits_float H1 H2 H3 bits Hb HE).
Qed.

Lemma fields32_ranges (bits : Z) :
  0 <= trailing_field limits_float bits < 2 ^ 23
  /\ 0 <= exponent_field limits_float bits < 256.
Proof.
  unfold trailing_field, exponent_field.
  change (digits limits_float - 1) with 23.
  change (exponent_bits limits_float) with 8.
  split; [apply Z.mod_pos_bound | apply (Z.mod_pos_bound _ (2 ^ 8))]; lia.
Qed.

(** The postcondition of [to_decimal], on rational values. *)
Lemma post_rational (c e : Z) (r : float_triple) :
  post c e r ->
  let ev := Z.even c in
  let lo := interval_low c e in
  let hi := interval_high c e in
  qinside ev lo hi (decimal_value (significand r) (exponent r))
  /\ forall z, qinside ev lo hi (decimal_value z (exponent r + 1)) ->
               (decimal_value z (exponent r + 1)
                == decimal_value (significand r) (exponent r))%Q.
Proof.
  unfold post. cbv zeta.
  set (k := triple.k_estimate e (popcount c =? 1)).
  set (j := exponent r). set (m := significand r).
  intros (Hj & Hin & Huniq).
  assert (Em : (decimal_value (m * 10 ^ (j - k)) k == decimal_value m j)%Q).
  { rewrite decimal_value_shift by lia. now replace (k + (j - k)) with j by lia. }
  assert (Ez : forall z, (decimal_value (z * 10 ^ (j + 1 - k)) k
                          == decimal_value z (j + 1))%Q).
  { intros z. rewrite decimal_value_shift by lia.
    now replace (k + (j + 1 - k)) with (j + 1) by lia. }
  split.
  - apply in_interval_spec in Hin. now apply (qinside_eq _ _ _ _ _ Em) in Hin.
  - intros z Hz.
    apply (qinside_eq _ _ _ _ _ (Qeq_sym _ _ (Ez z))) in Hz.
    apply in_interval_spec in Hz. apply Huniq in Hz.
    rewrite <- Ez, <- Em. now rewrite Hz.
Qed.

(** C2, as stated, fails on 1.0f: [to_decimal] returns [10000000 * 10 ^ -7],
    a significand of 8 digits, and [1 * 10 ^ 0], of one digit, parses to the
    same value. *)
Lemma trailing_zeros_are_kept :
  to_decimal32 (make32 0x3f800000)
  = Some {| significand := 10000000; exponent := -7; sign := 1 |}
  /\ parses_to limits_float 1 1 0 0x3f800000
  /\ ndigits 1 = 1 /\ ndigits 10000000 = 8.
Proof.
  split; [now vm_compute |]. split; [| split; now vm_compute].
  split; [now vm_compute |].
  change (0x3f800000 mod 2 ^ (digits limits_float - 1 + exponent_bits limits_float))
    with (127 * 2 ^ 23 + 0).
  apply rounds_to_interval; [lia | lia |].
  apply in_interval_spec with (k := 0). now vm_compute.
Qed.

(** C2, amended.  For every bit pattern of a normal single precision value,
    [to_decimal] returns a decimal that parses back to that value under
    round to nearest, ties to even, and no decimal that parses back to it
    has fewer significant digits, trailing zeros of the significands not
    counted. *)
Theorem shortest_significant_digits (bits : Z) :
  0 <= bits < 2 ^ 32 ->
  0 < exponent_field limits_float bits < 255 ->
  exists r,
    to_decimal32 (make32 bits) = Some r
    /\ 0 < significand r
    /\ parses_to limits_float (sign r) (significand r) (exponent r) bits
    /\ forall sgn m j,
         0 < m -> parses_to limits_float sgn m j bits ->
         significant_digits (significand r) <= significant_digits m.
Proof.
  intros Hb HE.
  pose proof (fields32_ranges bits) as [HT _].
  set (T := trailing_field limits_float bits) in *.
  set (E := exponent_field limits_float bits) in *.
  rewrite make32_normal by (fold E; lia). fold T E.
  destruct (to_decimal32_normal (2 ^ 23 + T) (E - 150)
              (if sign_field limits_float bits =? 0 then 1 else -1))
    as (r & Er & Hpost & Hsign & Hm); [lia | lia |].
  apply post_rational in Hpost. cbv zeta in Hpost. destruct Hpost as [Hin Huniq].
  assert (Eb : bits mod 2 ^ (digits limits_float - 1 + exponent_bits limits_float)
               = E * 2 ^ 23 + T).
  { change (digits limits_float - 1 + exponent_bits limits_float) with 31.
    apply magnitude_pattern32. lia. }
  exists r. split; [exact Er |]. split; [lia |]. split.
  - split; [exact Hsign |]. rewrite Eb. apply rounds_to_interval; [lia | lia | exact Hin].
  - intros sgn m j Hpos [_ Hp]. rewrite Eb in Hp.
    apply rounds_to_interval in Hp; [| lia | lia].
    assert (Hr : 0 < significand r) by lia.
    exact (shortest_in_interval _ _ _ _ _ Hr Hin Huniq m j Hpos Hp).
Qed.

Lemma shortest_significant_digits_witness :
  exists r,
    to_decimal32 (make32 0x3f800000) = Some r
    /\ 0 < significand r
    /\ parses_to limits_float (sign r) (significand r) (exponent r) 0x3f800000
    /\ forall sgn m j,
         0 < m -> parses_to limits_float sgn m j 0x3f800000 ->
         significant_digits (significand r) <= significant_digits m.
Proof.
  apply (shortest_significant_digits 0x3f800000).
  - lia.
  - vm_compute. split; reflexivity.
Defined.

(** * Subnormal single precision values *)

Lemma outside_table_all : forallb outside_table subnormal_exponents = true.
Proof. vm_compute. reflexivity. Qed.

Lemma subnormal_index (e : Z) (closer : bool) :
  -172 <= e <= -150 ->
  math.kMax < i32 (- triple.k_estimate e closer) <= 52
  /\ math.compute_pow10 (i32 (- triple.k_estimate e closer)) = None.
Proof.
  intros He.
  pose proof outside_table_all as H.
  rewrite forallb_forall in H.
  assert (Hi : In e subnormal_exponents) by (apply In_zrange; simpl; lia).
  specialize (H e Hi).
  unfold outside_table in H. rewrite forallb_forall in H.
  assert (Hc : In closer [false; true]) by (destruct closer; simpl; auto).
  specialize (H closer Hc).
  cbv zeta in H. apply andb_prop in H as [H H3]. apply andb_prop in H as [H1 H2].
  apply Z.ltb_lt in H1. apply Z.leb_le in H2.
  split; [lia |].
  destruct (math.compute_pow10 _); [discriminate | reflexivity].
Qed.

Lemma make32_subnormal (bits : Z) :
  0 <= bits < 2 ^ 32 ->
  exponent_field limits_float bits = 0 ->
  trailing_field limits_float bits <> 0 ->
  exists c e,
    make32 bits
    = {| significand := c; exponent := e;
         sign := if sign_field limits_float bits =? 0 then 1 else -1 |}
    /\ 2 ^ 23 <= c < 2 ^ 24 /\ -172 <= e <= -150.
Proof.
  intros Hb HE HT. destruct float_layout as (H1 & H2 & H3).
  pose proof (make_subnormal limits_float H1 H2 H3 bits Hb HE HT) as H.
  cbv zeta in H. destruct H as (Em & Hs & Hc).
  pose proof (fields32_ranges bits) as [HTr _].
  set (T := trailing_field limits_float bits) in *.
  assert (Hw : 1 <= bit_width T).
  { unfold bit_width. replace (T =? 0) with false by (symmetry; apply Z.eqb_neq; lia).
    pose proof (Z.log2_nonneg T). lia. }
  eexists _, _. split; [exact Em |].
  change (digits limits_float) with 24 in *.
  change (float_traits.exponent_bias limits_float) with 150.
  split; [exact Hc | lia].
Qed.

(** C1.  The conversion of a subnormal single precision value stops at the
    range check of [compute_pow10]: [to_decimal] returns no decimal at all,
    so there is none to parse back. *)
Theorem subnormal_conversion_aborts (bits : Z) :
  0 <= bits < 2 ^ 32 ->
  exponent_field limits_float bits = 0 ->
  trailing_field limits_float bits <> 0 ->
  to_decimal32 (make32 bits) = None.
Proof.
  intros Hb HE HT.
  destruct (make32_subnormal bits Hb HE HT) as (c & e & Em & _ & He).
  rewrite Em. unfold to_decimal32. rewrite to_decimal_locals.
  unfold triple.k_of. cbn [exponent].
  now destruct (subnormal_index e
                  (triple.lower_boundary_is_closer
                     {| significand := c; exponent := e;
                        sign := if sign_field limits_float bits =? 0 then 1 else -1 |})
                  He) as [_ ->].
Qed.

Lemma subnormal_conversion_aborts_witness :
  to_decimal32 (make32 1) = None.
Proof.
  apply (subnormal_conversion_aborts 1).
  - lia.
  - reflexivity.
  - vm_compute. discriminate.
Defined.

(** C4.  For a subnormal single precision value the constructor returns a
    normalized significand and a binary exponent from -172 to -150, and the
    index the estimator passes to [compute_pow10] is then from 46 to 52,
    above [kMax = 45]: the range check fails. *)
Theorem subnormal_index_leaves_table (bits : Z) :
  0 <= bits < 2 ^ 32 ->
  exponent_field limits_float bits = 0 ->
  trailing_field limits_float bits <> 0 ->
  let t := make32 bits in
  2 ^ 23 <= significand t < 2 ^ 24
  /\ -172 <= exponent t <= -150
  /\ math.kMax < i32 (- triple.k_of t) <= 52
  /\ math.compute_pow10 (i32 (- triple.k_of t)) = None.
Proof.
  intros Hb HE HT.
  destruct (make32_subnormal bits Hb HE HT) as (c & e & Em & Hc & He).
  cbv zeta. rewrite Em. unfold triple.k_of. cbn [exponent significand].
  split; [exact Hc |]. split; [exact He |].
  now apply subnormal_index.
Qed.

Lemma subnormal_index_leaves_table_witness :
  2 ^ 23 <= significand (make32 1) < 2 ^ 24
  /\ -172 <= exponent (make32 1) <= -150
  /\ math.kMax < i32 (- triple.k_of (make32 1)) <= 52
  /\ math.compute_pow10 (i32 (- triple.k_of (make32 1))) = None.
Proof.
  apply (subnormal_index_leaves_table 1).
  - lia.
  - reflexivity.
  - vm_compute. discriminate.
Defined.

(** * The table of powers of ten *)

Lemma entries_ok : forallb entry_ok table_indices = true.
Proof. vm_compute. reflexivity. Qed.

Lemma scaled_pow10_spec (k : Z) :
  (inject_Z (scaled_pow10_num k)
   == 10 ^ k * 2 ^ (63 - math.floor_log2_pow10 k) * inject_Z (scaled_pow10_den k))%Q.
Proof.
  unfold scaled_pow10_num, scaled_pow10_den.
  set (s := 63 - math.floor_log2_pow10 k).
  rewrite !inject_Z_mult.
  rewrite (Qpow_max 10 k) by lia. rewrite (Qpow_max 2 s) by lia.
  change (inject_Z 10) with 10%Q. change (inject_Z 2) with 2%Q. ring.
Qed.

Lemma scaled_pow10_den_pos (k : Z) : 0 < scaled_pow10_den k.
Proof.
  unfold scaled_pow10_den. apply Z.mul_pos_pos; apply Z.pow_pos_nonneg; lia.
Qed.

(** The lookup fails its assertion, returning nothing, on every index
    below [kMin] or above [kMax], and it succeeds on every index from [kMin]
    to [kMax]; every entry has 64 bits, the top one set. *)
Theorem compute_pow10_range (k : Z) :
  (k < math.kMin \/ math.kMax < k -> math.compute_pow10 k = None)
  /\ (math.kMin <= k <= math.kMax ->
      exists g, math.compute_pow10 k = Some g /\ 2 ^ 63 <= g < 2 ^ 64).
Proof.
  split.
  - intros Hk. unfold math.compute_pow10.
    destruct (Z.leb_spec math.kMin k); cbn [negb]; [| reflexivity].
    destruct (Z.leb_spec k math.kMax); cbn [negb]; [| reflexivity].
    lia.
  - intros Hk.
    assert (Hin : In k table_indices).
    { apply In_zrange. unfold math.kMin, math.kMax in *. simpl. lia. }
    pose proof (proj1 (forallb_forall _ _) entries_ok k Hin) as H.
    unfold entry_ok in H. destruct (math.compute_pow10 k) as [g |]; [| discriminate].
    exists g. split; [reflexivity |].
    repeat (apply andb_prop in H; destruct H as [H ?]).
    apply Z.leb_le in H. apply Z.ltb_lt in H2. lia.
Qed.

Lemma compute_pow10_range_witness :
  math.compute_pow10 (-32) = None
  /\ math.compute_pow10 46 = None
  /\ exists g, math.compute_pow10 45 = Some g /\ 2 ^ 63 <= g < 2 ^ 64.
Proof.
  split; [| split].
  - apply (compute_pow10_range (-32)). left. unfold math.kMin. lia.
  - apply (compute_pow10_range 46). right. unfold math.kMax. lia.
  - apply (compute_pow10_range 45). unfold math.kMin, math.kMax. lia.
Defined.

(** Every entry of the table is the power of ten of its index, scaled to 64
    bits by the power of two that [floor_log2_pow10] gives, and rounded up:
    [g - 1 < 10 ^ k * 2 ^ (63 - floor_log2_pow10 k) <= g]. *)
Theorem compute_pow10_value (k : Z) :
  math.kMin <= k <= math.kMax ->
  exists g,
    math.compute_pow10 k = Some g
    /\ (inject_Z (g - 1) < 10 ^ k * 2 ^ (63 - math.floor_log2_pow10 k))%Q
    /\ (10 ^ k * 2 ^ (63 - math.floor_log2_pow10 k) <= inject_Z g)%Q.
Proof.
  intros Hk.
  assert (Hin : In k table_indices).
  { apply In_zrange. unfold math.kMin, math.kMax in *. simpl. lia. }
  pose proof (proj1 (forallb_forall _ _) entries_ok k Hin) as H.
  unfold entry_ok in H. destruct (math.compute_pow10 k) as [g |]; [| discriminate].
  exists g. split; [reflexivity |].
  repeat (apply andb_prop in H; destruct H as [H ?]).
  apply Z.ltb_lt in H1. apply Z.leb_le in H0.
  pose proof (scaled_pow10_den_pos k) as Hd.
  pose proof (scaled_pow10_spec k) as Es.
  set (v := (10 ^ k * 2 ^ (63 - math.floor_log2_pow10 k))%Q) in *.
  assert (Hq : (0 < inject_Z (scaled_pow10_den k))%Q) by now apply inject_Z_pos.
  split.
  - rewrite Zlt_Qlt, inject_Z_mult, Es in H1.
    now apply Qmult_lt_r in H1.
  - rewrite Zle_Qle, inject_Z_mult, Es in H0.
    now apply Qmult_le_r in H0.
Qed.

Lemma compute_pow10_value_witness :
  exists g,
    math.compute_pow10 (-3) = Some g
    /\ (inject_Z (g - 1) < 10 ^ (-3) * 2 ^ (63 - math.floor_log2_pow10 (-3)))%Q
    /\ (10 ^ (-3) * 2 ^ (63 - math.floor_log2_pow10 (-3)) <= inject_Z g)%Q.
Proof.
  apply (compute_pow10_value (-3)). unfold math.kMin, math.kMax. lia.
Defined.

(** * The binary logarithm of a power of ten *)

Lemma log2_pow10_checked : log2_pow10_ok 1234 0 1 = true.
Proof. vm_compute. reflexivity. Qed.

Lemma log2_pow10_ok_sound (n : nat) :
  forall e p, 0 <= e -> p = 10 ^ e -> log2_pow10_ok n e p = true ->
  forall x, e <= x < e + Z.of_nat n ->
    x * 1741647 < 2 ^ 31
    /\ math.floor_log2_pow10 x = Z.log2 (10 ^ x)
    /\ (x <> 0 ->
        math.floor_log2_pow10 (- x) = - Z.log2 (10 ^ x) - 1
        /\ Z.log2 (10 ^ x - 1) = Z.log2 (10 ^ x)).
Proof.
  induction n as [| n IH]; intros e p He Ep H x Hx; [lia |].
  cbn [log2_pow10_ok] in H.
  apply andb_prop in H as [H Hrest]. apply andb_prop in H as [H Hneg].
  apply andb_prop in H as [Hmul Hlog].
  destruct (Z.eq_dec x e) as [-> | Hne].
  - apply Z.ltb_lt in Hmul. apply Z.eqb_eq in Hlog. rewrite <- Ep.
    split; [exact Hmul |]. split; [exact Hlog |].
    intros Hx0. apply orb_prop in Hneg as [Hz | Hnz].
    + apply Z.eqb_eq in Hz. contradiction.
    + apply andb_prop in Hnz as [H1 H2].
      apply Z.eqb_eq in H1. apply Z.eqb_eq in H2. now split.
  - apply (IH (e + 1) (10 * p)); [lia | | exact Hrest | lia].
    rewrite Ep, Z.pow_add_r by lia. change (10 ^ 1) with 10. ring.
Qed.

Lemma log2_rational (p L : Z) :
  0 < p -> L = Z.log2 p -> (2 ^ L <= inject_Z p /\ inject_Z p < 2 ^ (L + 1))%Q.
Proof.
  intros Hp ->. pose proof (Z.log2_spec p Hp) as [H1 H2].
  pose proof (Z.log2_nonneg p) as H0.
  replace (Z.succ (Z.log2 p)) with (Z.log2 p + 1) in H2 by lia.
  rewrite Zle_Qle in H1. rewrite Zlt_Qlt in H2.
  rewrite Qpow_inject in H1, H2 by lia. now split.
Qed.

(** For every exponent from -1233 to 1233 the product in
    [floor_log2_pow10] stays within [int32_t], and the result is the floor of
    the binary logarithm of [10 ^ e]. *)
Theorem floor_log2_pow10_correct (e : Z) :
  -1233 <= e <= 1233 ->
  - 2 ^ 31 <= e * 1741647 < 2 ^ 31
  /\ floor_log2 (10 ^ e)%Q (math.floor_log2_pow10 e).
Proof.
  intros He. split; [lia |].
  assert (G : forall x, 0 <= x <= 1233 ->
              x * 1741647 < 2 ^ 31
              /\ math.floor_log2_pow10 x = Z.log2 (10 ^ x)
              /\ (x <> 0 ->
                  math.floor_log2_pow10 (- x) = - Z.log2 (10 ^ x) - 1
                  /\ Z.log2 (10 ^ x - 1) = Z.log2 (10 ^ x))).
  { intros x Hx.
    apply (log2_pow10_ok_sound 1234 0 1 (Z.le_refl 0) eq_refl log2_pow10_checked).
    change (Z.of_nat 1234) with 1234. lia. }
  unfold floor_log2.
  destruct (Z.le_gt_cases 0 e) as [Hpos | Hneg].
  - destruct (G e ltac:(lia)) as (_ & -> & _).
    assert (Hp : 0 < 10 ^ e) by (apply Z.pow_pos_nonneg; lia).
    pose proof (log2_rational (10 ^ e) _ Hp eq_refl) as H.
    rewrite Qpow_inject in H by lia. exact H.
  - set (x := - e). assert (Hx : 0 < x <= 1233) by (unfold x; lia).
    replace e with (- x) by (unfold x; lia).
    destruct (G x ltac:(lia)) as (_ & _ & H). destruct (H ltac:(lia)) as [-> Hstrict].
    assert (Hp : 0 < 10 ^ x) by (apply Z.pow_pos_nonneg; lia).
    set (L := Z.log2 (10 ^ x)) in *.
    pose proof (Z.log2_nonneg (10 ^ x)) as HL. fold L in HL.
    assert (Hp1 : 0 < 10 ^ x - 1).
    { assert (10 ^ 1 <= 10 ^ x) by (apply Z.pow_le_mono_r; lia).
      change (10 ^ 1) with 10 in *. lia. }
    pose proof (log2_rational (10 ^ x) L Hp eq_refl) as [_ Hup].
    pose proof (log2_rational (10 ^ x - 1) L Hp1 (eq_sym Hstrict)) as [Hlow _].
    assert (Hlt : (2 ^ L < inject_Z (10 ^ x))%Q).
    { apply Qle_lt_trans with (inject_Z (10 ^ x - 1)); [exact Hlow |].
      rewrite <- Zlt_Qlt. lia. }
    rewrite Qpow_inject in Hup, Hlt by lia. change (inject_Z 10) with 10%Q in *.
    replace (- L - 1) with (- (L + 1)) by lia.
    replace (- (L + 1) + 1) with (- L) by lia.
    rewrite !Qpower_opp.
    assert (P2 : forall z, (0 < 2 ^ z)%Q) by (intros; apply Qpow_pos; reflexivity).
    assert (P10 : (0 < 10 ^ x)%Q) by (apply Qpow_pos; reflexivity).
    split.
    + apply Qlt_le_weak.
      exact (proj1 (Qinv_lt_contravar _ _ P10 (P2 (L + 1))) Hup).
    + exact (proj1 (Qinv_lt_contravar _ _ (P2 L) P10) Hlt).
Qed.

Lemma floor_log2_pow10_correct_witness :
  - 2 ^ 31 <= 45 * 1741647 < 2 ^ 31
  /\ floor_log2 (10 ^ 45)%Q (math.floor_log2_pow10 45).
Proof. apply (floor_log2_pow10_correct 45). lia. Defined.

(** * [round_to_odd] is monotone *)

Lemma lor_b2z_le (y : Z) (b : bool) : 0 <= y -> y <= Z.lor y (b2z b) <= y + 1.
Proof.
  intros Hy. destruct b; unfold b2z; [| rewrite Z.lor_0_r; lia].
  rewrite lor_1 by exact Hy.
  pose proof (Z.div_mod y 2 ltac:(lia)). pose proof (Z.mod_pos_bound y 2 ltac:(lia)).
  lia.
Qed.

(** For a 64-bit mantissa, [round_to_odd] is monotone in its 32-bit
    argument: the order of the boundaries survives the multiplication. *)
Theorem round_to_odd_monotone (g cp1 cp2 : Z) :
  0 <= g < 2 ^ 64 -> 0 <= cp1 -> cp1 <= cp2 -> cp2 < 2 ^ 32 ->
  math.round_to_odd 32 g cp1 <= math.round_to_odd 32 g cp2.
Proof.
  intros Hg H1 H12 H2.
  rewrite !round_to_odd_32 by lia.
  assert (Hp : 0 <= g * cp1 <= g * cp2) by nia.
  set (p1 := g * cp1) in *. set (p2 := g * cp2) in *.
  assert (Hq : p1 / 2 ^ 64 <= p2 / 2 ^ 64) by (apply Z.div_le_mono; lia).
  assert (Hq1 : 0 <= p1 / 2 ^ 64) by (apply Z.div_pos; lia).
  pose proof (lor_b2z_le (p1 / 2 ^ 64) (2 ^ 33 <=? p1 mod 2 ^ 64) Hq1) as B1.
  pose proof (lor_b2z_le (p2 / 2 ^ 64) (2 ^ 33 <=? p2 mod 2 ^ 64) ltac:(lia)) as B2.
  destruct (Z.eq_dec (p1 / 2 ^ 64) (p2 / 2 ^ 64)) as [Eq | Hne]; [| lia].
  rewrite <- Eq in *.
  assert (Hm : p1 mod 2 ^ 64 <= p2 mod 2 ^ 64).
  { pose proof (Z.div_mod p1 (2 ^ 64) ltac:(lia)).
    pose proof (Z.div_mod p2 (2 ^ 64) ltac:(lia)). lia. }
  destruct (Z.leb_spec (2 ^ 33) (p1 mod 2 ^ 64)) as [Ha | Ha].
  - replace (2 ^ 33 <=? p2 mod 2 ^ 64) with true by (symmetry; apply Z.leb_le; lia).
    lia.
  - cbn [b2z] in *. rewrite Z.lor_0_r. lia.
Qed.

Lemma round_to_odd_monotone_witness :
  math.round_to_odd 32 0x83126E978D4FDF3C 78125000
  <= math.round_to_odd 32 0x83126E978D4FDF3C 78125001.
Proof. apply round_to_odd_monotone; lia. Defined.

(** * What [to_decimal] needs of the table *)

Lemma to_decimal_returns (F : numeric_limits) (cp10 : Z -> option Z)
    (t : float_triple) (g : Z) :
  cp10 (i32 (- triple.k_of t)) = Some g ->
  exists r, triple.to_decimal F cp10 t = Some r.
Proof.
  intros Hg. rewrite to_decimal_locals, Hg. cbv zeta.
  destruct (_ && _); [eexists; reflexivity |].
  destruct (negb _); eexists; reflexivity.
Qed.

Lemma to_decimal_aborts (F : numeric_limits) (cp10 : Z -> option Z) (t : float_triple) :
  cp10 (i32 (- triple.k_of t)) = None -> triple.to_decimal F cp10 t = None.
Proof. intros Hg. now rewrite to_decimal_locals, Hg. Qed.

(** * The constructor, pattern by pattern *)

Section Patterns.
Variable F : numeric_limits.
Hypothesis Hd : 1 <= digits F <= 113.
Hypothesis He : 1 <= max_exponent F <= 16384.
Hypothesis Hh : float_traits.has_hidden_bit F = true.

Lemma exponent_bits_range : 1 <= exponent_bits F <= 15.
Proof.
  pose proof (layout_exponent_width F He) as [_ H].
  now rewrite (hidden_ew F He) in H.
Qed.

Lemma pattern_fields (bits : Z) :
  0 <= bits < 2 ^ float_traits.storage_width F ->
  bits = sign_field F bits * 2 ^ (digits F - 1 + exponent_bits F)
         + exponent_field F bits * 2 ^ (digits F - 1)
         + trailing_field F bits
  /\ 0 <= sign_field F bits <= 1
  /\ 0 <= exponent_field F bits < 2 ^ exponent_bits F
  /\ 0 <= trailing_field F bits < 2 ^ (digits F - 1).
Proof.
  intros Hb. rewrite (hidden_storage F Hd He Hh) in Hb.
  pose proof exponent_bits_range as Heb.
  unfold sign_field, exponent_field, trailing_field.
  set (m := digits F - 1) in *. set (eb := exponent_bits F) in *.
  pose proof (pow2_pos m ltac:(lia)) as Pm. pose proof (pow2_pos eb ltac:(lia)) as Pe.
  assert (Ps : 2 ^ (m + eb) = 2 ^ m * 2 ^ eb) by (apply pow2_split; lia).
  assert (Pw : 2 ^ (digits F + eb) = 2 * (2 ^ m * 2 ^ eb)).
  { replace (digits F + eb) with (1 + (m + eb)) by (unfold m; lia).
    rewrite pow2_split, Ps by lia. reflexivity. }
  rewrite Ps, <- Z.div_div by lia.
  pose proof (Z.div_mod bits (2 ^ m) ltac:(lia)) as E1.
  pose proof (Z.mod_pos_bound bits (2 ^ m) ltac:(lia)) as B1.
  pose proof (Z.div_mod (bits / 2 ^ m) (2 ^ eb) ltac:(lia)) as E2.
  pose proof (Z.mod_pos_bound (bits / 2 ^ m) (2 ^ eb) ltac:(lia)) as B2.
  set (T := bits mod 2 ^ m) in *. set (q := bits / 2 ^ m) in *.
  set (E := q mod 2 ^ eb) in *. set (s := q / 2 ^ eb) in *.
  assert (Hs : 0 <= s < 2).
  { assert (0 <= q) by (unfold q; apply Z.div_pos; lia).
    split; [unfold s; apply Z.div_pos; lia |].
    assert (q < 2 * 2 ^ eb) by (unfold q; apply Z.div_lt_upper_bound; lia).
    unfold s. apply Z.div_lt_upper_bound; lia. }
  rewrite (Z.mod_small s 2) by lia.
  repeat split; try lia.
Qed.

Lemma make_zero (bits : Z) :
  0 <= bits < 2 ^ float_traits.storage_width F ->
  exponent_field F bits = 0 -> trailing_field F bits = 0 ->
  triple.make F bits
  = {| significand := 0; exponent := 0;
       sign := if sign_field F bits =? 0 then 1 else -1 |}.
Proof.
  intros Hb HE HT. unfold triple.make. cbv zeta.
  rewrite (make_word F Hd He bits Hb), (make_exponent F Hd He Hh bits),
    (make_sign F Hd He Hh bits), (make_trailing F Hd He Hh bits), HE, HT.
  reflexivity.
Qed.

(** The three shapes of the triple the constructor returns. *)
Lemma make_cases (bits : Z) :
  0 <= bits < 2 ^ float_traits.storage_width F ->
  let T := trailing_field F bits in
  let E := exponent_field F bits in
  let s := if sign_field F bits =? 0 then 1 else -1 in
  (E <> 0
   /\ triple.make F bits
      = {| significand := 2 ^ (digits F - 1) + T;
           exponent := E - float_traits.exponent_bias F; sign := s |})
  \/ (E = 0 /\ T <> 0
      /\ triple.make F bits
         = {| significand := T * 2 ^ (digits F - bit_width T);
              exponent := 1 - float_traits.exponent_bias F - (digits F - bit_width T);
              sign := s |}
      /\ 1 <= digits F - bit_width T <= digits F - 1
      /\ 2 ^ (digits F - 1) <= T * 2 ^ (digits F - bit_width T) < 2 ^ digits F)
  \/ (E = 0 /\ T = 0
      /\ triple.make F bits = {| significand := 0; exponent := 0; sign := s |}).
Proof.
  intros Hb T E s.
  destruct (Z.eq_dec E 0) as [HE | HE].
  - destruct (Z.eq_dec T 0) as [HT | HT].
    + right. right. split; [exact HE |]. split; [exact HT |].
      now apply make_zero.
    + right. left. split; [exact HE |]. split; [exact HT |].
      pose proof (make_subnormal F Hd He Hh bits Hb HE HT) as H.
      cbv zeta in H. destruct H as (Em & Hs & Hr).
      split; [exact Em |]. split; [| exact Hr].
      split; [exact Hs |].
      assert (1 <= bit_width T).
      { unfold bit_width. fold T. destruct (Z.eqb_spec T 0); [contradiction |].
        pose proof (Z.log2_nonneg T). lia. }
      fold T. lia.
  - left. split; [exact HE |]. now apply make_normal.
Qed.

Lemma bias_value : float_traits.exponent_bias F = max_exponent F + digits F - 2.
Proof. now rewrite (layout_bias F Hd He), (layout_significand_width F Hd). Qed.
End Patterns.

(** For every pattern of a finite nonzero value the constructor returns a
    normalised significand, with its leading bit in the position of the
    hidden bit, and a binary exponent between that of the smallest subnormal
    value and that of the largest finite one: for single precision, from
    -172 to 104. *)
Theorem constructor_normalises (F : numeric_limits) (bits : Z) :
  1 <= digits F <= 113 ->
  1 <= max_exponent F <= 16384 ->
  float_traits.has_hidden_bit F = true ->
  0 <= bits < 2 ^ float_traits.storage_width F ->
  finite_nonzero F bits ->
  let t := triple.make F bits in
  let bias := float_traits.exponent_bias F in
  2 ^ (digits F - 1) <= significand t < 2 ^ digits F
  /\ 2 - bias - digits F <= exponent t <= 2 ^ exponent_bits F - 2 - bias.
Proof.
  intros Hd He Hh Hb [Hfin Hnz] t bias.
  pose proof (pattern_fields F Hd He Hh bits Hb) as (_ & _ & HE & HT).
  pose proof (exponent_bits_range F He) as Heb.
  assert (P2 : 2 ^ 1 <= 2 ^ exponent_bits F) by (apply pow2_mono; lia).
  change (2 ^ 1) with 2 in P2.
  assert (Pp : 2 ^ digits F = 2 * 2 ^ (digits F - 1)).
  { replace (digits F) with (1 + (digits F - 1)) at 1 by lia.
    rewrite pow2_split by lia. reflexivity. }
  destruct (make_cases F Hd He Hh bits Hb) as [(HE0 & Em) | [(HE0 & HT0 & Em & Hs & Hr) | (HE0 & HT0 & _)]].
  - unfold t. rewrite Em. cbn [significand exponent]. fold bias. lia.
  - unfold t. rewrite Em. cbn [significand exponent]. fold bias. lia.
  - tauto.
Qed.

Lemma constructor_normalises_witness :
  2 ^ 23 <= significand (make32 1) < 2 ^ 24
  /\ 2 - 150 - 24 <= exponent (make32 1) <= 2 ^ 8 - 2 - 150.
Proof.
  destruct float_layout as (H1 & H2 & H3).
  apply (constructor_normalises limits_float 1 H1 H2 H3).
  - vm_compute. split; [discriminate | reflexivity].
  - split; [vm_compute; reflexivity | right; vm_compute; discriminate].
Defined.

(** The constructor loses nothing: two patterns with the same triple are
    the same pattern. *)
Theorem constructor_injective (F : numeric_limits) (b1 b2 : Z) :
  1 <= digits F <= 113 ->
  1 <= max_exponent F <= 16384 ->
  float_traits.has_hidden_bit F = true ->
  0 <= b1 < 2 ^ float_traits.storage_width F ->
  0 <= b2 < 2 ^ float_traits.storage_width F ->
  triple.make F b1 = triple.make F b2 ->
  b1 = b2.
Proof.
  intros Hd He Hh H1 H2 E.
  pose proof (pattern_fields F Hd He Hh b1 H1) as (D1 & S1 & E1 & T1).
  pose proof (pattern_fields F Hd He Hh b2 H2) as (D2 & S2 & E2 & T2).
  pose proof (pow2_pos (digits F - 1) ltac:(lia)) as Pm.
  assert (Hsig : significand (triple.make F b1) = significand (triple.make F b2))
    by now rewrite E.
  assert (Hexp : exponent (triple.make F b1) = exponent (triple.make F b2))
    by now rewrite E.
  assert (Hsgn : sign (triple.make F b1) = sign (triple.make F b2))
    by now rewrite E.
  clear E.
  assert (Hfields : exponent_field F b1 = exponent_field F b2
                    /\ trailing_field F b1 = trailing_field F b2
                    /\ (if sign_field F b1 =? 0 then 1 else -1)
                       = (if sign_field F b2 =? 0 then 1 else -1)).
  { destruct (make_cases F Hd He Hh b1 H1)
      as [(N1 & M1) | [(Z1 & N1 & M1 & Sh1 & R1) | (Z1 & N1 & M1)]];
      destruct (make_cases F Hd He Hh b2 H2)
        as [(N2 & M2) | [(Z2 & N2 & M2 & Sh2 & R2) | (Z2 & N2 & M2)]];
      rewrite M1, M2 in Hsig, Hexp, Hsgn; cbn [significand exponent sign] in *;
      try lia.
    assert (Esh : digits F - bit_width (trailing_field F b1)
                  = digits F - bit_width (trailing_field F b2)) by lia.
    rewrite Esh in Hsig.
    pose proof (pow2_pos (digits F - bit_width (trailing_field F b2)) ltac:(lia)).
    split; [lia |]. split; [nia | exact Hsgn]. }
  destruct Hfields as (EE & ET & ES).
  assert (ESf : sign_field F b1 = sign_field F b2).
  { destruct (Z.eqb_spec (sign_field F b1) 0); destruct (Z.eqb_spec (sign_field F b2) 0); lia. }
  rewrite D1, D2, EE, ET, ESf. reflexivity.
Qed.

Lemma constructor_injective_witness : 0x3f800000 = 0x3f800000.
Proof.
  destruct float_layout as (H1 & H2 & H3).
  apply (constructor_injective limits_float _ _ H1 H2 H3).
  - vm_compute. split; [discriminate | reflexivity].
  - vm_compute. split; [discriminate | reflexivity].
  - reflexivity.
Defined.

(** * The sign *)

Lemma locals_with_sign (F : numeric_limits) (s : Z) (t : float_triple) (g : Z) :
  triple.k_of (with_sign s t) = triple.k_of t
  /\ triple.candidate F (with_sign s t) g = triple.candidate F t g
  /\ triple.vb F (with_sign s t) g = triple.vb F t g
  /\ triple.up_inside F (with_sign s t) g = triple.up_inside F t g
  /\ triple.wp_inside F (with_sign s t) g = triple.wp_inside F t g
  /\ triple.u_inside F (with_sign s t) g = triple.u_inside F t g
  /\ triple.w_inside F (with_sign s t) g = triple.w_inside F t g.
Proof.
  unfold triple.up_inside, triple.wp_inside, triple.u_inside, triple.w_inside,
    triple.candidate, triple.lower, triple.upper, triple.vbl, triple.vb, triple.vbr,
    triple.cbl, triple.cb, triple.cbr, triple.h_of, triple.k_of, triple.is_even,
    triple.lower_boundary_is_closer, with_sign.
  cbn [significand exponent sign].
  repeat split; reflexivity.
Qed.

Lemma option_map_with_sign (s a b c : Z) :
  option_map (with_sign s) (Some {| significand := a; exponent := b; sign := c |})
  = Some {| significand := a; exponent := b; sign := s |}.
Proof. reflexivity. Qed.

Lemma to_decimal_with_sign (F : numeric_limits) (cp10 : Z -> option Z)
    (s : Z) (t : float_triple) :
  triple.to_decimal F cp10 (with_sign s t)
  = option_map (with_sign s) (triple.to_decimal F cp10 t).
Proof.
  rewrite !to_decimal_locals.
  destruct (locals_with_sign F s t 0) as (Ek & _). rewrite Ek.
  destruct (cp10 (i32 (- triple.k_of t))) as [g |]; [| reflexivity].
  destruct (locals_with_sign F s t g) as (_ & Ec & Eb & E1 & E2 & E3 & E4).
  cbv zeta. rewrite Ec, Eb, E1, E2, E3, E4.
  change (sign (with_sign s t)) with s.
  destruct (_ && _); [now rewrite option_map_with_sign |].
  destruct (negb _); now rewrite option_map_with_sign.
Qed.

Lemma sign_bit_fields (F : numeric_limits) (bits : Z) :
  1 <= digits F <= 113 -> 1 <= max_exponent F <= 16384 ->
  0 <= bits < 2 ^ (digits F - 1 + exponent_bits F) ->
  let top := 2 ^ (digits F - 1 + exponent_bits F) in
  trailing_field F (bits + top) = trailing_field F bits
  /\ exponent_field F (bits + top) = exponent_field F bits
  /\ sign_field F bits = 0 /\ sign_field F (bits + top) = 1.
Proof.
  intros Hd He Hb top.
  pose proof (exponent_bits_range F He) as Heb.
  set (m := digits F - 1) in *. set (eb := exponent_bits F) in *.
  pose proof (pow2_pos m ltac:(lia)) as Pm. pose proof (pow2_pos eb ltac:(lia)) as Pe.
  assert (Ps : top = 2 ^ eb * 2 ^ m) by (unfold top; rewrite pow2_split by lia; ring).
  unfold trailing_field, exponent_field, sign_field. fold m eb top.
  repeat split.
  - rewrite Ps, Z.mod_add by lia. reflexivity.
  - rewrite Ps, Z.div_add by lia. rewrite <- (Z.mul_1_l (2 ^ eb)) at 1.
    rewrite Z.mod_add by lia. reflexivity.
  - rewrite Z.div_small by (fold top in Hb; lia). reflexivity.
  - rewrite <- (Z.mul_1_l top) at 1. rewrite Z.div_add by (unfold top; lia).
    rewrite Z.div_small by lia. reflexivity.
Qed.

(** Setting the sign bit of a pattern changes the sign of the triple and
    nothing else, and [to_decimal] carries the sign through: the decimal of
    [- f] is that of [f] with the sign -1 for +1, and the conversion of one
    aborts exactly when that of the other does. *)
Theorem negation_symmetry (F : numeric_limits) (cp10 : Z -> option Z) (bits : Z) :
  1 <= digits F <= 113 ->
  1 <= max_exponent F <= 16384 ->
  float_traits.has_hidden_bit F = true ->
  0 <= bits < 2 ^ (float_traits.storage_width F - 1) ->
  let top := 2 ^ (float_traits.storage_width F - 1) in
  sign (triple.make F bits) = 1
  /\ triple.make F (bits + top) = with_sign (-1) (triple.make F bits)
  /\ triple.to_decimal F cp10 (triple.make F (bits + top))
     = option_map (with_sign (-1)) (triple.to_decimal F cp10 (triple.make F bits)).
Proof.
  intros Hd He Hh Hb top.
  pose proof (exponent_bits_range F He) as Heb.
  pose proof (hidden_storage F Hd He Hh) as Es.
  assert (Et : float_traits.storage_width F - 1 = digits F - 1 + exponent_bits F) by lia.
  unfold top. rewrite Et in *. clear top.
  set (top := 2 ^ (digits F - 1 + exponent_bits F)) in *.
  assert (Pw : 2 ^ float_traits.storage_width F = 2 * top).
  { rewrite Es. replace (digits F + exponent_bits F)
      with (1 + (digits F - 1 + exponent_bits F)) by lia.
    rewrite pow2_split by lia. reflexivity. }
  destruct (sign_bit_fields F bits Hd He Hb) as (ET & EE & S0 & S1). fold top in ET, EE, S1.
  assert (H0 : 0 <= bits < 2 ^ float_traits.storage_width F) by lia.
  assert (H1 : 0 <= bits + top < 2 ^ float_traits.storage_width F) by lia.
  assert (Em : triple.make F (bits + top) = with_sign (-1) (triple.make F bits)
               /\ sign (triple.make F bits) = 1).
  { destruct (make_cases F Hd He Hh bits H0)
      as [(N0 & M0) | [(Z0 & N0 & M0 & _) | (Z0 & N0 & M0)]];
      destruct (make_cases F Hd He Hh (bits + top) H1)
        as [(N1 & M1) | [(Z1 & N1 & M1 & _) | (Z1 & N1 & M1)]];
      rewrite ?ET, ?EE in *; try contradiction;
      rewrite M0, M1, S0, S1; split; reflexivity. }
  destruct Em as [Em Esg].
  split; [exact Esg |]. split; [exact Em |].
  rewrite Em. apply to_decimal_with_sign.
Qed.

Lemma negation_symmetry_witness :
  sign (make32 0x3f800000) = 1
  /\ make32 (0x3f800000 + 2 ^ 31) = with_sign (-1) (make32 0x3f800000)
  /\ to_decimal32 (make32 (0x3f800000 + 2 ^ 31))
     = option_map (with_sign (-1)) (to_decimal32 (make32 0x3f800000)).
Proof.
  destruct float_layout as (H1 & H2 & H3).
  apply (negation_symmetry limits_float math.compute_pow10 0x3f800000 H1 H2 H3).
  vm_compute. split; [discriminate | reflexivity].
Defined.

(** * When the conversion aborts *)

Lemma top_exponent_index (closer : bool) :
  math.compute_pow10 (i32 (- triple.k_estimate 105 closer)) <> None.
Proof. destruct closer; vm_compute; discriminate. Qed.

Lemma to_decimal32_top (c s : Z) :
  to_decimal32 {| significand := c; exponent := 105; sign := s |} <> None.
Proof.
  set (t := {| significand := c; exponent := 105; sign := s |}).
  destruct (math.compute_pow10 (i32 (- triple.k_of t))) as [g |] eqn:Hg.
  - destruct (to_decimal_returns limits_float math.compute_pow10 t g Hg) as [r Hr].
    unfold to_decimal32. rewrite Hr. discriminate.
  - exfalso. exact (top_exponent_index _ Hg).
Qed.

Lemma to_decimal32_zero (s : Z) :
  to_decimal32 {| significand := 0; exponent := 0; sign := s |}
  = Some {| significand := 0; exponent := 0; sign := s |}.
Proof. vm_compute. reflexivity. Qed.

Lemma make32_zero (bits : Z) :
  0 <= bits < 2 ^ 32 ->
  exponent_field limits_float bits = 0 -> trailing_field limits_float bits = 0 ->
  make32 bits
  = {| significand := 0; exponent := 0;
       sign := if sign_field limits_float bits =? 0 then 1 else -1 |}.
Proof.
  intros Hb HE HT. destruct float_layout as (H1 & H2 & H3).
  exact (make_zero limits_float H1 H2 H3 bits Hb HE HT).
Qed.

(** For single precision the conversion aborts on the subnormal values and
    on nothing else: zeros, normal values, infinities and NaNs all get a
    decimal. *)
Theorem conversion_aborts_iff_subnormal (bits : Z) :
  0 <= bits < 2 ^ 32 ->
  (to_decimal32 (make32 bits) = None
   <-> exponent_field limits_float bits = 0 /\ trailing_field limits_float bits <> 0).
Proof.
  intros Hb.
  pose proof (fields32_ranges bits) as [HT HE].
  split.
  - intros Hnone.
    destruct (Z.eq_dec (exponent_field limits_float bits) 0) as [E0 | E0].
    + split; [exact E0 |]. intros T0. revert Hnone.
      rewrite (make32_zero bits Hb E0 T0), to_decimal32_zero. discriminate.
    + exfalso. revert Hnone. rewrite (make32_normal bits Hb E0).
      destruct (Z.eq_dec (exponent_field limits_float bits) 255) as [E255 | NE].
      * rewrite E255. apply to_decimal32_top.
      * destruct (to_decimal32_normal (2 ^ 23 + trailing_field limits_float bits)
                    (exponent_field limits_float bits - 150)
                    (if sign_field limits_float bits =? 0 then 1 else -1))
          as (r & Hr & _); [lia | lia |].
        rewrite Hr. discriminate.
  - intros [HE0 HT0].
    destruct (make32_subnormal bits Hb HE0 HT0) as (c & e & Em & _ & He).
    rewrite Em. apply to_decimal_aborts. unfold triple.k_of. cbn [exponent].
    now apply subnormal_index.
Qed.

Lemma conversion_aborts_iff_subnormal_witness :
  to_decimal32 (make32 0x007fffff) = None
  <-> exponent_field limits_float 0x007fffff = 0
      /\ trailing_field limits_float 0x007fffff <> 0.
Proof. apply (conversion_aborts_iff_subnormal 0x007fffff). lia. Defined.

(** The two zeros convert to the significand 0 and the exponent 0, with
    their sign. *)
Theorem zero_converts_to_zero (bits : Z) :
  0 <= bits < 2 ^ 32 ->
  exponent_field limits_float bits = 0 ->
  trailing_field limits_float bits = 0 ->
  to_decimal32 (make32 bits)
  = Some {| significand := 0; exponent := 0;
            sign := if sign_field limits_float bits =? 0 then 1 else -1 |}.
Proof.
  intros Hb HE HT. rewrite (make32_zero bits Hb HE HT). apply to_decimal32_zero.
Qed.

Lemma zero_converts_to_zero_witness :
  to_decimal32 (make32 0x80000000)
  = Some {| significand := 0; exponent := 0;
            sign := if sign_field limits_float 0x80000000 =? 0 then 1 else -1 |}.
Proof.
  apply (zero_converts_to_zero 0x80000000); [lia | reflexivity | reflexivity].
Defined.

(** * The lower boundary *)

Lemma popcount_double (x : Z) : 0 < x -> popcount (2 * x) = popcount x.
Proof. destruct x; try lia. reflexivity. Qed.

Lemma popcount_pow2 (n : Z) : 0 <= n -> popcount (2 ^ n) = 1.
Proof.
  intros Hn. revert n Hn. apply (natlike_ind (fun n => popcount (2 ^ n) = 1)).
  - reflexivity.
  - intros x Hx IH. rewrite Z.pow_succ_r by lia.
    assert (Hp : 0 < 2 ^ x) by (apply Z.pow_pos_nonneg; lia).
    now rewrite popcount_double.
Qed.

(** For a normalised significand of [p] bits, [lower_boundary_is_closer]
    holds exactly when the significand is [2 ^ (p - 1)], whatever the
    exponent: also for the smallest normal value, whose lower neighbour is
    as far as the upper one. *)
Theorem closer_iff_power_of_two (p : Z) (t : float_triple) :
  1 <= p ->
  2 ^ (p - 1) <= significand t < 2 ^ p ->
  (triple.lower_boundary_is_closer t = true <-> significand t = 2 ^ (p - 1)).
Proof.
  intros Hp Hs. unfold triple.lower_boundary_is_closer. rewrite Z.eqb_eq. split.
  - intros H. apply popcount_one in H.
    assert (Z.log2 (significand t) = p - 1).
    { apply Z.log2_unique; [lia |]. now replace (Z.succ (p - 1)) with p by lia. }
    congruence.
  - intros ->. apply popcount_pow2. lia.
Qed.

Lemma closer_iff_power_of_two_witness :
  triple.lower_boundary_is_closer (make32 0x00800000) = true
  <-> significand (make32 0x00800000) = 2 ^ (24 - 1).
Proof.
  apply (closer_iff_power_of_two 24); [lia |].
  vm_compute. split; [discriminate | reflexivity].
Defined.

(** * The size of the result *)

(** The scale [2 ^ e * 10 ^ - k] of the estimate is between 1 and 40 / 3. *)
Lemma ratio_bounds (e : Z) (closer : bool) :
  -1500 <= e <= 1500 ->
  let k := triple.k_estimate e closer in
  ratio_den e k <= ratio_num e k /\ 3 * ratio_num e k < 40 * ratio_den e k.
Proof.
  intros He k.
  destruct (estimate_facts e closer He) as (_ & _ & _ & _ & [Hlo Hhi] & _).
  fold k in Hlo, Hhi. unfold estimated in Hlo, Hhi.
  pose proof (ratio_spec e k) as Es.
  pose proof (ratio_den_pos e k) as HB. apply inject_Z_pos in HB.
  set (A := ratio_num e k) in *. set (B := ratio_den e k) in *.
  assert (P2 : (0 < 2 ^ e)%Q) by (apply Qpow_pos; reflexivity).
  assert (P10 : (0 < 10 ^ k)%Q) by (apply Qpow_pos; reflexivity).
  assert (N10 : (0 < 10 ^ (- k))%Q) by (apply Qpow_pos; reflexivity).
  assert (E1 : (10 ^ k * 10 ^ (- k) == 1)%Q).
  { rewrite <- Qpow_split by reflexivity. now replace (k + - k) with 0 by lia. }
  assert (E10 : (10 ^ (k + 1) == 10 * 10 ^ k)%Q).
  { rewrite Qpow_split by reflexivity. change (10 ^ 1)%Q with 10%Q. ring. }
  rewrite E10 in Hhi.
  set (x := (2 ^ e)%Q) in *. set (y := (10 ^ k)%Q) in *.
  set (y' := (10 ^ (- k))%Q) in *.
  set (a := inject_Z A) in *. set (b := inject_Z B) in *.
  assert (Hq : (3 # 4 <= (if closer then 3 # 4 else 1))%Q /\ ((if closer then 3 # 4 else 1) <= 1)%Q).
  { destruct closer; split; lra. }
  set (q := (if closer then 3 # 4 else 1)%Q) in *. destruct Hq as [Hq1 Hq2].
  assert (R1 : (1 <= x * y')%Q) by nra.
  assert (R2 : (3 * (x * y') < 40)%Q) by nra.
  split.
  - rewrite Zle_Qle. fold a b. rewrite Es. nra.
  - rewrite Zlt_Qlt, !inject_Z_mult. fold a b.
    change (inject_Z 3) with 3%Q. change (inject_Z 40) with 40%Q. rewrite Es. nra.
Qed.

Lemma estimate_range (e : Z) (closer : bool) :
  -149 <= e <= 104 -> -45 <= triple.k_estimate e closer <= 31.
Proof.
  intros He.
  destruct (estimate_facts e closer ltac:(lia)) as (Ek & _).
  cbv zeta in Ek. rewrite Ek, Z.shiftr_div_pow2 by lia.
  split.
  - apply Z.div_le_lower_bound; [lia |]. destruct closer; lia.
  - assert (H : (e * 1262611 - (if closer then 524031 else 0)) / 2 ^ 22 < 32);
      [| lia].
    apply Z.div_lt_upper_bound; [lia |]. destruct closer; lia.
Qed.

Lemma post_range (c e : Z) (r : float_triple) :
  2 ^ 23 <= c < 2 ^ 24 -> -149 <= e <= 104 -> post c e r ->
  838861 <= significand r < 10 ^ 9 /\ -45 <= exponent r <= 32.
Proof.
  intros Hc He (Hj & Hin & _).
  pose proof (estimate_range e (popcount c =? 1) He) as Hk.
  destruct (ratio_bounds e (popcount c =? 1) ltac:(lia)) as [HBA HAB].
  pose proof (ratio_den_pos e (triple.k_estimate e (popcount c =? 1))) as HB.
  set (k := triple.k_estimate e (popcount c =? 1)) in *.
  set (A := ratio_num e k) in *. set (B := ratio_den e k) in *.
  set (m := significand r) in *. set (j := exponent r) in *.
  assert (Htc : 4 * c - 2 <= true_cbl c e).
  { unfold true_cbl. destruct (_ && _); simpl; lia. }
  assert (Hz : forall z, in_interval c e k z = true -> c <= z < 10 ^ 9).
  { intros z H. unfold in_interval, inside, low_ok, up_ok in H. fold A B in H.
    apply andb_prop in H as [Hl Hu].
    assert (Hl' : true_cbl c e * A <= 4 * z * B)
      by (destruct (Z.even c); [apply Z.leb_le in Hl | apply Z.ltb_lt in Hl]; lia).
    assert (Hu' : 4 * z * B <= (4 * c + 2) * A)
      by (destruct (Z.even c); [apply Z.leb_le in Hu | apply Z.ltb_lt in Hu]; lia).
    assert (HA : 0 < A) by lia.
    assert (L1 : (4 * c - 2) * B <= (4 * c - 2) * A)
      by (apply Z.mul_le_mono_nonneg_l; lia).
    assert (L2 : (4 * c - 2) * A <= true_cbl c e * A)
      by (apply Z.mul_le_mono_nonneg_r; lia).
    assert (L3 : 0 <= (4 * z - 4 * c + 2) * B) by lia.
    assert (L4 : 0 <= 4 * z - 4 * c + 2).
    { destruct (Z.le_gt_cases 0 (4 * z - 4 * c + 2)) as [G | G]; [exact G |].
      assert ((4 * z - 4 * c + 2) * B < 0) by (apply Z.mul_neg_pos; lia). lia. }
    assert (U1 : (4 * c + 2) * (3 * A) < (4 * c + 2) * (40 * B))
      by (apply Z.mul_lt_mono_pos_l; lia).
    assert (U2 : 0 < (40 * (4 * c + 2) - 12 * z) * B) by lia.
    assert (U3 : 0 < 40 * (4 * c + 2) - 12 * z).
    { destruct (Z.lt_ge_cases 0 (40 * (4 * c + 2) - 12 * z)) as [G | G]; [exact G |].
      assert ((40 * (4 * c + 2) - 12 * z) * B <= 0) by (apply Z.mul_nonpos_nonneg; lia).
      lia. }
    lia. }
  apply Hz in Hin.
  destruct Hj as [Ej | Ej]; rewrite Ej in Hin |- *.
  - rewrite Z.sub_diag in Hin. change (10 ^ 0) with 1 in Hin. lia.
  - replace (k + 1 - k) with 1 in Hin by lia. change (10 ^ 1) with 10 in Hin. lia.
Qed.

(** For every normal single precision value the decimal significand that
    [to_decimal] returns is between 838861 and [10 ^ 9]: it has 6 to 9
    digits, trailing zeros counted.  The decimal exponent is between -45
    and 32. *)
Theorem decimal_size (bits : Z) :
  0 <= bits < 2 ^ 32 ->
  0 < exponent_field limits_float bits < 255 ->
  exists r,
    to_decimal32 (make32 bits) = Some r
    /\ 838861 <= significand r < 10 ^ 9
    /\ 6 <= ndigits (significand r) <= 9
    /\ -45 <= exponent r <= 32.
Proof.
  intros Hb HE.
  pose proof (fields32_ranges bits) as [HT _].
  rewrite make32_normal by lia.
  destruct (to_decimal32_normal (2 ^ 23 + trailing_field limits_float bits)
              (exponent_field limits_float bits - 150)
              (if sign_field limits_float bits =? 0 then 1 else -1))
    as (r & Er & Hpost & _); [lia | lia |].
  apply post_range in Hpost; [| lia | lia]. destruct Hpost as [Hm Hj].
  exists r. split; [exact Er |]. split; [exact Hm |]. split; [| exact Hj].
  destruct (ndigits_spec (significand r) ltac:(lia)) as (N1 & N2 & N3).
  split.
  - destruct (Z.le_gt_cases 6 (ndigits (significand r))) as [H | H]; [exact H |].
    assert (10 ^ ndigits (significand r) <= 10 ^ 5) by (apply Z.pow_le_mono_r; lia).
    change (10 ^ 5) with 100000 in *. lia.
  - destruct (Z.le_gt_cases (ndigits (significand r)) 9) as [H | H]; [exact H |].
    assert (10 ^ 9 <= 10 ^ (ndigits (significand r) - 1)) by (apply Z.pow_le_mono_r; lia).
    lia.
Qed.

Lemma decimal_size_witness :
  exists r,
    to_decimal32 (make32 0x3f800000) = Some r
    /\ 838861 <= significand r < 10 ^ 9
    /\ 6 <= ndigits (significand r) <= 9
    /\ -45 <= exponent r <= 32.
Proof.
  apply (decimal_size 0x3f800000); [lia |]. vm_compute. split; reflexivity.
Defined.

(** * The nearest decimal *)

Lemma scale_le (a b B : Z) : 0 < B -> a <= b -> 4 * a * B <= 4 * b * B.
Proof. intros. nia. Qed.

Lemma mul_lt_cancel (a b B : Z) : 0 < B -> a * B < b * B -> a < b.
Proof. intros HB H. now apply Z.mul_lt_mono_pos_r in H. Qed.

Section Nearest.
Variables c A B : Z.
Hypothesis Hc : 2 ^ 23 <= c < 2 ^ 24.
Hypothesis HB : 0 < B.
Hypothesis HAB : B <= A < 10 * B.

Variable ev : bool.
Let Xl := (4 * c - 2) * A.
Let X := 4 * c * A.
Let Xr := (4 * c + 2) * A.
Let vbl := exact_round_to_odd Xl B.
Let vb := exact_round_to_odd X B.
Let vbr := exact_round_to_odd Xr B.
Let s := vb / 4.

Lemma midpoint_cases :
  ((4 * s + 2 <? vb) = true <-> (4 * s + 2) * B < X)
  /\ ((vb =? 4 * s + 2) = true <-> X = (4 * s + 2) * B).
Proof.
  assert (HX : 0 <= X) by (unfold X; nia).
  assert (Hev : Z.even (4 * s + 2) = true).
  { replace (4 * s + 2) with (2 * (2 * s + 1)) by ring. now rewrite Z.even_mul. }
  pose proof (rto_le_even X B HB HX (4 * s + 2) Hev) as H1.
  pose proof (rto_ge_even X B HB HX (4 * s + 2) Hev) as H2.
  fold vb in H1, H2. rewrite Z.ltb_lt, Z.eqb_eq. split; split; intros; lia.
Qed.

Lemma choose_nearest :
  let m := fst (choose ev vbl vb vbr) in
  let trimmed := snd (choose ev vbl vb vbr) in
  let U := if trimmed then 10 else 1 in
  forall z, inside ev Xl Xr B (z * U) = true -> z <> m ->
    Z.abs (4 * (m * U) * B - X) < Z.abs (4 * (z * U) * B - X)
    \/ (Z.abs (4 * (m * U) * B - X) = Z.abs (4 * (z * U) * B - X)
        /\ Z.even m = true).
Proof.
  destruct (decide_candidate c A B Hc HB HAB) as (Es & HsX & Hsc).
  change (s = X / (4 * B)) in Es.
  change (4 * s * B <= X < 4 * s * B + 4 * B) in HsX.
  change (c <= s < 10 * c) in Hsc.
  destruct midpoint_cases as [Hgt Heq].
  unfold vbl, vb, vbr, Xl, X, Xr.
  rewrite (choose_decided c A B Hc HB HAB ev). cbv zeta.
  fold Xl X Xr vbl vb vbr. fold s.
  set (sp := s / 10).
  assert (Hsp : 10 * sp <= s < 10 * sp + 10).
  { unfold sp. pose proof (Z.div_mod s 10 ltac:(lia)).
    pose proof (Z.mod_pos_bound s 10 ltac:(lia)). lia. }
  assert (P1 : 4 * (10 * sp) * B <= 4 * s * B) by nia.
  assert (P2 : 4 * s * B + 4 * B <= 4 * (10 * sp + 10) * B) by nia.
  assert (P3 : 4 * (s + 1) * B = 4 * s * B + 4 * B) by ring.
  assert (El : Xl = X - 2 * A) by (unfold Xl, X; ring).
  assert (Er : Xr = X + 2 * A) by (unfold Xr, X; ring).
  assert (EX : X = 4 * c * A) by reflexivity.
  clearbody Xl Xr X vbl vb vbr.
  destruct (low_ok ev Xl B (10 * sp)) eqn:Eup;
    destruct (up_ok ev Xr B (10 * sp + 10)) eqn:Ewp; cbn [Bool.eqb negb fst snd b2z].
  - exfalso. destruct ev; to_props; lia.
  - (* 10 sp is the only multiple of 10 inside *)
    rewrite Z.add_0_r. intros z Hz Hne. exfalso.
    assert (Hup : 40 * z * B < 40 * (sp + 1) * B) by (destruct ev; to_props; lia).
    assert (Hlo : (40 * sp - 20) * B < 40 * z * B) by (destruct ev; to_props; lia).
    apply mul_lt_cancel in Hup, Hlo; [| exact HB | exact HB].
    assert (Hout : inside ev Xl Xr B (10 * sp + 10) = true -> False).
    { unfold inside. rewrite Ewp, andb_false_r. discriminate. }
    lia.
  - intros z Hz Hne. exfalso.
    assert (Hlo : 40 * sp * B < 40 * z * B) by (destruct ev; to_props; lia).
    assert (Hup : 40 * z * B < (40 * (sp + 1) + 20) * B) by (destruct ev; to_props; lia).
    apply mul_lt_cancel in Hup, Hlo; [| exact HB | exact HB].
    lia.
  - destruct (low_ok ev Xl B s) eqn:Eu; destruct (up_ok ev Xr B (s + 1)) eqn:Ew;
      cbn [Bool.eqb negb fst snd b2z]; intros z Hz Hne; rewrite !Z.mul_1_r in *.
    + (* both inside: the nearer one *)
      destruct ((4 * s + 2 <? vb) || (vb =? 4 * s + 2) && negb (Z.land s 1 =? 0)) eqn:Eup2;
        cbn [b2z] in *.
      * (* s + 1 *)
        assert (Hcase : (4 * s + 2) * B < X \/ (X = (4 * s + 2) * B /\ Z.odd s = true)).
        { apply orb_prop in Eup2 as [G | G]; [left; now apply Hgt |].
          apply andb_prop in G as [G1 G2]. right. split; [now apply Heq |].
          rewrite land_1, negb_involutive in G2. exact G2. }
        assert (Hev : Z.odd s = true -> Z.even (s + 1) = true).
        { intros Ho. rewrite Z.even_add, <- Z.negb_odd, Ho. reflexivity. }
        destruct (Z.lt_total z (s + 1)) as [Hlt | [Heq' | Hgt']]; [| contradiction |].
        -- pose proof (scale_le z s B HB ltac:(lia)).
           destruct Hcase as [Hc1 | [Hc1 Hc2]]; [left; lia |].
           destruct (Z.eq_dec z s) as [-> | Hzs]; [right; split; [lia | now apply Hev] |].
           left. pose proof (scale_le z (s - 1) B HB ltac:(lia)). lia.
        -- left. pose proof (scale_le (s + 2) z B HB ltac:(lia)). lia.
      * (* s *)
        rewrite Z.add_0_r in *.
        assert (Hcase : X < (4 * s + 2) * B \/ (X = (4 * s + 2) * B /\ Z.even s = true)).
        { apply orb_false_elim in Eup2 as [G1 G2].
          assert (N1 : ~ (4 * s + 2) * B < X)
            by (intros G; apply Hgt in G; congruence).
          destruct (Z.eq_dec X ((4 * s + 2) * B)) as [E | NE]; [| left; lia].
          right. split; [exact E |].
          apply Heq in E. rewrite E in G2. cbn [andb] in G2.
          rewrite land_1, negb_involutive in G2. now rewrite <- Z.negb_odd, G2. }
        destruct (Z.lt_total z s) as [Hlt | [Heq' | Hgt']]; [| contradiction |].
        -- left. pose proof (scale_le z (s - 1) B HB ltac:(lia)). lia.
        -- pose proof (scale_le (s + 1) z B HB ltac:(lia)).
           destruct Hcase as [Hc1 | [Hc1 Hc2]]; [left; lia |].
           destruct (Z.eq_dec z (s + 1)) as [-> | Hzs]; [right; split; [lia | exact Hc2] |].
           left. pose proof (scale_le (s + 2) z B HB ltac:(lia)). lia.
    + (* s inside, s + 1 outside *)
      rewrite Z.add_0_r in *.
      destruct (Z.lt_total z s) as [Hlt | [Heq' | Hgt']]; [| contradiction |].
      * left. pose proof (scale_le z (s - 1) B HB ltac:(lia)). lia.
      * exfalso.
        assert (Hin1 : inside ev Xl Xr B (s + 1) = true).
        { apply (inside_convex ev Xl Xr B s (s + 1) z HB); [lia | | exact Hz].
          unfold inside. rewrite Eu. destruct ev; to_props; lia. }
        unfold inside in Hin1. rewrite Ew, andb_false_r in Hin1. discriminate.
    + (* s outside, s + 1 inside *)
      destruct (Z.lt_total z (s + 1)) as [Hlt | [Heq' | Hgt']]; [| contradiction |].
      * exfalso.
        assert (Hin1 : inside ev Xl Xr B s = true).
        { apply (inside_convex ev Xl Xr B z s (s + 1) HB); [lia | exact Hz |].
          unfold inside. rewrite Ew, andb_true_r. destruct ev; to_props; lia. }
        unfold inside in Hin1. rewrite Eu in Hin1. discriminate.
      * left. pose proof (scale_le (s + 2) z B HB ltac:(lia)). lia.
    + exfalso. destruct ev; to_props; [lia |].
      assert (A = B) by lia. subst A.
      assert (4 * c - 2 = 4 * s) by nia. lia.
Qed.
End Nearest.

(** The conversion of a normal value whose significand is not a power of
    two, through [choose] on the exact quotients. *)
Lemma to_decimal32_exact (c e sgn : Z) :
  2 ^ 23 < c < 2 ^ 24 -> -149 <= e <= 104 ->
  let k := triple.k_estimate e false in
  let A := ratio_num e k in
  let B := ratio_den e k in
  let ch := choose (Z.even c) (exact_round_to_odd ((4 * c - 2) * A) B)
                   (exact_round_to_odd (4 * c * A) B)
                   (exact_round_to_odd ((4 * c + 2) * A) B) in
  to_decimal32 {| significand := c; exponent := e; sign := sgn |}
  = Some {| significand := fst ch;
            exponent := if snd ch then k + 1 else k;
            sign := sgn |}
  /\ 0 < B /\ B <= A < 10 * B.
Proof.
  intros Hc He k A B ch.
  set (t := {| significand := c; exponent := e; sign := sgn |}).
  pose proof (not_closer c Hc) as Hlbc.
  assert (Hlbc' : triple.lower_boundary_is_closer t = false) by exact Hlbc.
  destruct (exponent_facts e He) as (g & Hg & Hh & HAB & Hexact).
  fold k in Hg, HAB, Hexact. fold A B in HAB, Hexact.
  set (h := triple.h_shift e false) in *.
  assert (HB : 0 < B) by apply ratio_den_pos.
  assert (Ek : triple.k_of t = k) by (unfold triple.k_of; rewrite Hlbc'; reflexivity).
  assert (Eh : triple.h_of t = h) by (unfold triple.h_of; rewrite Hlbc'; reflexivity).
  destruct (estimate_facts e false ltac:(lia)) as (_ & Hk & _).
  fold k in Hk.
  assert (Hs : 2 ^ 23 <= significand t < 2 ^ 24) by (simpl; lia).
  assert (Hh' : 1 <= triple.h_of t <= 4) by (rewrite Eh; exact Hh).
  destruct (boundary_shifts t Hs Hh') as (_ & _ & _ & Sl & Sb & Sr).
  rewrite Hlbc', Eh in Sl. rewrite Eh in Sb, Sr.
  change (significand t) with c in Sl, Sb, Sr. cbn [b2z] in Sl.
  assert (Vl : triple.vbl limits_float t g = exact_round_to_odd ((4 * c - 2) * A) B).
  { unfold triple.vbl. rewrite uint_t_float_fun, uint_bits_float, Eh, Sl.
    replace ((4 * c - 2 + 0) * 2 ^ h) with (2 * (2 * c - 1) * 2 ^ h) by ring.
    rewrite Hexact by (unfold n_min, n_max; lia). f_equal. ring. }
  assert (Vb : triple.vb limits_float t g = exact_round_to_odd (4 * c * A) B).
  { unfold triple.vb. rewrite uint_t_float_fun, uint_bits_float, Eh, Sb.
    replace (4 * c * 2 ^ h) with (2 * (2 * c) * 2 ^ h) by ring.
    rewrite Hexact by (unfold n_min, n_max; lia). f_equal. ring. }
  assert (Vr : triple.vbr limits_float t g = exact_round_to_odd ((4 * c + 2) * A) B).
  { unfold triple.vbr. rewrite uint_t_float_fun, uint_bits_float, Eh, Sr.
    replace ((4 * c + 2) * 2 ^ h) with (2 * (2 * c + 1) * 2 ^ h) by ring.
    rewrite Hexact by (unfold n_min, n_max; lia). f_equal. ring. }
  rewrite <- Ek in Hg.
  pose proof (to_decimal32_choose t g Hg) as Hres.
  rewrite Vl, Vb, Vr, Ek in Hres. rewrite is_even_even in Hres.
  cbn [significand sign] in Hres. fold ch in Hres.
  rewrite (i32_small (k + 1)) in Hres by lia.
  split; [exact Hres |]. split; [exact HB | exact HAB].
Qed.

Lemma to_decimal32_general_nearest (c e sgn : Z) :
  2 ^ 23 < c < 2 ^ 24 -> -149 <= e <= 104 ->
  exists r,
    to_decimal32 {| significand := c; exponent := e; sign := sgn |} = Some r
    /\ nearest c e r.
Proof.
  intros Hc He.
  destruct (to_decimal32_exact c e sgn Hc He) as (Hres & HB & HAB).
  cbv zeta in Hres.
  set (k := triple.k_estimate e false) in *.
  set (A := ratio_num e k) in *. set (B := ratio_den e k) in *.
  pose proof (choose_nearest c A B ltac:(lia) HB HAB (Z.even c)) as Hn.
  cbv zeta in Hn.
  set (ch := choose (Z.even c) (exact_round_to_odd ((4 * c - 2) * A) B)
                    (exact_round_to_odd (4 * c * A) B)
                    (exact_round_to_odd ((4 * c + 2) * A) B)) in *.
  eexists. split; [exact Hres |].
  assert (Etrue : true_cbl c e = 4 * c - 2).
  { unfold true_cbl. replace (c =? 2 ^ 23) with false by (symmetry; apply Z.eqb_neq; lia).
    cbn [andb b2z]. lia. }
  unfold nearest. cbv zeta. rewrite (not_closer c Hc). fold k.
  cbn [exponent significand].
  unfold in_interval, distance. rewrite Etrue. fold A B.
  destruct (snd ch).
  - replace (k + 1 - k) with 1 by lia. change (10 ^ 1) with 10. exact Hn.
  - replace (k - k) with 0 by lia. change (10 ^ 0) with 1. exact Hn.
Qed.

(** ** Significands that are a power of two *)

Lemma far_right (a P t : Z) :
  0 < P -> 2 <= t -> Z.abs a <= Z.abs (a + P) -> Z.abs a < Z.abs (a + P * t).
Proof. intros HP Ht H. assert (2 * P <= P * t) by nia. lia. Qed.

Lemma far_left (a P t : Z) :
  0 < P -> 2 <= t -> Z.abs a <= Z.abs (a - P) -> Z.abs a < Z.abs (a - P * t).
Proof. intros HP Ht H. assert (2 * P <= P * t) by nia. lia. Qed.

Lemma power_of_two_nearest_all : forallb power_of_two_nearest normal_exponents = true.
Proof. vm_compute. reflexivity. Qed.

Lemma farther_b_sound (c e k m U z : Z) :
  farther_b c e k m U z = true ->
  in_interval c e k (z * U) = true ->
  distance c e k (m * U) < distance c e k (z * U)
  \/ (distance c e k (m * U) = distance c e k (z * U) /\ Z.even m = true).
Proof.
  unfold farther_b. intros H Hin. rewrite Hin in H. cbn [negb orb] in H.
  apply orb_prop in H as [H | H].
  - left. now apply Z.ltb_lt.
  - right. apply andb_prop in H as [H1 H2]. split; [now apply Z.eqb_eq | exact H2].
Qed.

Lemma nearest_b_sound (c e : Z) (r : float_triple) :
  post c e r -> nearest_b c e r = true -> nearest c e r.
Proof.
  intros (Hj & Hin & _) Hb. unfold nearest_b in Hb. unfold nearest. cbv zeta in *.
  set (k := triple.k_estimate e (popcount c =? 1)) in *.
  set (m := significand r) in *.
  set (U := 10 ^ (exponent r - k)) in *.
  assert (HU : 0 < U) by (unfold U; apply Z.pow_pos_nonneg; lia).
  pose proof (ratio_den_pos e k) as HB.
  apply andb_prop in Hb as [Hprev Hnext].
  intros z Hz Hne.
  assert (Hd : forall y, distance c e k (y * U)
                         = Z.abs (4 * (m * U) * ratio_den e k - 4 * c * ratio_num e k
                                  + 4 * U * ratio_den e k * (y - m))).
  { intros y. unfold distance. f_equal. ring. }
  assert (HP : 0 < 4 * U * ratio_den e k) by nia.
  set (a := 4 * (m * U) * ratio_den e k - 4 * c * ratio_num e k) in *.
  set (P := 4 * U * ratio_den e k) in *.
  destruct (Z.lt_total z m) as [Hlt | [Heq | Hgt]]; [| contradiction |].
  - assert (Hin1 : in_interval c e k ((m - 1) * U) = true).
    { unfold in_interval in *.
      apply (inside_convex _ _ _ _ (z * U) _ (m * U) HB); [nia | exact Hz | exact Hin]. }
    pose proof (farther_b_sound c e k m U (m - 1) Hprev Hin1) as Hf.
    destruct (Z.eq_dec z (m - 1)) as [-> | Hz1]; [exact Hf |].
    left. rewrite !Hd in *.
    replace (P * (m - m)) with 0 in * by ring.
    replace (P * (m - 1 - m)) with (- P) in Hf by ring.
    replace (a + P * (z - m)) with (a - P * (m - z)) by ring.
    rewrite Z.add_0_r in *.
    apply far_left; [exact HP | lia |].
    replace (a + - P) with (a - P) in Hf by ring. lia.
  - assert (Hin1 : in_interval c e k ((m + 1) * U) = true).
    { unfold in_interval in *.
      apply (inside_convex _ _ _ _ (m * U) _ (z * U) HB); [nia | exact Hin | exact Hz]. }
    pose proof (farther_b_sound c e k m U (m + 1) Hnext Hin1) as Hf.
    destruct (Z.eq_dec z (m + 1)) as [-> | Hz1]; [exact Hf |].
    left. rewrite !Hd in *.
    replace (P * (m - m)) with 0 in * by ring.
    replace (P * (m + 1 - m)) with P in Hf by ring.
    rewrite Z.add_0_r in *.
    apply far_right; [exact HP | lia | lia].
Qed.

Lemma nearest_sign (c e : Z) (r : float_triple) (s : Z) :
  nearest c e r ->
  nearest c e {| significand := significand r; exponent := exponent r; sign := s |}.
Proof. intros H. exact H. Qed.

Lemma to_decimal32_power_of_two_nearest (e sgn : Z) :
  -149 <= e <= 104 ->
  exists r,
    to_decimal32 {| significand := 2 ^ 23; exponent := e; sign := sgn |} = Some r
    /\ nearest (2 ^ 23) e r.
Proof.
  intros He.
  assert (Hin : In e normal_exponents) by (apply In_zrange; simpl; lia).
  pose proof (proj1 (forallb_forall _ _) power_of_two_nearest_all e Hin) as Hok.
  unfold power_of_two_nearest in Hok.
  destruct (to_decimal32 {| significand := 2 ^ 23; exponent := e; sign := 1 |})
    as [r1 |] eqn:E1; [| discriminate].
  destruct (to_decimal32_power_of_two e 1 He) as (r2 & E2 & Hpost & _).
  rewrite E1 in E2. apply Some_eq in E2. subst r2.
  exists {| significand := significand r1; exponent := exponent r1; sign := sgn |}.
  split; [exact (to_decimal32_sign _ _ _ sgn _ E1) |].
  apply nearest_sign. now apply nearest_b_sound.
Qed.

(** The conversion of a normalised triple with the exponent of a normal
    value returns the nearest decimal of its exponent. *)
Lemma to_decimal32_nearest (c e sgn : Z) :
  2 ^ 23 <= c < 2 ^ 24 -> -149 <= e <= 104 ->
  exists r,
    to_decimal32 {| significand := c; exponent := e; sign := sgn |} = Some r
    /\ nearest c e r.
Proof.
  intros Hc He. destruct (Z.eq_dec c (2 ^ 23)) as [-> | Hne].
  - now apply to_decimal32_power_of_two_nearest.
  - apply to_decimal32_general_nearest; lia.
Qed.

(** ** Distances, as rational numbers *)

Lemma distance_rational (c e k z : Z) :
  (inject_Z (distance c e k z)
   == 4 * 10 ^ (- k) * inject_Z (ratio_den e k)
      * Qabs (decimal_value z k - inject_Z c * 2 ^ e))%Q.
Proof.
  set (B := ratio_den e k).
  set (sigma := (4 * 10 ^ (- k) * inject_Z B)%Q).
  assert (Hs : (0 < sigma)%Q).
  { unfold sigma. apply Qmult_lt_0_compat; [apply Qmult_lt_0_compat |].
    - reflexivity.
    - apply Qpow_pos. reflexivity.
    - apply inject_Z_pos. apply ratio_den_pos. }
  assert (E1 : (10 ^ (- k) * 10 ^ k == 1)%Q).
  { rewrite <- Qpow_split by reflexivity. now replace (- k + k) with 0 by lia. }
  assert (Ez : (inject_Z (4 * z * B) == sigma * decimal_value z k)%Q).
  { rewrite !inject_Z_mult. unfold sigma, decimal_value.
    change (inject_Z 4) with 4%Q.
    transitivity (4 * inject_Z z * inject_Z B * (10 ^ (- k) * 10 ^ k))%Q;
      [rewrite E1 |]; ring. }
  assert (Ec : (inject_Z (4 * c * ratio_num e k) == sigma * (inject_Z c * 2 ^ e))%Q).
  { rewrite !inject_Z_mult, ratio_spec. fold B. unfold sigma.
    change (inject_Z 4) with 4%Q. ring. }
  unfold distance. fold B.
  change (inject_Z (Z.abs (4 * z * B - 4 * c * ratio_num e k)))
    with (Qabs (inject_Z (4 * z * B - 4 * c * ratio_num e k))).
  unfold Z.sub. rewrite inject_Z_plus, inject_Z_opp, Ez, Ec.
  setoid_replace (sigma * decimal_value z k + - (sigma * (inject_Z c * 2 ^ e)))%Q
    with (sigma * (decimal_value z k - inject_Z c * 2 ^ e))%Q by ring.
  rewrite Qabs_Qmult, (Qabs_pos sigma) by (apply Qlt_le_weak; exact Hs).
  reflexivity.
Qed.

Lemma distance_order (c e k z1 z2 : Z) :
  let d z := Qabs (decimal_value z k - inject_Z c * 2 ^ e) in
  (distance c e k z1 < distance c e k z2 -> (d z1 < d z2)%Q)
  /\ (distance c e k z1 = distance c e k z2 -> (d z1 == d z2)%Q).
Proof.
  intros d.
  assert (Hs : (0 < 4 * 10 ^ (- k) * inject_Z (ratio_den e k))%Q).
  { apply Qmult_lt_0_compat; [apply Qmult_lt_0_compat |].
    - reflexivity.
    - apply Qpow_pos. reflexivity.
    - apply inject_Z_pos. apply ratio_den_pos. }
  destruct (scaled_order _ _ _ _ _ Hs (distance_rational c e k z1)
              (distance_rational c e k z2)) as [Hle Hlt].
  destruct (scaled_order _ _ _ _ _ Hs (distance_rational c e k z2)
              (distance_rational c e k z1)) as [Hle' _].
  split.
  - intros H. now apply Hlt.
  - intros H. apply Qle_antisym; [apply Hle | apply Hle']; lia.
Qed.

(** Of the decimals with the exponent of the result that parse back to a
    normal single precision value, the result of [to_decimal] is the nearest
    to the value; when another one is as near, the significand of the result
    is even. *)
Theorem nearest_to_the_value (bits : Z) :
  0 <= bits < 2 ^ 32 ->
  0 < exponent_field limits_float bits < 255 ->
  exists r,
    to_decimal32 (make32 bits) = Some r
    /\ forall sgn m,
         parses_to limits_float sgn m (exponent r) bits ->
         m <> significand r ->
         let d x := Qabs (decimal_value x (exponent r)
                          - ieee_magnitude limits_float bits) in
         (d (significand r) < d m)%Q
         \/ ((d (significand r) == d m)%Q /\ Z.even (significand r) = true).
Proof.
  intros Hb HE.
  pose proof (fields32_ranges bits) as [HT _].
  set (T := trailing_field limits_float bits) in *.
  set (E := exponent_field limits_float bits) in *.
  rewrite make32_normal by (fold E; lia). fold T E.
  set (c := 2 ^ 23 + T). set (e := E - 150).
  set (s := if sign_field limits_float bits =? 0 then 1 else -1).
  destruct (to_decimal32_nearest c e s) as (r & Er & Hnear); [unfold c; lia | unfold e; lia |].
  destruct (to_decimal32_normal c e s) as (r' & Er' & Hpost & _);
    [unfold c; lia | unfold e; lia |].
  rewrite Er in Er'. apply Some_eq in Er'. subst r'.
  exists r. split; [exact Er |].
  intros sgn m [_ Hp] Hne d.
  assert (Eb : bits mod 2 ^ (digits limits_float - 1 + exponent_bits limits_float)
               = E * 2 ^ 23 + T).
  { change (digits limits_float - 1 + exponent_bits limits_float) with 31.
    apply magnitude_pattern32. lia. }
  rewrite Eb in Hp. apply rounds_to_interval in Hp; [| lia | lia]. fold c e in Hp.
  destruct Hpost as (Hj & _).
  unfold nearest in Hnear. cbv zeta in Hnear.
  set (k := triple.k_estimate e (popcount c =? 1)) in *.
  set (j := exponent r) in *.
  assert (Es : forall x, (decimal_value (x * 10 ^ (j - k)) k == decimal_value x j)%Q).
  { intros x. rewrite decimal_value_shift by lia. now replace (k + (j - k)) with j by lia. }
  assert (Hin : in_interval c e k (m * 10 ^ (j - k)) = true).
  { apply in_interval_spec. apply (qinside_eq _ _ _ _ _ (Qeq_sym _ _ (Es m))). exact Hp. }
  assert (Ef : (ieee_magnitude limits_float bits == inject_Z c * 2 ^ e)%Q).
  { unfold ieee_magnitude. cbv zeta. fold E T.
    replace (E =? 0) with false by (symmetry; apply Z.eqb_neq; lia).
    change (digits limits_float - 1) with 23.
    change (max_exponent limits_float - 1) with 127.
    now replace (E - 127 - 23) with e by (unfold e; lia). }
  assert (Ed : forall x, (d x == Qabs (decimal_value (x * 10 ^ (j - k)) k
                                       - inject_Z c * 2 ^ e))%Q).
  { intros x. unfold d. now rewrite Es, Ef. }
  destruct (distance_order c e k (significand r * 10 ^ (j - k)) (m * 10 ^ (j - k)))
    as [Hlt Heq].
  cbv zeta in Hlt, Heq.
  destruct (Hnear m Hin Hne) as [H | [H Hev]].
  - left. rewrite !Ed. now apply Hlt.
  - right. split; [| exact Hev]. rewrite !Ed. now apply Heq.
Qed.

Lemma nearest_to_the_value_witness :
  exists r,
    to_decimal32 (make32 0x3f800000) = Some r
    /\ forall sgn m,
         parses_to limits_float sgn m (exponent r) 0x3f800000 ->
         m <> significand r ->
         let d x := Qabs (decimal_value x (exponent r)
                          - ieee_magnitude limits_float 0x3f800000) in
         (d (significand r) < d m)%Q
         \/ ((d (significand r) == d m)%Q /\ Z.even (significand r) = true).
Proof.
  apply (nearest_to_the_value 0x3f800000); [lia |]. vm_compute. split; reflexivity.
Defined.

(** * The constructor without a hidden bit *)

Lemma traits_extended :
  float_traits.has_hidden_bit limits_extended = false
  /\ float_traits.storage_width limits_extended = 80
  /\ float_traits.uint_bits limits_extended = 128
  /\ float_traits.significand_width limits_extended = 64
  /\ float_traits.exponent_shift limits_extended = 64
  /\ float_traits.exponent_bias limits_extended = 16446
  /\ float_traits.significand_mask limits_extended = Z.ones 64
  /\ float_traits.exponent_mask limits_extended = Z.shiftl (Z.ones 15) 64
  /\ float_traits.sign_mask limits_extended = Z.shiftl (Z.ones 1) 79.
Proof. repeat split; vm_compute; reflexivity. Qed.

Lemma uint_t_extended (x : Z) : float_traits.uint_t limits_extended x = u128 x.
Proof. reflexivity. Qed.

Lemma extended_fields (bits : Z) :
  Z.land bits (Z.ones 64) = bits mod 2 ^ 64
  /\ Z.shiftr (Z.land bits (Z.shiftl (Z.ones 15) 64)) 64 = (bits / 2 ^ 64) mod 2 ^ 15
  /\ (Z.land bits (Z.shiftl (Z.ones 1) 79) =? 0) = ((bits / 2 ^ 79) mod 2 =? 0).
Proof.
  split; [| split].
  - apply Z.land_ones. lia.
  - rewrite land_shifted, Z.shiftr_shiftl_l, Z.sub_diag, Z.shiftl_0_r by lia.
    rewrite Z.land_ones, Z.shiftr_div_pow2 by lia. reflexivity.
  - rewrite land_shifted by lia.
    rewrite Z.land_ones, Z.shiftr_div_pow2, Z.shiftl_mul_pow2 by lia.
    change (2 ^ 1) with 2.
    pose proof (Z.mod_pos_bound (bits / 2 ^ 79) 2 ltac:(lia)) as Hr.
    destruct (Z.eqb_spec ((bits / 2 ^ 79) mod 2) 0) as [E0 | E0].
    + rewrite E0. reflexivity.
    + apply Z.eqb_neq. lia.
Qed.

(** The constructor on the x87 extended format, which stores the leading
    bit of the significand: the sign is read from bit 79 and the bits from
    80 on are ignored; for a nonzero exponent field the significand is the
    field as it is and the exponent is the field less the bias 16446; for
    the exponent field 0 and a nonzero significand field the significand is
    shifted until its leading bit is bit 63; and in every case
    [significand * 2 ^ exponent] is the value the pattern encodes. *)
Theorem constructor_extended (bits : Z) :
  0 <= bits < 2 ^ 128 ->
  let T := bits mod 2 ^ 64 in
  let E := (bits / 2 ^ 64) mod 2 ^ 15 in
  let t := triple.make limits_extended bits in
  sign t = (if (bits / 2 ^ 79) mod 2 =? 0 then 1 else -1)
  /\ (E <> 0 -> significand t = T /\ exponent t = E - 16446)
  /\ (E = 0 -> T <> 0 ->
      significand t = T * 2 ^ (64 - bit_width T)
      /\ exponent t = 1 - 16446 - (64 - bit_width T)
      /\ 2 ^ 63 <= significand t < 2 ^ 64)
  /\ (E = 0 -> T = 0 -> significand t = 0 /\ exponent t = 0)
  /\ (inject_Z (significand t) * 2 ^ exponent t == extended_magnitude bits)%Q.
Proof.
  intros Hb T E t.
  destruct traits_extended as (Hh & _ & _ & Hw & Hsh & Hbias & Mt & Me & Ms).
  destruct (extended_fields bits) as (FT & FE & FS).
  pose proof (Z.mod_pos_bound bits (2 ^ 64) ltac:(lia)) as HT. fold T in HT.
  pose proof (Z.mod_pos_bound (bits / 2 ^ 64) (2 ^ 15) ltac:(lia)) as HE. fold E in HE.
  assert (Et : t = if (E =? 0) && negb (T =? 0)
                   then {| significand := u128 (Z.shiftl T (i32 (64 - bit_width T)));
                           exponent := i32 (1 - 16446 - i32 (64 - bit_width T));
                           sign := if (bits / 2 ^ 79) mod 2 =? 0 then 1 else -1 |}
                   else if negb (E =? 0)
                   then {| significand := T; exponent := i32 (E - 16446);
                           sign := if (bits / 2 ^ 79) mod 2 =? 0 then 1 else -1 |}
                   else {| significand := T; exponent := E;
                           sign := if (bits / 2 ^ 79) mod 2 =? 0 then 1 else -1 |}).
  { unfold t, triple.make. cbv zeta.
    assert (Hu : u128 bits = bits) by (apply wrapu_small; exact Hb).
    rewrite Hh, Hw, Hsh, Hbias, Mt, Me, Ms.
    repeat rewrite uint_t_extended. rewrite !Hu.
    rewrite FT, FE, FS. fold T E.
    rewrite (i32_small E) by lia. reflexivity. }
  assert (Emag : extended_magnitude bits = (inject_Z T * 2 ^ (Z.max E 1 - 16383 - 63))%Q)
    by reflexivity.
  rewrite Emag. clearbody t. subst t.
  destruct (Z.eqb_spec E 0) as [E0 | E0]; cbn [andb negb].
  - destruct (Z.eqb_spec T 0) as [T0 | T0]; cbn [negb significand exponent sign].
    + rewrite T0. repeat split; try lia; try reflexivity.
    + assert (Tpos : 0 < T) by lia.
      pose proof (Z.log2_spec T Tpos) as Hl.
      pose proof (Z.log2_nonneg T) as Hl0.
      assert (Hlm : Z.log2 T < 64) by (apply Z.log2_lt_pow2; lia).
      assert (Ebw : bit_width T = Z.log2 T + 1).
      { unfold bit_width. destruct (Z.eqb_spec T 0); [contradiction | reflexivity]. }
      set (shift := 64 - bit_width T) in *.
      assert (Hsh' : 0 <= shift <= 63) by (unfold shift; lia).
      rewrite (i32_small shift) by lia.
      rewrite (i32_small (1 - 16446 - shift)) by lia.
      rewrite Z.shiftl_mul_pow2 by lia.
      assert (Psh : 2 ^ Z.log2 T * 2 ^ shift = 2 ^ 63).
      { rewrite <- pow2_split by lia. f_equal. unfold shift. lia. }
      pose proof (pow2_pos shift ltac:(lia)) as Ps.
      assert (Hrange : 2 ^ 63 <= T * 2 ^ shift < 2 ^ 64).
      { rewrite Z.pow_succ_r in Hl by lia. change (2 ^ 64) with (2 * 2 ^ 63). nia. }
      unfold u128. rewrite (wrapu_small 128 (T * 2 ^ shift)) by lia.
      split; [reflexivity |]. split; [intros; contradiction |].
      split; [intros; repeat split; lia |]. split; [intros; contradiction |].
      rewrite E0. change (Z.max 0 1 - 16383 - 63) with (1 - 16446).
      replace (1 - 16446) with (1 - 16446 - shift + shift) at 2 by lia.
      symmetry. rewrite <- (Qscale T shift (1 - 16446 - shift + shift)) by lia.
      now replace (1 - 16446 - shift + shift - shift) with (1 - 16446 - shift) by lia.
  - cbn [significand exponent sign].
    rewrite (i32_small (E - 16446)) by lia.
    split; [reflexivity |]. split; [intros; split; reflexivity |].
    split; [intros; contradiction |]. split; [intros; contradiction |].
    replace (Z.max E 1 - 16383 - 63) with (E - 16446) by lia. reflexivity.
Qed.

Lemma constructor_extended_witness :
  let bits := 0x3fff8000000000000000 in
  let t := triple.make limits_extended bits in
  sign t = (if (bits / 2 ^ 79) mod 2 =? 0 then 1 else -1)
  /\ significand t = 2 ^ 63 /\ exponent t = -63
  /\ (inject_Z (significand t) * 2 ^ exponent t == 1)%Q.
Proof.
  intros bits t.
  destruct (constructor_extended bits) as (H1 & H2 & _ & _ & H5); [unfold bits; lia |].
  destruct H2 as [H2 H3]; [vm_compute; discriminate |].
  split; [exact H1 |]. split; [exact H2 |]. split; [exact H3 |].
  fold t in H5. rewrite H5. vm_compute. reflexivity.
Defined.

(** * The table is exact enough, and just large enough *)

(** For the binary exponent of a normal single precision value and every
    boundary [2 n] of a significand that is not a power of two,
    [round_to_odd] on the table entry and the shifted boundary is the round
    to odd of the exact quotient [2 n * 2 ^ e / 10 ^ k]: the rounding of the
    table entry and the truncation of the product change nothing. *)
Theorem round_to_odd_is_exact (e n : Z) :
  -149 <= e <= 104 ->
  2 ^ 24 - 1 <= n <= 2 ^ 25 + 1 ->
  let k := triple.k_estimate e false in
  let h := triple.h_shift e false in
  exists g,
    math.compute_pow10 (i32 (- k)) = Some g
    /\ math.round_to_odd 32 g (2 * n * 2 ^ h)
       = exact_round_to_odd (2 * n * ratio_num e k) (ratio_den e k).
Proof.
  intros He Hn k h.
  destruct (exponent_facts e He) as (g & Hg & _ & _ & Hexact).
  exists g. split; [exact Hg |]. apply Hexact. unfold n_min, n_max. exact Hn.
Qed.

Lemma round_to_odd_is_exact_witness :
  exists g,
    math.compute_pow10 (i32 (- triple.k_estimate 10 false)) = Some g
    /\ math.round_to_odd 32 g (2 * 19531250 * 2 ^ triple.h_shift 10 false)
       = exact_round_to_odd (2 * 19531250 * ratio_num 10 (triple.k_estimate 10 false))
                            (ratio_den 10 (triple.k_estimate 10 false)).
Proof. apply (round_to_odd_is_exact 10 19531250); lia. Defined.

(** The index that [to_decimal] passes to [compute_pow10] is within the
    table for every binary exponent of a normal single precision value, and
    it reaches both ends: [kMax] at the exponent -149 of the smallest normal
    values and [kMin] at the exponent 104 of the largest. *)
Theorem table_fits_normal_values :
  (forall e closer,
      -149 <= e <= 104 ->
      math.kMin <= i32 (- triple.k_estimate e closer) <= math.kMax)
  /\ i32 (- triple.k_estimate (-149) false) = math.kMax
  /\ i32 (- triple.k_estimate 104 false) = math.kMin.
Proof.
  split; [| split; reflexivity].
  intros e closer He.
  pose proof (estimate_range e closer He) as Hk.
  rewrite i32_small by lia. unfold math.kMin, math.kMax. lia.
Qed.

(** * The words of a product *)

(** For [uint32_t], [word1] and [word0] are the third and the second 32-bit
    word of a product below [2 ^ 96], as [round_to_odd] forms it. *)
Theorem words_of_product (x : Z) :
  0 <= x < 2 ^ 96 ->
  0 <= math.word1 32 x < 2 ^ 32
  /\ 0 <= math.word0 32 x < 2 ^ 32
  /\ x = math.word1 32 x * 2 ^ 64 + math.word0 32 x * 2 ^ 32 + x mod 2 ^ 32.
Proof.
  intros Hx. unfold math.word1, math.word0, math.uint_t, wrapu.
  change (2 * 32) with 64. rewrite !Z.shiftr_div_pow2 by lia.
  assert (H1 : 0 <= x / 2 ^ 64 < 2 ^ 32).
  { split; [apply Z.div_pos; lia |]. apply Z.div_lt_upper_bound; [lia |].
    change (2 ^ 64 * 2 ^ 32) with (2 ^ 96). lia. }
  rewrite (Z.mod_small (x / 2 ^ 64)) by exact H1. rewrite mid_word.
  pose proof (Z.div_mod x (2 ^ 64) ltac:(lia)) as E1.
  pose proof (Z.mod_pos_bound x (2 ^ 64) ltac:(lia)) as B1.
  pose proof (Z.div_mod (x mod 2 ^ 64) (2 ^ 32) ltac:(lia)) as E2.
  pose proof (Z.mod_pos_bound (x mod 2 ^ 64) (2 ^ 32) ltac:(lia)) as B2.
  assert (E3 : (x mod 2 ^ 64) mod 2 ^ 32 = x mod 2 ^ 32).
  { apply Z.mod_mod_divide. exists (2 ^ 32). reflexivity. }
  rewrite E3 in E2, B2.
  assert (H0 : 0 <= x mod 2 ^ 64 / 2 ^ 32 < 2 ^ 32).
  { split; [apply Z.div_pos; lia |]. apply Z.div_lt_upper_bound; [lia |].
    change (2 ^ 32 * 2 ^ 32) with (2 ^ 64). lia. }
  split; [exact H1 |]. split; [exact H0 |]. lia.
Qed.

Lemma words_of_product_witness :
  0 <= math.word1 32 (0x83126E978D4FDF3C * 78125000) < 2 ^ 32
  /\ 0 <= math.word0 32 (0x83126E978D4FDF3C * 78125000) < 2 ^ 32
  /\ 0x83126E978D4FDF3C * 78125000
     = math.word1 32 (0x83126E978D4FDF3C * 78125000) * 2 ^ 64
       + math.word0 32 (0x83126E978D4FDF3C * 78125000) * 2 ^ 32
       + (0x83126E978D4FDF3C * 78125000) mod 2 ^ 32.
Proof. apply (words_of_product (0x83126E978D4FDF3C * 78125000)). lia. Defined.
